(** * Portfolio front-end script: cursor follower, particle field, theme
      toggle and contact-form validation

    A shallow embedding of [src/script.js].  JavaScript numbers are taken
    as real numbers (the data model of the specification is real-valued),
    JavaScript strings as lists of UTF-16 code units, closures as records
    of their captured variables, and the page (DOM, [STATE],
    [localStorage], pending animation-frame callbacks) as one explicit
    [World] record threaded through every handler.  The statements about
    numbers are those that rounding leaves true; where rounding decides
    a property, the expression of the source is also given on binary64
    values (module [Binary64]). *)

From Stdlib Require Import PrimFloat.
From Stdlib Require Import Reals Lra Lia List Bool ZArith NArith String Ascii.
Import ListNotations.

Open Scope R_scope.

(** * Part I: the embedding *)

(** ** JavaScript numbers

    The relational operators [<], [<=] and [>=] as boolean tests. *)

Module Num.

Definition ltb (a b : R) : bool := if Rlt_dec a b then true else false.
Definition leb (a b : R) : bool := if Rle_dec a b then true else false.
Definition geb (a b : R) : bool := if Rge_dec a b then true else false.

End Num.

(** ** JavaScript strings

    A string is its sequence of UTF-16 code units; [js] reads an ASCII
    literal of the source. *)

Definition jsstring : Type := list N.

Definition js (s : string) : jsstring :=
  map N_of_ascii (list_ascii_of_string s).

Fixpoint str_eqb (a b : jsstring) : bool :=
  match a, b with
  | [], [] => true
  | c :: a', d :: b' => N.eqb c d && str_eqb a' b'
  | _, _ => false
  end.

(** Truthiness of a string: only the empty string is falsy. *)
Definition truthy (s : jsstring) : bool :=
  match s with [] => false | _ :: _ => true end.

(** [a || b] on a nullable string ([localStorage.getItem] gives [null]
    for a missing key). *)
Definition or_default (a : option jsstring) (b : jsstring) : jsstring :=
  match a with
  | Some s => if truthy s then s else b
  | None => b
  end.

(** ECMAScript WhiteSpace and LineTerminator code units: the characters
    removed by [String.prototype.trim] and matched by the class [\s]. *)
Definition isWhiteSpace (c : N) : bool :=
  (existsb (N.eqb c)
     [9; 10; 11; 12; 13; 32; 160; 5760; 8232; 8233; 8239; 8287; 12288; 65279]
   || ((8192 <=? c) && (c <=? 8202)))%N.

Fixpoint trimStart (s : jsstring) : jsstring :=
  match s with
  | [] => []
  | c :: rest => if isWhiteSpace c then trimStart rest else s
  end.

Definition trimEnd (s : jsstring) : jsstring := rev (trimStart (rev s)).

Definition trim (s : jsstring) : jsstring := trimEnd (trimStart s).

(** ** Regular expressions

    The fragment of the pattern language used by the script: character
    classes, concatenation and [+]; [Void] and [Alt] are there for the
    derivatives.  [test] is [RegExp.prototype.test] for a pattern
    anchored with [^] and [$]. *)

Inductive Regex : Type :=
| Void : Regex
| Eps : Regex
| Class : (N -> bool) -> Regex
| Cat : Regex -> Regex -> Regex
| Alt : Regex -> Regex -> Regex
| Star : Regex -> Regex.

Definition Plus (r : Regex) : Regex := Cat r (Star r).

Fixpoint nullable (r : Regex) : bool :=
  match r with
  | Void => false
  | Eps => true
  | Class _ => false
  | Cat r1 r2 => nullable r1 && nullable r2
  | Alt r1 r2 => nullable r1 || nullable r2
  | Star _ => true
  end.

Fixpoint deriv (c : N) (r : Regex) : Regex :=
  match r with
  | Void => Void
  | Eps => Void
  | Class p => if p c then Eps else Void
  | Cat r1 r2 =>
      if nullable r1
      then Alt (Cat (deriv c r1) r2) (deriv c r2)
      else Cat (deriv c r1) r2
  | Alt r1 r2 => Alt (deriv c r1) (deriv c r2)
  | Star r1 => Cat (deriv c r1) (Star r1)
  end.

Fixpoint test (r : Regex) (s : jsstring) : bool :=
  match s with
  | [] => nullable r
  | c :: rest => test (deriv c r) rest
  end.

(** The class [[^\s@]]. *)
Definition notSpaceAt (c : N) : bool :=
  negb (isWhiteSpace c) && negb (N.eqb c 64).

(** [const emailRegex = /^[^\s@]+@[^\s@]+\.[^\s@]+$/] *)
Definition emailRegex : Regex :=
  Cat (Plus (Class notSpaceAt))
    (Cat (Class (N.eqb 64))
       (Cat (Plus (Class notSpaceAt))
          (Cat (Class (N.eqb 46))
             (Plus (Class notSpaceAt))))).

(** ** Configuration ([CONFIG]) *)

Module CONFIG.
Module cursor.
Definition size : R := 20.
Definition followSpeed : R := 0.15.
End cursor.
Module particles.
Definition count : nat := 50.
Definition speed : R := 0.5.
End particles.
End CONFIG.

(** ** Utility functions ([utils]) *)

Module utils.

(** [lerp: (start, end, factor) => start + (end - start) * factor] *)
Definition lerp (start end_ factor : R) : R :=
  start + (end_ - start) * factor.

End utils.

(** ** Binary64 arithmetic

    The numbers of the script are binary64 values.  The expressions of
    the source on which rounding decides a property are given here on
    primitive floats, whose operations are those of IEEE 754. *)

Set Warnings "-inexact-float".

Module Binary64.

(** [utils.lerp] *)
Definition lerp (start end_ factor : float) : float :=
  (start + (end_ - start) * factor)%float.

(** [CONFIG.cursor.followSpeed] *)
Definition followSpeed : float := 0.15%float.

(** The assignment of [updateCursor] to one of its two coordinates,
    [n] times with the same target. *)
Fixpoint follow (n : nat) (current target : float) : float :=
  match n with
  | O => current
  | S n' => follow n' (lerp current target followSpeed) target
  end.

(** The stroke opacity of [animate]: [0.1 * (1 - distance / 100)] *)
Definition lineOpacity (distance : float) : float :=
  (0.1 * (1 - distance / 100))%float.

(** [radius: Math.random() * 2 + 1] and
    [opacity: Math.random() * 0.5 + 0.2] *)
Definition radius (random : float) : float := (random * 2 + 1)%float.
Definition opacity (random : float) : float := (random * 0.5 + 0.2)%float.

(** [progress * (end - start) + start] of [utils.animateNumber] *)
Definition counted (progress start end_ : float) : float :=
  (progress * (end_ - start) + start)%float.

End Binary64.

(** ** Completions

    A handler either completes normally or throws.  Reading a property
    of [null] throws a [TypeError]; the guards of the source ([if
    (!cursor) return;]) are what keeps [deref] away from [None]. *)

Inductive Completion (A : Type) : Type :=
| Normal : A -> Completion A
| Throw : jsstring -> Completion A.

Arguments Normal {A} _.
Arguments Throw {A} _.

Definition bind {A B : Type} (c : Completion A) (k : A -> Completion B)
  : Completion B :=
  match c with
  | Normal a => k a
  | Throw e => Throw e
  end.

Notation "x <- c ;; k" := (bind c (fun x => k))
  (at level 61, c at next level, right associativity).

Definition deref {A : Type} (ref : option A) : Completion A :=
  match ref with
  | Some a => Normal a
  | None => Throw (js "TypeError")
  end.

(** ** The page *)

(** [STATE] (the fields the modelled handlers read or write). *)
Record STATE_t : Type := mkSTATE {
  currentTheme : jsstring;
  mousePosition : R * R;
  isReducedMotion : bool
}.

(** The [.cursor] element: its [style.transform] as set by
    [updateCursor] ([translate3d(a px, b px, 0)]), and the two expando
    properties [targetX] and [targetY] that [handleMouseMove] writes on
    the element. *)
Record CursorElement : Type := mkCursorElement {
  transform : option (R * R);
  el_targetX : option R;
  el_targetY : option R
}.

Record Canvas : Type := mkCanvas {
  width : Z;
  height : Z
}.

(** The [.hero] element: its layout size and the canvases appended to
    it. *)
Record Hero : Type := mkHero {
  offsetWidth : Z;
  offsetHeight : Z;
  children : list Canvas
}.

(** The variables captured by the closure [updateCursor]. *)
Record CursorClosure : Type := mkCursorClosure {
  currentX : R;
  currentY : R;
  targetX : R;
  targetY : R
}.

Record Particle : Type := mkParticle {
  x : R;
  y : R;
  vx : R;
  vy : R;
  radius : R;
  opacity : R
}.

(** What a frame paints on the 2D context. [FillArc] is
    [beginPath; arc(cx, cy, r, 0, 2π); fillStyle = rgba(14,165,233,a); fill],
    [StrokeLine] is
    [beginPath; moveTo; lineTo; strokeStyle = rgba(14,165,233,a); lineWidth = 0.5; stroke]. *)
Inductive DrawOp : Type :=
| ClearRect : R -> R -> DrawOp
| FillArc : R -> R -> R -> R -> DrawOp
| StrokeLine : R -> R -> R -> R -> R -> DrawOp.

(** The variables captured by the closure [animate]. *)
Record ParticleClosure : Type := mkParticleClosure {
  canvas : Canvas;
  particles : list Particle
}.

Record World : Type := mkWorld {
  STATE : STATE_t;
  storedTheme : option jsstring;      (* localStorage slot 'theme' *)
  dataTheme : option jsstring;        (* attribute data-theme of <html> *)
  innerWidth : Z;                     (* window.innerWidth *)
  cursorNode : option CursorElement;  (* document.querySelector('.cursor') *)
  heroNode : option Hero;             (* document.querySelector('.hero') *)
  hoverListeners : bool;              (* mouseenter/mouseleave of initializeCursor *)
  resizeListeners : nat;              (* resize listeners of createParticleCanvas *)
  cursorFrame : option CursorClosure;     (* requestAnimationFrame(updateCursor) *)
  particleFrame : option ParticleClosure; (* requestAnimationFrame(animate) *)
  surface : list DrawOp;              (* what the last frame painted *)
  rng : nat -> R;                     (* the values Math.random() returns *)
  rngNext : nat                       (* how many it has returned *)
}.

Definition set_STATE (s : STATE_t) (w : World) : World :=
  mkWorld s (storedTheme w) (dataTheme w) (innerWidth w) (cursorNode w)
    (heroNode w) (hoverListeners w) (resizeListeners w) (cursorFrame w)
    (particleFrame w) (surface w) (rng w) (rngNext w).

Definition set_storedTheme (t : option jsstring) (w : World) : World :=
  mkWorld (STATE w) t (dataTheme w) (innerWidth w) (cursorNode w)
    (heroNode w) (hoverListeners w) (resizeListeners w) (cursorFrame w)
    (particleFrame w) (surface w) (rng w) (rngNext w).

Definition set_dataTheme (t : option jsstring) (w : World) : World :=
  mkWorld (STATE w) (storedTheme w) t (innerWidth w) (cursorNode w)
    (heroNode w) (hoverListeners w) (resizeListeners w) (cursorFrame w)
    (particleFrame w) (surface w) (rng w) (rngNext w).

Definition set_cursorNode (c : option CursorElement) (w : World) : World :=
  mkWorld (STATE w) (storedTheme w) (dataTheme w) (innerWidth w) c
    (heroNode w) (hoverListeners w) (resizeListeners w) (cursorFrame w)
    (particleFrame w) (surface w) (rng w) (rngNext w).

Definition set_heroNode (h : option Hero) (w : World) : World :=
  mkWorld (STATE w) (storedTheme w) (dataTheme w) (innerWidth w)
    (cursorNode w) h (hoverListeners w) (resizeListeners w) (cursorFrame w)
    (particleFrame w) (surface w) (rng w) (rngNext w).

Definition set_hoverListeners (b : bool) (w : World) : World :=
  mkWorld (STATE w) (storedTheme w) (dataTheme w) (innerWidth w)
    (cursorNode w) (heroNode w) b (resizeListeners w) (cursorFrame w)
    (particleFrame w) (surface w) (rng w) (rngNext w).

Definition set_resizeListeners (n : nat) (w : World) : World :=
  mkWorld (STATE w) (storedTheme w) (dataTheme w) (innerWidth w)
    (cursorNode w) (heroNode w) (hoverListeners w) n (cursorFrame w)
    (particleFrame w) (surface w) (rng w) (rngNext w).

Definition set_cursorFrame (c : option CursorClosure) (w : World) : World :=
  mkWorld (STATE w) (storedTheme w) (dataTheme w) (innerWidth w)
    (cursorNode w) (heroNode w) (hoverListeners w) (resizeListeners w) c
    (particleFrame w) (surface w) (rng w) (rngNext w).

Definition set_particleFrame (p : option ParticleClosure) (w : World)
  : World :=
  mkWorld (STATE w) (storedTheme w) (dataTheme w) (innerWidth w)
    (cursorNode w) (heroNode w) (hoverListeners w) (resizeListeners w)
    (cursorFrame w) p (surface w) (rng w) (rngNext w).

Definition set_surface (ops : list DrawOp) (w : World) : World :=
  mkWorld (STATE w) (storedTheme w) (dataTheme w) (innerWidth w)
    (cursorNode w) (heroNode w) (hoverListeners w) (resizeListeners w)
    (cursorFrame w) (particleFrame w) ops (rng w) (rngNext w).

Definition set_rngNext (n : nat) (w : World) : World :=
  mkWorld (STATE w) (storedTheme w) (dataTheme w) (innerWidth w)
    (cursorNode w) (heroNode w) (hoverListeners w) (resizeListeners w)
    (cursorFrame w) (particleFrame w) (surface w) (rng w) n.

(** [Math.random()] *)
Definition Math_random (w : World) : R * World :=
  (rng w (rngNext w), set_rngNext (S (rngNext w)) w).

(** The guard shared by [initializeCursor] and [initializeParticles]:
    [STATE.isReducedMotion || window.innerWidth <= 768]. *)
Definition motionDisabled (w : World) : bool :=
  isReducedMotion (STATE w) || (innerWidth w <=? 768)%Z.

(** ** Theme management *)

Definition light : jsstring := js "light".
Definition dark : jsstring := js "dark".

(** [currentTheme: localStorage.getItem('theme') || 'light'] *)
Definition initialTheme (stored : option jsstring) : jsstring :=
  or_default stored light.

(** [initializeTheme]: the attribute [data-theme] takes the current
    theme. *)
Definition initializeTheme (w : World) : Completion World :=
  Normal (set_dataTheme (Some (currentTheme (STATE w))) w).

(** [toggleTheme]; the transition style it puts on [document.body] for
    300 ms is not part of the modelled page. *)
Definition toggleTheme (w : World) : Completion World :=
  let t := if str_eqb (currentTheme (STATE w)) light then dark else light in
  let w1 :=
    set_STATE
      (mkSTATE t (mousePosition (STATE w)) (isReducedMotion (STATE w))) w in
  let w2 := set_dataTheme (Some (currentTheme (STATE w1))) w1 in
  Normal (set_storedTheme (Some (currentTheme (STATE w2))) w2).

(** ** Custom cursor *)

(** The assignments of [updateCursor] to the captured variables:
    [currentX] and [currentY] move toward [targetX] and [targetY]. *)
Definition stepCursor (cl : CursorClosure) : CursorClosure :=
  mkCursorClosure
    (utils.lerp (currentX cl) (targetX cl) CONFIG.cursor.followSpeed)
    (utils.lerp (currentY cl) (targetY cl) CONFIG.cursor.followSpeed)
    (targetX cl) (targetY cl).

(** One call of the closure [updateCursor]: the variables are updated,
    the element is repositioned, and the closure is scheduled again.
    The element written to is the [.cursor] node the closure captured. *)
Definition updateCursor (cl : CursorClosure) (w : World) : Completion World :=
  let cl' := stepCursor cl in
  let place (el : CursorElement) :=
    mkCursorElement
      (Some (currentX cl' - CONFIG.cursor.size / 2,
             currentY cl' - CONFIG.cursor.size / 2))
      (el_targetX el) (el_targetY el) in
  let w1 := set_cursorNode (option_map place (cursorNode w)) w in
  Normal (set_cursorFrame (Some cl') w1).

(** The captured variables after [n] calls. *)
Fixpoint follow (n : nat) (cl : CursorClosure) : CursorClosure :=
  match n with
  | O => cl
  | S n' => follow n' (stepCursor cl)
  end.

(** [initializeCursor]: the closure starts from
    [currentX = currentY = targetX = targetY = 0] and is called once. *)
Definition initializeCursor (w : World) : Completion World :=
  if motionDisabled w then Normal w
  else
    match cursorNode w with
    | None => Normal w
    | Some _ =>
        w1 <- updateCursor (mkCursorClosure 0 0 0 0) w ;;
        Normal (set_hoverListeners true w1)
    end.

(** [handleMouseMove]: [STATE.mousePosition] takes the pointer's
    coordinates; when the page has a [.cursor] element the coordinates
    are also assigned to the properties [targetX] and [targetY] of that
    element. *)
Definition handleMouseMove (clientX clientY : R) (w : World)
  : Completion World :=
  let w1 :=
    set_STATE
      (mkSTATE (currentTheme (STATE w)) (clientX, clientY)
         (isReducedMotion (STATE w))) w in
  match cursorNode w1 with
  | Some _ =>
      el <- deref (cursorNode w1) ;;
      let w2 :=
        set_cursorNode
          (Some (mkCursorElement (transform el) (Some clientX)
                   (el_targetY el))) w1 in
      el' <- deref (cursorNode w2) ;;
      Normal
        (set_cursorNode
           (Some (mkCursorElement (transform el') (el_targetX el')
                    (Some clientY))) w2)
  | None => Normal w1
  end.

(** ** Particle system *)

(** The body of the outer [forEach] up to the bounce: the position
    advances by the velocity, then each velocity component is negated
    when its coordinate is at or beyond an edge of the canvas. *)
Definition advance (cw ch : R) (p : Particle) : Particle :=
  let x1 := x p + vx p in
  let y1 := y p + vy p in
  let vx1 := if Num.leb x1 0 || Num.geb x1 cw then - vx p else vx p in
  let vy1 := if Num.leb y1 0 || Num.geb y1 ch then - vy p else vy p in
  mkParticle x1 y1 vx1 vy1 (radius p) (opacity p).

(** [Math.sqrt(dx * dx + dy * dy)] *)
Definition distance (p q : Particle) : R :=
  let dx := x p - x q in
  let dy := y p - y q in
  sqrt (dx * dx + dy * dy).

Definition lineOpacity (d : R) : R := 0.1 * (1 - d / 100).

(** The inner [forEach]: one stroke for each element of the array that
    is closer than 100. *)
Definition connect (p : Particle) (others : list Particle) : list DrawOp :=
  flat_map
    (fun q =>
       let d := distance p q in
       if Num.ltb d 100
       then [StrokeLine (x p) (y p) (x q) (y q) (lineOpacity d)]
       else [])
    others.

(** The outer [forEach] over the array [done ++ todo], of which [done]
    has been visited: when a particle is visited the array holds the
    new state of the particles before it and the old state of those
    after it. *)
Fixpoint forEachParticle (cw ch : R) (done todo : list Particle)
  : list Particle * list DrawOp :=
  match todo with
  | [] => (done, [])
  | p :: rest =>
      let p' := advance cw ch p in
      let ops :=
        FillArc (x p') (y p') (radius p') (opacity p')
        :: connect p' (done ++ p' :: rest) in
      let '(final, ops') := forEachParticle cw ch (done ++ [p']) rest in
      (final, ops ++ ops')
  end.

(** The painting and the particles after one frame. *)
Definition animateFrame (cw ch : R) (ps : list Particle)
  : list Particle * list DrawOp :=
  let '(ps', ops) := forEachParticle cw ch [] ps in
  (ps', ClearRect cw ch :: ops).

(** One call of the closure [animate]. *)
Definition animate (cl : ParticleClosure) (w : World) : Completion World :=
  let '(ps', ops) :=
    animateFrame (IZR (width (canvas cl))) (IZR (height (canvas cl)))
      (particles cl) in
  Normal
    (set_particleFrame (Some (mkParticleClosure (canvas cl) ps'))
       (set_surface ops w)).

(** The particles after [n] frames on a canvas of fixed size. *)
Fixpoint frames (n : nat) (cw ch : R) (ps : list Particle) : list Particle :=
  match n with
  | O => ps
  | S n' => frames n' cw ch (fst (animateFrame cw ch ps))
  end.

(** One particle after [n] frames. *)
Fixpoint advances (n : nat) (cw ch : R) (p : Particle) : Particle :=
  match n with
  | O => p
  | S n' => advances n' cw ch (advance cw ch p)
  end.

(** One iteration of the creation loop: six calls of [Math.random] in
    the order of the object literal. *)
Definition createParticle (cv : Canvas) (w : World) : Particle * World :=
  let '(r1, w1) := Math_random w in
  let '(r2, w2) := Math_random w1 in
  let '(r3, w3) := Math_random w2 in
  let '(r4, w4) := Math_random w3 in
  let '(r5, w5) := Math_random w4 in
  let '(r6, w6) := Math_random w5 in
  (mkParticle (r1 * IZR (width cv)) (r2 * IZR (height cv))
     ((r3 - 0.5) * CONFIG.particles.speed)
     ((r4 - 0.5) * CONFIG.particles.speed)
     (r5 * 2 + 1) (r6 * 0.5 + 0.2),
   w6).

Fixpoint createParticles (n : nat) (cv : Canvas) (ps : list Particle)
  (w : World) : list Particle * World :=
  match n with
  | O => (ps, w)
  | S n' =>
      let '(p, w1) := createParticle cv w in
      createParticles n' cv (ps ++ [p]) w1
  end.

(** [createParticleCanvas]: [null] without a [.hero] element; otherwise
    a canvas of the hero's size, appended to it, with a resize
    listener. *)
Definition createParticleCanvas (w : World)
  : Completion (option Canvas * World) :=
  match heroNode w with
  | None => Normal (None, w)
  | Some _ =>
      hero <- deref (heroNode w) ;;
      let cv := mkCanvas (offsetWidth hero) (offsetHeight hero) in
      let w1 := set_resizeListeners (S (resizeListeners w)) w in
      Normal
        (Some cv,
         set_heroNode
           (Some (mkHero (offsetWidth hero) (offsetHeight hero)
                    (children hero ++ [cv]))) w1)
  end.

Definition initializeParticles (w : World) : Completion World :=
  if motionDisabled w then Normal w
  else
    r <- createParticleCanvas w ;;
    match r with
    | (None, w1) => Normal w1
    | (Some cv, w1) =>
        let '(ps, w2) := createParticles CONFIG.particles.count cv [] w1 in
        animate (mkParticleClosure cv ps) w2
    end.

(** ** Contact form *)

Record Field : Type := mkField {
  value : jsstring;
  required : bool;              (* field.hasAttribute('required') *)
  type : jsstring;              (* field.type *)
  borderColor : jsstring;       (* field.style.borderColor *)
  errorDiv : option jsstring    (* text of the sibling .error-message *)
}.

Definition clearFieldError (f : Field) : Field :=
  mkField (value f) (required f) (type f) [] None.

Definition showFieldError (f : Field) (message : jsstring) : Field :=
  mkField (value f) (required f) (type f) (js "#dc2626") (Some message).

(** [validateField]: the verdict [isValid] and the field as it is left
    on the page. *)
Definition validateField (f : Field) : bool * Field :=
  let v := trim (value f) in
  let f1 := clearFieldError f in
  let '(isValid, errorMessage) :=
    if required f1 && negb (truthy v)
    then (false, js "This field is required")
    else (true, []) in
  let '(isValid, errorMessage) :=
    if str_eqb (type f1) (js "email") && truthy v
    then
      if negb (test emailRegex v)
      then (false, js "Please enter a valid email address")
      else (isValid, errorMessage)
    else (isValid, errorMessage) in
  if negb isValid then (isValid, showFieldError f1 errorMessage)
  else (isValid, f1).

(** ** Events and page load *)

Inductive Event : Type :=
| MouseMove : R -> R -> Event      (* mousemove at (clientX, clientY) *)
| AnimationFrame : Event           (* the host runs the pending callbacks *)
| ThemeChange : Event.             (* change on #theme-switch *)

Definition dispatch (w : World) (e : Event) : Completion World :=
  match e with
  | MouseMove clientX clientY => handleMouseMove clientX clientY w
  | AnimationFrame =>
      w1 <- match cursorFrame w with
            | Some cl => updateCursor cl w
            | None => Normal w
            end ;;
      match particleFrame w1 with
      | Some cl => animate cl w1
      | None => Normal w1
      end
  | ThemeChange => toggleTheme w
  end.

Fixpoint run (es : list Event) (w : World) : Completion World :=
  match es with
  | [] => Normal w
  | e :: es' => w1 <- dispatch w e ;; run es' w1
  end.

(** What the host provides when the page is loaded. *)
Record Environment : Type := mkEnvironment {
  env_theme : option jsstring;
  env_reducedMotion : bool;
  env_innerWidth : Z;
  env_cursor : option CursorElement;
  env_hero : option Hero;
  env_random : nat -> R
}.

Definition load (e : Environment) : World :=
  mkWorld
    (mkSTATE (initialTheme (env_theme e)) (0, 0) (env_reducedMotion e))
    (env_theme e) None (env_innerWidth e) (env_cursor e) (env_hero e)
    false 0%nat None None [] (env_random e) 0%nat.

(** [PortfolioApp.init], restricted to the three initialisers modelled
    here, in the order of the source. *)
Definition init (w : World) : Completion World :=
  w1 <- initializeTheme w ;;
  w2 <- initializeCursor w1 ;;
  initializeParticles w2.

Definition boot (e : Environment) : Completion World := init (load e).

(** ** Predicates of the statements *)

(** Membership in the language of a pattern. *)
Inductive Matches : Regex -> jsstring -> Prop :=
| M_Eps : Matches Eps []
| M_Class : forall (p : N -> bool) c, p c = true -> Matches (Class p) [c]
| M_Cat : forall r1 r2 s1 s2,
    Matches r1 s1 -> Matches r2 s2 -> Matches (Cat r1 r2) (s1 ++ s2)
| M_AltL : forall r1 r2 s, Matches r1 s -> Matches (Alt r1 r2) s
| M_AltR : forall r1 r2 s, Matches r2 s -> Matches (Alt r1 r2) s
| M_Star0 : forall r, Matches (Star r) []
| M_StarS : forall r s1 s2,
    Matches r s1 -> Matches (Star r) s2 -> Matches (Star r) (s1 ++ s2).

(** A code unit that is neither white space nor [@]. *)
Definition plainUnit (c : N) : Prop := isWhiteSpace c = false /\ c <> 64%N.

(** The shape [local@domain.tld]: three non-empty runs of plain code
    units, separated by one [@] and one dot. *)
Definition EmailShape (s : jsstring) : Prop :=
  exists local domain tld,
    s = local ++ [64%N] ++ domain ++ [46%N] ++ tld
    /\ local <> [] /\ domain <> [] /\ tld <> []
    /\ Forall plainUnit local /\ Forall plainUnit domain
    /\ Forall plainUnit tld.

(** A particle inside the drawing surface. *)
Definition inBounds (cw ch : R) (p : Particle) : Prop :=
  (0 <= x p <= cw) /\ (0 <= y p <= ch).

(** A particle no further outside the surface than one step of its own
    velocity. *)
Definition nearBounds (cw ch : R) (p : Particle) : Prop :=
  (- Rabs (vx p) <= x p <= cw + Rabs (vx p))
  /\ (- Rabs (vy p) <= y p <= ch + Rabs (vy p)).

(** A coordinate that is inside its range now or after the next
    advance. *)
Definition homing (extent pos vel : R) : Prop :=
  0 <= pos <= extent \/ 0 <= pos + vel <= extent.

Definition homingParticle (cw ch : R) (p : Particle) : Prop :=
  homing cw (x p) (vx p) /\ homing ch (y p) (vy p).

(** What a frame never changes in a particle. *)
Definition sameMake (p p' : Particle) : Prop :=
  Rabs (vx p') = Rabs (vx p) /\ Rabs (vy p') = Rabs (vy p)
  /\ radius p' = radius p /\ opacity p' = opacity p.

(** The edge test of the source on one axis. *)
Definition atEdge (pos extent : R) : Prop := pos <= 0 \/ pos >= extent.

(** Distance from the rendered position to the target. *)
Definition cursorDistance (cl : CursorClosure) : R :=
  sqrt ((currentX cl - targetX cl) * (currentX cl - targetX cl)
        + (currentY cl - targetY cl) * (currentY cl - targetY cl)).

Definition isStroke (op : DrawOp) : bool :=
  match op with StrokeLine _ _ _ _ _ => true | _ => false end.

(** Number of [stroke()] calls of a frame. *)
Definition strokes (ops : list DrawOp) : nat :=
  List.length (filter isStroke ops).

Definition isTheme (t : jsstring) : Prop := t = light \/ t = dark.

(** The theme is one of the two the script writes, and the slot is
    empty or holds one of them. *)
Definition themeInvariant (w : World) : Prop :=
  isTheme (currentTheme (STATE w))
  /\ (storedTheme w = None \/ exists t, storedTheme w = Some t /\ isTheme t).

(** What the frame's update makes of a particle [p] on a surface of
    width [cw] and height [ch]: the position advanced by the velocity,
    and each velocity component negated when the advanced coordinate is
    at or beyond an edge and kept otherwise. *)
Definition edgeRule (cw ch : R) (p p' : Particle) : Prop :=
  (x p' = x p + vx p /\ y p' = y p + vy p)
  /\ ((atEdge (x p') cw /\ vx p' = - vx p)
      \/ (~ atEdge (x p') cw /\ vx p' = vx p))
  /\ ((atEdge (y p') ch /\ vy p' = - vy p)
      \/ (~ atEdge (y p') ch /\ vy p' = vy p))
  /\ (vx p <> 0 -> (vx p' = - vx p <-> atEdge (x p') cw))
  /\ (vy p <> 0 -> (vy p' = - vy p <-> atEdge (y p') ch)).

(** ** Sample pages and inputs *)

Definition plainCursor : CursorElement := mkCursorElement None None None.

(** A wide page with a [.cursor] element, no [.hero], motion allowed,
    and a theme slot never written. *)
Definition desktop : Environment :=
  mkEnvironment None false 1280 (Some plainCursor) None (fun _ => 0).

(** The page [desktop] once loaded. *)
Definition desktopPage : World :=
  match boot desktop with
  | Normal w => w
  | Throw _ => load desktop
  end.

(** A particle one eighth of a unit from the left edge of an 800 x 600
    surface, moving left at the highest speed the creation loop gives. *)
Definition edgeParticle : Particle := mkParticle 0.125 300 (-0.25) 0.125 2 0.5.

(** Values of [Math.random] for which the creation loop, on an
    800 x 600 canvas, makes [edgeParticle] first. *)
Definition edgeRandom (n : nat) : R :=
  match n with
  | 0%nat => 0.00015625
  | 1%nat => 0.5
  | 2%nat => 0
  | 3%nat => 0.75
  | 4%nat => 0.5
  | _ => 0.6
  end.

Definition edgePage : Environment :=
  mkEnvironment None false 1280 None (Some (mkHero 800 600 [])) edgeRandom.

(** The page [edgePage] once loaded: fifty particles on an 800 x 600
    canvas, painted once. *)
Definition edgePageLoaded : World :=
  match boot edgePage with
  | Normal w => w
  | Throw _ => load edgePage
  end.

(** Three particles at rest: [restA] and [restB] are 5 apart, [restA]
    and [restC] are 500 apart. *)
Definition restA : Particle := mkParticle 100 100 0 0 2 0.5.
Definition restB : Particle := mkParticle 103 104 0 0 2 0.5.
Definition restC : Particle := mkParticle 400 500 0 0 2 0.5.

(** A page whose theme slot holds a string this script never writes. *)
Definition bluePage : Environment :=
  mkEnvironment (Some (js "blue")) false 1280 None None (fun _ => 0).

(** A wide page with neither a [.cursor] nor a [.hero] element. *)
Definition bare : Environment :=
  mkEnvironment None false 1280 None None (fun _ => 0).

(** Form fields: a required email field holding [a@b.co], one holding
    [a@b], an optional email field left empty, and a required text
    field holding two spaces. *)
Definition goodEmail : Field := mkField (js "a@b.co") true (js "email") [] None.
Definition badEmail : Field := mkField (js "a@b") true (js "email") [] None.
Definition emptyOptionalEmail : Field := mkField [] false (js "email") [] None.
Definition blankName : Field := mkField (js "  ") true (js "text") [] None.

(** A required email field holding [a@b.co] between two spaces. *)
Definition paddedEmail : Field :=
  mkField (js " a@b.co ") true (js "email") [] None.

(** ** Clamping and defaults *)

Module Utils.

(** [clamp: (value, min, max) => Math.min(Math.max(value, min), max)] *)
Definition clamp (value min max : R) : R := Rmin (Rmax value min) max.

End Utils.

(** [a || b] on numbers: zero is falsy. *)
Definition or_number (a b : R) : R := if Req_dec_T a 0 then b else a.

(** ** Scrolling *)

(** A [section[id]] element with the edges of its bounding rectangle in
    the viewport. *)
Record Section : Type := mkSection {
  section_id : jsstring;
  section_top : R;
  section_bottom : R
}.

(** An anchor of [.nav-links]: its [href] attribute, if any, and
    whether its class list holds [active]. *)
Record NavLink : Type := mkNavLink {
  href : option jsstring;
  active : bool
}.

(** What [handleWindowScroll] reads and writes. *)
Record ScrollPage : Type := mkScrollPage {
  scrollY : R;                          (* STATE.scrollY *)
  navbarScrolled : option bool;         (* #navbar: class 'scrolled' *)
  sections : list Section;
  navLinks : list NavLink;
  floatingY : list (option R);          (* .floating-element: translateY *)
  indicatorOpacity : option (option R)  (* .scroll-indicator: style.opacity *)
}.

(** The test of [updateActiveNav] on one section. *)
Definition spansMark (s : Section) : bool :=
  Num.leb (section_top s) 100 && Num.geb (section_bottom s) 100.

(** The first [forEach] of [updateActiveNav]. *)
Definition currentSection (ss : list Section) : jsstring :=
  fold_left (fun cur s => if spansMark s then section_id s else cur) ss [].

(** [link.getAttribute('href') === `#${currentSection}`] *)
Definition pointsTo (cur : jsstring) (l : NavLink) : bool :=
  match href l with
  | Some h => str_eqb h (35%N :: cur)
  | None => false
  end.

Definition updateActiveNav (p : ScrollPage) : ScrollPage :=
  let cur := currentSection (sections p) in
  mkScrollPage (scrollY p) (navbarScrolled p) (sections p)
    (List.map (fun l => mkNavLink (href l) (pointsTo cur l)) (navLinks p))
    (floatingY p) (indicatorOpacity p).

(** The [forEach] of [handleScrollAnimations], from index [index]. *)
Fixpoint parallax (sy : R) (index : nat) (els : list (option R))
  : list (option R) :=
  match els with
  | [] => []
  | _ :: rest =>
      Some (- (sy * (0.5 + INR index * 0.1))) :: parallax sy (S index) rest
  end.

Definition handleScrollAnimations (p : ScrollPage) : ScrollPage :=
  mkScrollPage (scrollY p) (navbarScrolled p) (sections p) (navLinks p)
    (parallax (scrollY p) 0 (floatingY p))
    (option_map
       (fun _ => Some (Utils.clamp (1 - scrollY p / 300) 0 1))
       (indicatorOpacity p)).

(** [handleWindowScroll], with [window.pageYOffset] as argument. *)
Definition handleWindowScroll (pageYOffset : R) (p : ScrollPage)
  : ScrollPage :=
  let p1 :=
    mkScrollPage pageYOffset
      (option_map (fun _ => Num.ltb 50 pageYOffset) (navbarScrolled p))
      (sections p) (navLinks p) (floatingY p) (indicatorOpacity p) in
  handleScrollAnimations (updateActiveNav p1).

(** ** Mobile menu and window resize *)

Record MenuPage : Type := mkMenuPage {
  isMobileMenuOpen : bool;          (* STATE.isMobileMenuOpen *)
  toggleActive : option bool;       (* .mobile-menu-toggle: class 'active' *)
  mobileNavActive : option bool;    (* .mobile-nav: class 'active' *)
  bodyOverflow : jsstring           (* document.body.style.overflow *)
}.

Definition toggleMobileMenu (m : MenuPage) : MenuPage :=
  let open := negb (isMobileMenuOpen m) in
  mkMenuPage open
    (option_map (fun _ => open) (toggleActive m))
    (option_map (fun _ => open) (mobileNavActive m))
    (if open then js "hidden" else []).

Record Rect : Type := mkRect {
  rect_left : R;
  rect_top : R;
  rect_width : R;
  rect_height : R
}.

(** The window and, behind [||], the root element's client size. *)
Record Viewport : Type := mkViewport {
  vp_innerWidth : R;
  vp_innerHeight : R;
  vp_clientWidth : R;
  vp_clientHeight : R
}.

(** [utils.isInViewport]; its parameter [threshold] is not read. *)
Definition isInViewport (v : Viewport) (rect : Rect) : bool :=
  let windowHeight := or_number (vp_innerHeight v) (vp_clientHeight v) in
  let windowWidth := or_number (vp_innerWidth v) (vp_clientWidth v) in
  let vertInView :=
    Num.leb (rect_top rect) windowHeight
    && Num.geb (rect_top rect + rect_height rect) 0 in
  let horInView :=
    Num.leb (rect_left rect) windowWidth
    && Num.geb (rect_left rect + rect_width rect) 0 in
  vertInView && horInView.

(** An element of [.fade-in, .scale-in]: its rectangle and whether its
    class list holds [visible]. *)
Record Animated : Type := mkAnimated {
  anim_rect : Rect;
  anim_visible : bool
}.

Definition recalculateAnimations (v : Viewport) (els : list Animated)
  : list Animated :=
  List.map
    (fun el =>
       if isInViewport v (anim_rect el)
       then mkAnimated (anim_rect el) true
       else el)
    els.

(** What [handleWindowResize] reads and writes. *)
Record ResizePage : Type := mkResizePage {
  viewport : Viewport;
  cursorDisplay : option jsstring;    (* .cursor: style.display *)
  menu : MenuPage;
  animated : list Animated
}.

Definition handleWindowResize (p : ResizePage) : ResizePage :=
  let narrow := Num.leb (vp_innerWidth (viewport p)) 768 in
  let display :=
    option_map (fun _ => if narrow then js "none" else js "block")
      (cursorDisplay p) in
  let m :=
    if Num.ltb 768 (vp_innerWidth (viewport p)) && isMobileMenuOpen (menu p)
    then toggleMobileMenu (menu p)
    else menu p in
  mkResizePage (viewport p) display m
    (recalculateAnimations (viewport p) (animated p)).

(** A menu whose elements and body agree with [STATE.isMobileMenuOpen]. *)
Definition menuConsistent (m : MenuPage) : Prop :=
  (forall b, toggleActive m = Some b -> b = isMobileMenuOpen m)
  /\ (forall b, mobileNavActive m = Some b -> b = isMobileMenuOpen m)
  /\ bodyOverflow m = (if isMobileMenuOpen m then js "hidden" else []).

(** A section whose rectangle holds the line 100 px below the top of the
    viewport. *)
Definition holdsMark (s : Section) : Prop :=
  section_top s <= 100 <= section_bottom s.

(** The first [forEach] of [updateActiveNav] from a given value of its
    variable. *)
Definition pickSection (cur : jsstring) (ss : list Section) : jsstring :=
  fold_left (fun cur s => if spansMark s then section_id s else cur) ss cur.

(** A page scrolled so that its second section holds the mark; the
    links still carry the flags of an earlier position. *)
Definition homeSection : Section := mkSection (js "home") (-500) 50.
Definition aboutSection : Section := mkSection (js "about") 50 700.
Definition workSection : Section := mkSection (js "work") 700 1300.

Definition scrolledPage : ScrollPage :=
  mkScrollPage 500 (Some false)
    [homeSection; aboutSection; workSection]
    [mkNavLink (Some (js "#home")) true;
     mkNavLink (Some (js "#about")) false;
     mkNavLink None true]
    [None; None; None] (Some None).

(** An open menu on a page with both of its elements, and the same page
    with a wide and with a narrow window. *)
Definition openMenu : MenuPage :=
  mkMenuPage true (Some true) (Some true) (js "hidden").

Definition wideWindow : Viewport := mkViewport 1280 800 1280 800.
Definition narrowWindow : Viewport := mkViewport 600 800 600 800.

Definition belowFold : Animated := mkAnimated (mkRect 0 2000 300 200) false.
Definition onScreen : Animated := mkAnimated (mkRect 0 100 300 200) false.

Definition widePage : ResizePage :=
  mkResizePage wideWindow (Some []) openMenu [belowFold; onScreen].
Definition narrowPage : ResizePage :=
  mkResizePage narrowWindow (Some []) openMenu [belowFold; onScreen].

(** The rectangle meets the quarter plane that [isInViewport] tests,
    for a window of the given size. *)
Definition meetsWindow (windowWidth windowHeight : R) (r : Rect) : Prop :=
  rect_top r <= windowHeight /\ 0 <= rect_top r + rect_height r
  /\ rect_left r <= windowWidth /\ 0 <= rect_left r + rect_width r.

(** ** Typing effect *)

(** [CONFIG.typing], in milliseconds. *)
Module typing.
Definition speed : Z := 100.
Definition deleteSpeed : Z := 50.
Definition delayBetweenTexts : Z := 2000.
End typing.

(** The array [texts] of [initializeTypingEffect]. *)
Definition texts : list jsstring :=
  [js "Full-Stack Developer"; js "UI/UX Designer"; js "Creative Coder";
   js "Problem Solver"].

(** The variables captured by the closure [type] and the text of the
    [.typing-text] element. *)
Record Typing : Type := mkTyping {
  currentTextIndex : nat;
  currentCharIndex : Z;
  isDeleting : bool;
  textContent : jsstring
}.

(** [s.substring(0, e)]: a negative end counts as 0 and an end beyond
    the string as its length. *)
Definition substring0 (s : jsstring) (e : Z) : jsstring :=
  firstn (Z.to_nat e) s.

(** One call of the closure [type] over the array [ts]: the state it
    leaves and the delay it passes to [setTimeout].  Reading
    [substring] of a missing array element throws. *)
Definition type_ (ts : list jsstring) (st : Typing) : Completion (Typing * Z) :=
  currentText <- deref (nth_error ts (currentTextIndex st)) ;;
  let '(content, charIndex) :=
    if isDeleting st
    then (substring0 currentText (currentCharIndex st - 1),
          (currentCharIndex st - 1)%Z)
    else (substring0 currentText (currentCharIndex st + 1),
          (currentCharIndex st + 1)%Z) in
  let typeSpeed :=
    if isDeleting st then typing.deleteSpeed else typing.speed in
  if negb (isDeleting st)
     && (charIndex =? Z.of_nat (List.length currentText))%Z
  then
    Normal (mkTyping (currentTextIndex st) charIndex true content,
            typing.delayBetweenTexts)
  else if isDeleting st && (charIndex =? 0)%Z
  then
    Normal
      (mkTyping ((currentTextIndex st + 1) mod List.length ts) charIndex
         false content,
       500%Z)
  else
    Normal
      (mkTyping (currentTextIndex st) charIndex (isDeleting st) content,
       typeSpeed).

(** [n] calls in a row, with the sum of the delays between them added
    to [elapsed]. *)
Fixpoint typeSteps (n : nat) (ts : list jsstring) (st : Typing)
  (elapsed : Z) : Completion (Typing * Z) :=
  match n with
  | O => Normal (st, elapsed)
  | S n' =>
      r <- type_ ts st ;;
      typeSteps n' ts (fst r) (elapsed + snd r)
  end.

(** The state [initializeTypingEffect] starts the closure in, for an
    element showing [shown]. *)
Definition typingStart (shown : jsstring) : Typing :=
  mkTyping 0 0 false shown.

(** What is shown is the typed part of the current text. *)
Definition typingSound (ts : list jsstring) (st : Typing) : Prop :=
  exists t,
    nth_error ts (currentTextIndex st) = Some t
    /\ (0 <= currentCharIndex st <= Z.of_nat (List.length t))%Z
    /\ textContent st = firstn (Z.to_nat (currentCharIndex st)) t
    /\ (isDeleting st = false ->
        (currentCharIndex st < Z.of_nat (List.length t))%Z)
    /\ (isDeleting st = true -> (0 < currentCharIndex st)%Z).

(** Calls and milliseconds that it takes to write and erase each text
    of a list once. *)
Definition cycleCalls (ts : list jsstring) : nat :=
  fold_right (fun t n => (List.length t + List.length t + n)%nat) 0%nat ts.

Definition cycleTime (ts : list jsstring) : Z :=
  fold_right
    (fun t ms => (150 * (Z.of_nat (List.length t) - 1) + 2500 + ms)%Z) 0%Z ts.

(** ** Form submission *)

(** The [.submit-btn]: its class [loading] and its property
    [disabled]. *)
Record Button : Type := mkButton {
  btn_loading : bool;
  btn_disabled : bool
}.

(** The contact form: its inputs and textareas, each with its default
    value, its submit button, the [.success-message] element (an
    identity and its text), and the timers its handlers have pending. *)
Record FormPage : Type := mkFormPage {
  inputs : list (Field * jsstring);
  submitBtn : option Button;
  successDiv : option (nat * jsstring);
  nextDiv : nat;
  submitTimers : nat;            (* setTimeout(..., 2000) of handleFormSubmit *)
  removalTimers : list nat       (* setTimeout(..., 5000) of showFormSuccess *)
}.

(** [validateForm]: [validateField] on every required input; the
    verdict and the inputs as they are left.  [showFieldError] and
    [clearFieldError] look the [.error-message] up in the parent of the
    input; [errorDiv] is that message for an input that is the only
    one in its parent, and inputs that share a parent would share it. *)
Fixpoint validateForm (fs : list (Field * jsstring))
  : bool * list (Field * jsstring) :=
  match fs with
  | [] => (true, [])
  | (f, d) :: rest =>
      if required f
      then
        let '(ok, f') := validateField f in
        let '(okRest, rest') := validateForm rest in
        (ok && okRest, (f', d) :: rest')
      else
        let '(okRest, rest') := validateForm rest in
        (okRest, (f, d) :: rest')
  end.

(** [setFormLoading(button, isLoading)] *)
Definition setFormLoading (button : option Button) (isLoading : bool)
  : Completion Button :=
  b <- deref button ;;
  Normal (mkButton isLoading isLoading).

(** [handleFormSubmit] up to its [setTimeout]. *)
Definition handleFormSubmit (p : FormPage) : Completion FormPage :=
  let '(ok, fs) := validateForm (inputs p) in
  if negb ok
  then
    Normal (mkFormPage fs (submitBtn p) (successDiv p) (nextDiv p)
              (submitTimers p) (removalTimers p))
  else
    b <- setFormLoading (submitBtn p) true ;;
    Normal (mkFormPage fs (Some b) (successDiv p) (nextDiv p)
              (S (submitTimers p)) (removalTimers p)).

Definition successText : jsstring :=
  js "Message sent successfully! I'll get back to you soon.".

(** [showFormSuccess] on a page that has the form. *)
Definition showFormSuccess (p : FormPage) : FormPage :=
  let '(div, next) :=
    match successDiv p with
    | Some (id, _) => (id, nextDiv p)
    | None => (nextDiv p, S (nextDiv p))
    end in
  mkFormPage (inputs p) (submitBtn p) (Some (div, successText)) next
    (submitTimers p) (removalTimers p ++ [div]).

(** [form.reset()]: every input takes its default value. *)
Definition resetForm (fs : list (Field * jsstring))
  : list (Field * jsstring) :=
  List.map
    (fun '(f, d) =>
       (mkField d (required f) (type f) (borderColor f) (errorDiv f), d))
    fs.

(** The callback of the timer of [handleFormSubmit]. *)
Definition submitTimeout (p : FormPage) : Completion FormPage :=
  b <- setFormLoading (submitBtn p) false ;;
  let p1 :=
    showFormSuccess
      (mkFormPage (inputs p) (Some b) (successDiv p) (nextDiv p)
         (pred (submitTimers p)) (removalTimers p)) in
  Normal (mkFormPage (resetForm (inputs p1)) (submitBtn p1) (successDiv p1)
            (nextDiv p1) (submitTimers p1) (removalTimers p1)).

(** A timer that has fired is no longer pending; other timers for the
    same element are. *)
Fixpoint removeTimer (div : nat) (timers : list nat) : list nat :=
  match timers with
  | [] => []
  | t :: rest => if Nat.eqb t div then rest else t :: removeTimer div rest
  end.

(** The callback of the timer of [showFormSuccess] for the element
    [div]: [successDiv.remove()]. *)
Definition removalTimeout (div : nat) (p : FormPage) : FormPage :=
  mkFormPage (inputs p) (submitBtn p)
    (match successDiv p with
     | Some (id, text) => if Nat.eqb id div then None else Some (id, text)
     | None => None
     end)
    (nextDiv p) (submitTimers p) (removeTimer div (removalTimers p)).

(** A form with a filled name, an empty optional email and a submit
    button; the same with an invalid optional email; and the same
    without a button. *)
Definition nameField : Field := mkField (js "Ada") true (js "text") [] None.
Definition sloppyEmail : Field := mkField (js "nobody") false (js "email") [] None.

Definition readyForm : FormPage :=
  mkFormPage [(nameField, []); (sloppyEmail, [])]
    (Some (mkButton false false)) None 0 0 [].

Definition blankForm : FormPage :=
  mkFormPage [(blankName, []); (badEmail, [])]
    (Some (mkButton false false)) None 0 0 [].

Definition buttonlessForm : FormPage :=
  mkFormPage [(nameField, [])] None None 0 0 [].

(** ** Magnetic effect *)

(** An element of [.cta-primary, .project-link, .social-link]: its
    bounding rectangle, its [style.transform] as the handlers set it
    ([translate3d(a px, b px, 0)]), and whether [addMagneticEffect] has
    put its two listeners on it. *)
Record Magnet : Type := mkMagnet {
  mag_rect : Rect;
  mag_transform : option (R * R);
  mag_listening : bool
}.

(** [Math.max(rect.width, rect.height) / 2] *)
Definition maxDistance (rect : Rect) : R :=
  Rmax (rect_width rect) (rect_height rect) / 2.

(** The pointer's distance from the centre of the rectangle. *)
Definition pointerDistance (rect : Rect) (clientX clientY : R) : R :=
  let deltaX := clientX - (rect_left rect + rect_width rect / 2) in
  let deltaY := clientY - (rect_top rect + rect_height rect / 2) in
  sqrt (deltaX * deltaX + deltaY * deltaY).

(** The translation the [mousemove] listener computes, if it sets
    one. *)
Definition magneticPull (rect : Rect) (clientX clientY : R)
  : option (R * R) :=
  let centerX := rect_left rect + rect_width rect / 2 in
  let centerY := rect_top rect + rect_height rect / 2 in
  let deltaX := clientX - centerX in
  let deltaY := clientY - centerY in
  let distance := sqrt (deltaX * deltaX + deltaY * deltaY) in
  let maxDistance := Rmax (rect_width rect) (rect_height rect) / 2 in
  if Num.ltb distance maxDistance
  then
    let strength := (maxDistance - distance) / maxDistance in
    Some (deltaX * strength * 0.3, deltaY * strength * 0.3)
  else None.

(** [addMagneticEffect(element)] *)
Definition addMagneticEffect (w : World) (m : Magnet) : Magnet :=
  if motionDisabled w then m
  else mkMagnet (mag_rect m) (mag_transform m) true.

(** A [mousemove] on the element. *)
Definition magnetMouseMove (clientX clientY : R) (m : Magnet) : Magnet :=
  if mag_listening m
  then
    match magneticPull (mag_rect m) clientX clientY with
    | Some t => mkMagnet (mag_rect m) (Some t) (mag_listening m)
    | None => m
    end
  else m.

(** A [mouseleave] on the element. *)
Definition magnetMouseLeave (m : Magnet) : Magnet :=
  if mag_listening m
  then mkMagnet (mag_rect m) (Some (0, 0)) (mag_listening m)
  else m.

(** A button of 200 x 60 at (100, 100). *)
Definition ctaButton : Magnet := mkMagnet (mkRect 100 100 200 60) None false.

(** ** Throttle and debounce

    [utils.throttle(func, limit)] and [utils.debounce(func, wait,
    immediate)] return closures; a closure is its captured variables,
    the timers it has pending with the host, and the list of arguments
    [func] has been called with.  [A] is the type of the arguments of a
    call. *)

Section Timers.

Variable A : Type.

(** What happens to a wrapped function: it is called, or the host runs
    the oldest timer it has pending for it. *)
Inductive TimerEvent : Type :=
| Call : A -> TimerEvent
| Elapse : TimerEvent.

Record Throttle : Type := mkThrottle {
  inThrottle : bool;
  throttleTimers : nat;        (* pending [() => inThrottle = false] *)
  throttled : list A           (* calls of [func] so far *)
}.

(** [let inThrottle;] *)
Definition throttleStart : Throttle := mkThrottle false 0 [].

Definition throttleCall (args : A) (t : Throttle) : Throttle :=
  if negb (inThrottle t)
  then mkThrottle true (S (throttleTimers t)) (throttled t ++ [args])
  else t.

Definition throttleTimeout (t : Throttle) : Throttle :=
  match throttleTimers t with
  | O => t
  | S n => mkThrottle false n (throttled t)
  end.

Fixpoint throttleRun (es : list TimerEvent) (t : Throttle) : Throttle :=
  match es with
  | [] => t
  | Call args :: rest => throttleRun rest (throttleCall args t)
  | Elapse :: rest => throttleRun rest (throttleTimeout t)
  end.

(** The timers of the host are numbered from 1, so that a timer id is
    never falsy. *)
Record Debounce : Type := mkDebounce {
  timeout : option nat;              (* [let timeout;] *)
  pendingTimers : list (nat * A);    (* pending [later], with their [args] *)
  nextTimer : nat;
  debounced : list A                 (* calls of [func] so far *)
}.

Definition debounceStart : Debounce := mkDebounce None [] 1 [].

(** [executedFunction(...args)] *)
Definition debounceCall (immediate : bool) (args : A) (d : Debounce)
  : Debounce :=
  let callNow :=
    immediate && match timeout d with None => true | Some _ => false end in
  let cleared :=
    match timeout d with
    | Some t =>
        filter (fun p => negb (Nat.eqb (fst p) t)) (pendingTimers d)
    | None => pendingTimers d
    end in
  mkDebounce (Some (nextTimer d)) (cleared ++ [(nextTimer d, args)])
    (S (nextTimer d))
    (if callNow then debounced d ++ [args] else debounced d).

(** [later] of the oldest pending timer. *)
Definition debounceTimeout (immediate : bool) (d : Debounce) : Debounce :=
  match pendingTimers d with
  | [] => d
  | (_, args) :: rest =>
      mkDebounce None rest (nextTimer d)
        (if immediate then debounced d else debounced d ++ [args])
  end.

Fixpoint debounceRun (immediate : bool) (es : list TimerEvent)
  (d : Debounce) : Debounce :=
  match es with
  | [] => d
  | Call args :: rest =>
      debounceRun immediate rest (debounceCall immediate args d)
  | Elapse :: rest =>
      debounceRun immediate rest (debounceTimeout immediate d)
  end.

(** The calls of a trace that are directly followed by a timeout. *)
Fixpoint trailingCalls (es : list TimerEvent) : list A :=
  match es with
  | [] => []
  | Call a :: rest =>
      match rest with
      | Elapse :: _ => a :: trailingCalls rest
      | _ => trailingCalls rest
      end
  | Elapse :: rest => trailingCalls rest
  end.

(** The calls of a trace that come first or directly after a timeout;
    [quiet] tells whether the trace starts in that position. *)
Fixpoint leadingCalls (quiet : bool) (es : list TimerEvent) : list A :=
  match es with
  | [] => []
  | Call a :: rest =>
      if quiet then a :: leadingCalls false rest else leadingCalls false rest
  | Elapse :: rest => leadingCalls true rest
  end.

Definition timeouts (es : list TimerEvent) : nat :=
  List.length
    (filter (fun e => match e with Elapse => true | Call _ => false end) es).

(** One timer is pending exactly while the closure is throttled. *)
Definition throttleSound (t : Throttle) : Prop :=
  throttleTimers t = (if inThrottle t then 1 else 0)%nat.

(** The variable [timeout] holds the one pending timer, if any. *)
Definition debounceSound (d : Debounce) : Prop :=
  (timeout d = None /\ pendingTimers d = [])
  \/ (exists id args,
        timeout d = Some id /\ pendingTimers d = [(id, args)]).

End Timers.

Arguments Call {A} _.
Arguments Elapse {A}.
Arguments throttleStart {A}.
Arguments throttleCall {A} _ _.
Arguments throttleTimeout {A} _.
Arguments throttleRun {A} _ _.
Arguments debounceStart {A}.
Arguments debounceCall {A} _ _ _.
Arguments debounceTimeout {A} _ _.
Arguments debounceRun {A} _ _ _.
Arguments trailingCalls {A} _.
Arguments leadingCalls {A} _ _.
Arguments timeouts {A} _.
Arguments throttleSound {A} _.
Arguments debounceSound {A} _.
Arguments inThrottle {A} _.
Arguments throttleTimers {A} _.
Arguments throttled {A} _.
Arguments timeout {A} _.
Arguments pendingTimers {A} _.
Arguments nextTimer {A} _.
Arguments debounced {A} _.
Arguments mkThrottle {A} _ _ _.
Arguments mkDebounce {A} _ _ _ _.

(** ** Easter egg *)

Definition konamiSequence : list jsstring :=
  [js "ArrowUp"; js "ArrowUp"; js "ArrowDown"; js "ArrowDown";
   js "ArrowLeft"; js "ArrowRight"; js "ArrowLeft"; js "ArrowRight";
   js "KeyB"; js "KeyA"].

(** The captured array [konamiCode] and the number of calls of
    [activateEasterEgg]. *)
Record Konami : Type := mkKonami {
  konamiCode : list jsstring;
  activations : nat
}.

(** [JSON.stringify(a) === JSON.stringify(b)] on arrays of strings:
    the two arrays hold the same strings. *)
Fixpoint sameCodes (a b : list jsstring) : bool :=
  match a, b with
  | [], [] => true
  | c :: a', d :: b' => str_eqb c d && sameCodes a' b'
  | _, _ => false
  end.

(** The [keydown] listener, for a key of code [code]. *)
Definition konamiKeydown (code : jsstring) (k : Konami) : Konami :=
  let pushed := konamiCode k ++ [code] in
  let kept :=
    if (List.length konamiSequence <? List.length pushed)%nat
    then tl pushed else pushed in
  if sameCodes kept konamiSequence
  then mkKonami [] (S (activations k))
  else mkKonami kept (activations k).

Fixpoint konamiKeys (codes : list jsstring) (k : Konami) : Konami :=
  match codes with
  | [] => k
  | code :: rest => konamiKeys rest (konamiKeydown code k)
  end.

(** ** Number animation *)

(** The captured [startTimestamp], the number in the element's text,
    and whether [step] is pending with [requestAnimationFrame]. *)
Record Counter : Type := mkCounter {
  startTimestamp : option R;
  shownNumber : option Z;
  stepPending : bool
}.

(** [utils.animateNumber] up to its first frame. *)
Definition animateNumber (shown : option Z) : Counter :=
  mkCounter None shown true.

(** The closure [step] of [utils.animateNumber(element, start, end,
    duration)] at a frame of time [timestamp]; [Math.floor] is the
    integer part. *)
Definition animateNumberStep (start end_ duration timestamp : R)
  (c : Counter) : Counter :=
  let started :=
    match startTimestamp c with
    | Some s => if Req_dec_T s 0 then timestamp else s
    | None => timestamp
    end in
  let progress := Rmin ((timestamp - started) / duration) 1 in
  let current := Int_part (progress * (end_ - start) + start) in
  mkCounter (Some started) (Some current) (Num.ltb progress 1).

(** ** Further predicates of the statements *)

(** A particle as the creation loop makes them on a canvas of the given
    size. *)
Definition freshParticle (cw ch : R) (p : Particle) : Prop :=
  inBounds cw ch p
  /\ -0.25 <= vx p < 0.25 /\ -0.25 <= vy p < 0.25
  /\ 1 <= radius p <= 3 /\ 0.2 <= opacity p <= 0.7.

(** The closure of [initializeCursor] as it is created. *)
Definition originCursor : CursorClosure := mkCursorClosure 0 0 0 0.

(** The properties [targetX] and [targetY] of the [.cursor] element
    after a sequence of events: those of the last [mousemove], or what
    they were if there was none. *)
Fixpoint lastTarget (es : list Event) (start : option R * option R)
  : option R * option R :=
  match es with
  | [] => start
  | MouseMove clientX clientY :: rest =>
      lastTarget rest (Some clientX, Some clientY)
  | _ :: rest => lastTarget rest start
  end.

(** The coordinates of the last [mousemove] of a sequence of events,
    or [start] if it has none. *)
Fixpoint lastMove (es : list Event) (start : R * R) : R * R :=
  match es with
  | [] => start
  | MouseMove clientX clientY :: rest => lastMove rest (clientX, clientY)
  | _ :: rest => lastMove rest start
  end.

Definition isArc (op : DrawOp) : bool :=
  match op with FillArc _ _ _ _ => true | _ => false end.

(** Number of filled circles of a frame. *)
Definition arcs (ops : list DrawOp) : nat :=
  List.length (filter isArc ops).

(** * Part II: properties *)

(** ** Numbers *)

Lemma ltb_spec a b : reflect (a < b) (Num.ltb a b).
Proof. unfold Num.ltb; destruct (Rlt_dec a b); constructor; assumption. Qed.

Lemma leb_spec a b : reflect (a <= b) (Num.leb a b).
Proof. unfold Num.leb; destruct (Rle_dec a b); constructor; assumption. Qed.

Lemma geb_spec a b : reflect (a >= b) (Num.geb a b).
Proof. unfold Num.geb; destruct (Rge_dec a b); constructor; assumption. Qed.

Lemma ltb_true a b : a < b -> Num.ltb a b = true.
Proof. intro H; destruct (ltb_spec a b); [reflexivity | contradiction]. Qed.

Lemma ltb_false a b : ~ a < b -> Num.ltb a b = false.
Proof. intro H; destruct (ltb_spec a b); [contradiction | reflexivity]. Qed.

(** The edge test of [advance], as a proposition. *)
Lemma edge_test pos extent :
  reflect (atEdge pos extent) (Num.leb pos 0 || Num.geb pos extent).
Proof.
  unfold atEdge.
  destruct (leb_spec pos 0), (geb_spec pos extent); simpl;
    constructor; tauto.
Qed.

(** ** Cursor follower *)

Lemma stepCursor_gapX (cl : CursorClosure) :
  currentX (stepCursor cl) - targetX (stepCursor cl)
  = 0.85 * (currentX cl - targetX cl).
Proof.
  unfold stepCursor, utils.lerp, CONFIG.cursor.followSpeed; simpl. lra.
Qed.

Lemma stepCursor_gapY (cl : CursorClosure) :
  currentY (stepCursor cl) - targetY (stepCursor cl)
  = 0.85 * (currentY cl - targetY cl).
Proof.
  unfold stepCursor, utils.lerp, CONFIG.cursor.followSpeed; simpl. lra.
Qed.

Lemma cursorDistance_nonneg (cl : CursorClosure) : 0 <= cursorDistance cl.
Proof. unfold cursorDistance. apply sqrt_pos. Qed.

(** Every call shrinks the distance to the target by the factor
    [1 - followSpeed]. *)
Lemma cursorDistance_step (cl : CursorClosure) :
  cursorDistance (stepCursor cl) = 0.85 * cursorDistance cl.
Proof.
  unfold cursorDistance.
  rewrite stepCursor_gapX, stepCursor_gapY.
  set (a := currentX cl - targetX cl).
  set (b := currentY cl - targetY cl).
  replace (0.85 * a * (0.85 * a) + 0.85 * b * (0.85 * b))
    with ((0.85 * 0.85) * (a * a + b * b)) by ring.
  rewrite sqrt_mult by nra.
  rewrite sqrt_square by lra.
  reflexivity.
Qed.

Lemma follow_S (n : nat) (cl : CursorClosure) :
  follow (S n) cl = stepCursor (follow n cl).
Proof.
  revert cl. induction n as [|n IH]; intro cl.
  - reflexivity.
  - change (follow (S (S n)) cl) with (follow (S n) (stepCursor cl)).
    rewrite IH. reflexivity.
Qed.

Lemma follow_target (n : nat) (cl : CursorClosure) :
  targetX (follow n cl) = targetX cl /\ targetY (follow n cl) = targetY cl.
Proof.
  induction n as [|n IH].
  - split; reflexivity.
  - rewrite follow_S. simpl. exact IH.
Qed.

Lemma cursorDistance_follow (n : nat) (cl : CursorClosure) :
  cursorDistance (follow n cl) = 0.85 ^ n * cursorDistance cl.
Proof.
  induction n as [|n IH].
  - simpl. lra.
  - rewrite follow_S, cursorDistance_step, IH. simpl. ring.
Qed.

(** The frame loop is [follow]: [n] animation frames call the closure
    [n] times and leave it scheduled. *)
Lemma updateCursor_frame (cl : CursorClosure) (w : World) :
  exists w', updateCursor cl w = Normal w'
             /\ cursorFrame w' = Some (stepCursor cl)
             /\ particleFrame w' = particleFrame w.
Proof. eexists; split; [reflexivity | split; reflexivity]. Qed.

Lemma animate_keeps_cursor (pc : ParticleClosure) (w : World) :
  exists w', animate pc w = Normal w' /\ cursorFrame w' = cursorFrame w
             /\ STATE w' = STATE w /\ storedTheme w' = storedTheme w.
Proof.
  unfold animate.
  destruct (animateFrame _ _ _) as [ps' ops].
  eexists; split; [reflexivity | repeat split].
Qed.

Lemma frame_steps_cursor (cl : CursorClosure) (w : World) :
  cursorFrame w = Some cl ->
  exists w', dispatch w AnimationFrame = Normal w'
             /\ cursorFrame w' = Some (stepCursor cl).
Proof.
  intro H. simpl. rewrite H.
  destruct (updateCursor_frame cl w) as (w1 & E1 & C1 & P1).
  rewrite E1. simpl.
  destruct (particleFrame w1) as [pc|].
  - destruct (animate_keeps_cursor pc w1) as (w2 & E2 & C2 & _).
    exists w2. split; [exact E2 | congruence].
  - exists w1. split; [reflexivity | exact C1].
Qed.

Lemma run_cons (ev : Event) (es : list Event) (w : World) :
  run (ev :: es) w = bind (dispatch w ev) (run es).
Proof. reflexivity. Qed.


(** [handleMouseMove] completes, and writes nothing but
    [STATE.mousePosition] and the two properties of the element. *)
Lemma handleMouseMove_effect (cx cy : R) (w : World) :
  exists w', handleMouseMove cx cy w = Normal w'
    /\ mousePosition (STATE w') = (cx, cy)
    /\ currentTheme (STATE w') = currentTheme (STATE w)
    /\ storedTheme w' = storedTheme w
    /\ cursorFrame w' = cursorFrame w
    /\ particleFrame w' = particleFrame w
    /\ cursorNode w'
       = option_map
           (fun el => mkCursorElement (transform el) (Some cx) (Some cy))
           (cursorNode w).
Proof.
  unfold handleMouseMove, set_STATE; simpl.
  destruct (cursorNode w) as [el|] eqn:E; simpl;
    eexists; (split; [reflexivity | repeat split; simpl; auto]).
Qed.

(** No event assigns the captured [targetX] and [targetY]. *)
Lemma dispatch_keeps_target (ev : Event) (w : World) (cl : CursorClosure) :
  cursorFrame w = Some cl ->
  exists w' cl', dispatch w ev = Normal w' /\ cursorFrame w' = Some cl'
                 /\ targetX cl' = targetX cl /\ targetY cl' = targetY cl.
Proof.
  intro H. destruct ev as [cx cy| |].
  - destruct (handleMouseMove_effect cx cy w) as (w' & E & _ & _ & _ & C & _).
    exists w', cl. simpl. repeat split; congruence.
  - destruct (frame_steps_cursor cl w H) as (w' & E & C).
    exists w', (stepCursor cl). repeat split; assumption.
  - exists (let t := if str_eqb (currentTheme (STATE w)) light
                     then dark else light in
            set_storedTheme (Some t)
              (set_dataTheme (Some t)
                 (set_STATE
                    (mkSTATE t (mousePosition (STATE w))
                       (isReducedMotion (STATE w))) w))), cl.
    repeat split; try reflexivity. exact H.
Qed.

Lemma run_keeps_target (es : list Event) (w : World) (cl : CursorClosure) :
  cursorFrame w = Some cl ->
  exists w' cl', run es w = Normal w' /\ cursorFrame w' = Some cl'
                 /\ targetX cl' = targetX cl /\ targetY cl' = targetY cl.
Proof.
  revert w cl. induction es as [|ev es IH]; intros w cl H.
  - exists w, cl. repeat split; try reflexivity. exact H.
  - destruct (dispatch_keeps_target ev w cl H) as (w1 & cl1 & E1 & C1 & X1 & Y1).
    destruct (IH w1 cl1 C1) as (w2 & cl2 & E2 & C2 & X2 & Y2).
    exists w2, cl2. rewrite run_cons, E1. cbn [bind].
    repeat split; congruence.
Qed.

(** A rendered position that sits on its target stays there. *)
Lemma stepCursor_rest (cl : CursorClosure) :
  currentX cl = targetX cl -> currentY cl = targetY cl ->
  currentX (stepCursor cl) = targetX cl /\ currentY (stepCursor cl) = targetY cl.
Proof.
  intros HX HY. unfold stepCursor, utils.lerp; simpl.
  rewrite HX, HY. split; ring.
Qed.

(** In exact arithmetic the distance from the rendered position to a
    fixed target decreases strictly while it is not zero, and tends to
    zero. *)
Lemma exact_steps_converge (cl : CursorClosure) :
  (forall n, targetX (follow n cl) = targetX cl
             /\ targetY (follow n cl) = targetY cl)
  /\ (forall n, cursorDistance (follow (S n) cl)
                <= cursorDistance (follow n cl))
  /\ (forall n, cursorDistance (follow n cl) <> 0 ->
                cursorDistance (follow (S n) cl)
                < cursorDistance (follow n cl))
  /\ (forall eps, 0 < eps ->
        exists N, forall n, (N <= n)%nat ->
                    cursorDistance (follow n cl) < eps).
Proof.
  split; [intro n; apply follow_target |].
  split; [| split].
  - intro n. rewrite follow_S, cursorDistance_step.
    pose proof (cursorDistance_nonneg (follow n cl)). lra.
  - intros n Hn. rewrite follow_S, cursorDistance_step.
    pose proof (cursorDistance_nonneg (follow n cl)). lra.
  - intros eps Heps.
    pose proof (cursorDistance_nonneg cl) as Hd.
    destruct (Req_dec (cursorDistance cl) 0) as [Hz | Hnz].
    + exists 0%nat. intros n _. rewrite cursorDistance_follow, Hz. lra.
    + assert (Hpos : 0 < cursorDistance cl) by lra.
      assert (Hq : 0 < eps / cursorDistance cl)
        by (apply Rdiv_lt_0_compat; assumption).
      destruct (pow_lt_1_zero 0.85) with (y := eps / cursorDistance cl)
        as [N HN]; [rewrite Rabs_pos_eq; lra | exact Hq |].
      exists N. intros n Hn.
      rewrite cursorDistance_follow.
      specialize (HN n Hn).
      rewrite Rabs_pos_eq in HN by (apply pow_le; lra).
      apply (Rmult_lt_compat_r (cursorDistance cl)) in HN; [| exact Hpos].
      unfold Rdiv in HN. rewrite Rmult_assoc, Rinv_l in HN by exact Hnz.
      lra.
Qed.

(** Evaluates the handlers on a concrete page and leaves the arithmetic
    on numbers as it stands. *)
Ltac js_eval :=
  lazy beta iota zeta delta
    -[utils.lerp Rplus Rminus Rmult Rdiv Ropp Rinv IZR sqrt Rabs
      Rlt Rle Rge Rgt Num.ltb Num.leb Num.geb lineOpacity].





(** C1: on a page with a [.cursor] element, a pointer move to (100, 50)
    followed by a frame leaves the target of the frame update at (0, 0):
    the coordinates are stored in [STATE.mousePosition] and in the
    properties [targetX] and [targetY] of the element, which the frame
    update does not read, and the cursor stays at the corner. *)
Theorem pointer_move_misses_target :
  exists w cl el,
    bind (boot desktop) (run [MouseMove 100 50; AnimationFrame]) = Normal w
    /\ mousePosition (STATE w) = (100, 50)
    /\ cursorNode w = Some el
    /\ el_targetX el = Some 100 /\ el_targetY el = Some 50
    /\ cursorFrame w = Some cl
    /\ targetX cl = 0 /\ targetY cl = 0
    /\ (targetX cl, targetY cl) <> (100, 50)
    /\ currentX cl = 0 /\ currentY cl = 0.
Proof.
  do 3 eexists.
  split; [js_eval; reflexivity |].
  js_eval.
  repeat split; try reflexivity.
  - intro H. apply (f_equal fst) in H. cbn [fst] in H. lra.
  - unfold utils.lerp. lra.
  - unfold utils.lerp. lra.
Qed.

(** ** Particle field *)

Lemma advance_position (cw ch : R) (p : Particle) :
  x (advance cw ch p) = x p + vx p /\ y (advance cw ch p) = y p + vy p.
Proof. split; reflexivity. Qed.

Lemma advance_vx (cw ch : R) (p : Particle) :
  (atEdge (x (advance cw ch p)) cw /\ vx (advance cw ch p) = - vx p)
  \/ (~ atEdge (x (advance cw ch p)) cw /\ vx (advance cw ch p) = vx p).
Proof.
  unfold advance; cbn [x vx].
  destruct (edge_test (x p + vx p) cw); [left | right]; split;
    auto.
Qed.

Lemma advance_vy (cw ch : R) (p : Particle) :
  (atEdge (y (advance cw ch p)) ch /\ vy (advance cw ch p) = - vy p)
  \/ (~ atEdge (y (advance cw ch p)) ch /\ vy (advance cw ch p) = vy p).
Proof.
  unfold advance; cbn [y vy].
  destruct (edge_test (y p + vy p) ch); [left | right]; split;
    auto.
Qed.

Lemma advance_sameMake (cw ch : R) (p : Particle) :
  sameMake p (advance cw ch p).
Proof.
  unfold sameMake.
  destruct (advance_vx cw ch p) as [[_ E] | [_ E]],
           (advance_vy cw ch p) as [[_ F] | [_ F]];
    rewrite E, F, ?Rabs_Ropp; repeat split; reflexivity.
Qed.

(** The outer loop visits the particles in order and leaves each one
    advanced once. *)
Lemma forEachParticle_particles (cw ch : R) (todo done : list Particle) :
  fst (forEachParticle cw ch done todo) = done ++ map (advance cw ch) todo.
Proof.
  revert done. induction todo as [|p rest IH]; intro done.
  - simpl. rewrite app_nil_r. reflexivity.
  - cbn [forEachParticle map].
    specialize (IH (done ++ [advance cw ch p])).
    destruct (forEachParticle cw ch (done ++ [advance cw ch p]) rest)
      as [final ops'].
    cbn [fst] in *. rewrite IH, <- app_assoc. reflexivity.
Qed.

Lemma animateFrame_particles (cw ch : R) (ps : list Particle) :
  fst (animateFrame cw ch ps) = map (advance cw ch) ps.
Proof.
  unfold animateFrame.
  pose proof (forEachParticle_particles cw ch ps []) as H.
  destruct (forEachParticle cw ch [] ps) as [ps' ops].
  exact H.
Qed.

Lemma frames_advances (n : nat) (cw ch : R) (ps : list Particle) :
  frames n cw ch ps = map (advances n cw ch) ps.
Proof.
  revert ps. induction n as [|n IH]; intro ps.
  - simpl. rewrite map_id. reflexivity.
  - cbn [frames]. rewrite IH, animateFrame_particles, map_map. reflexivity.
Qed.

Lemma advances_S (n : nat) (cw ch : R) (p : Particle) :
  advances (S n) cw ch p = advance cw ch (advances n cw ch p).
Proof.
  revert p. induction n as [|n IH]; intro p.
  - reflexivity.
  - change (advances (S (S n)) cw ch p)
      with (advances (S n) cw ch (advance cw ch p)).
    rewrite IH. reflexivity.
Qed.

(** The frame of the page is [animateFrame] on the captured canvas:
    its particles replace those of the closure and its painting
    replaces the surface. *)
Lemma frame_paints (pc : ParticleClosure) (w : World) :
  particleFrame w = Some pc ->
  exists w', dispatch w AnimationFrame = Normal w'
    /\ particleFrame w'
       = Some (mkParticleClosure (canvas pc)
                 (fst (animateFrame (IZR (width (canvas pc)))
                         (IZR (height (canvas pc))) (particles pc))))
    /\ surface w'
       = snd (animateFrame (IZR (width (canvas pc)))
                (IZR (height (canvas pc))) (particles pc)).
Proof.
  intro H. cbn [dispatch].
  assert (exists w1, match cursorFrame w with
                     | Some cl => updateCursor cl w
                     | None => Normal w
                     end = Normal w1 /\ particleFrame w1 = Some pc)
    as (w1 & E1 & P1).
  { destruct (cursorFrame w) as [cl|].
    - destruct (updateCursor_frame cl w) as (w1 & E & _ & P).
      exists w1. split; [exact E | congruence].
    - exists w. split; [reflexivity | exact H]. }
  rewrite E1. cbn [bind]. rewrite P1. unfold animate.
  destruct (animateFrame _ _ (particles pc)) as [ps' ops].
  eexists; split; [reflexivity | split; reflexivity].
Qed.

(** The particles of the page after a frame. *)
Lemma frame_steps_particles (pc : ParticleClosure) (w : World) :
  particleFrame w = Some pc ->
  exists w', dispatch w AnimationFrame = Normal w'
    /\ particleFrame w'
       = Some (mkParticleClosure (canvas pc)
                 (map (advance (IZR (width (canvas pc)))
                         (IZR (height (canvas pc)))) (particles pc))).
Proof.
  intro H. cbn [dispatch].
  assert (exists w1, match cursorFrame w with
                     | Some cl => updateCursor cl w
                     | None => Normal w
                     end = Normal w1 /\ particleFrame w1 = Some pc)
    as (w1 & E1 & P1).
  { destruct (cursorFrame w) as [cl|].
    - destruct (updateCursor_frame cl w) as (w1 & E & _ & P).
      exists w1. split; [exact E | congruence].
    - exists w. split; [reflexivity | exact H]. }
  rewrite E1. cbn [bind]. rewrite P1. unfold animate.
  rewrite <- animateFrame_particles.
  destruct (animateFrame _ _ (particles pc)) as [ps' ops].
  eexists; split; reflexivity.
Qed.

Lemma sameMake_refl (p : Particle) : sameMake p p.
Proof. repeat split; reflexivity. Qed.

Lemma sameMake_trans (p q r : Particle) :
  sameMake p q -> sameMake q r -> sameMake p r.
Proof.
  unfold sameMake. intros (A & B & C & D) (A' & B' & C' & D').
  repeat split; congruence.
Qed.

Lemma advances_sameMake (n : nat) (cw ch : R) (p : Particle) :
  sameMake p (advances n cw ch p).
Proof.
  induction n as [|n IH].
  - apply sameMake_refl.
  - rewrite advances_S.
    eapply sameMake_trans; [exact IH | apply advance_sameMake].
Qed.

Lemma Forall2_map_self {A : Type} (P : A -> A -> Prop) (f : A -> A)
  (l : list A) :
  (forall a, P a (f a)) -> Forall2 P l (map f l).
Proof.
  intro H. induction l as [|a l IH]; simpl; constructor; auto.
Qed.

Lemma advance_edgeRule (cw ch : R) (p : Particle) :
  edgeRule cw ch p (advance cw ch p).
Proof.
  unfold edgeRule.
  split; [apply advance_position |].
  split; [apply advance_vx |].
  split; [apply advance_vy |].
  split.
  - intro Hnz. destruct (advance_vx cw ch p) as [[He E] | [He E]].
    + tauto.
    + split; [intro F; rewrite E in F; lra | tauto].
  - intro Hnz. destruct (advance_vy cw ch p) as [[He E] | [He E]].
    + tauto.
    + split; [intro F; rewrite E in F; lra | tauto].
Qed.

(** C4: a frame of the page replaces the particles of the closure by
    those [animateFrame] computes on the canvas of the closure, and in
    that update every particle has its position advanced by its
    velocity and each velocity component replaced by its negation when
    the advanced coordinate is at or beyond an edge of the surface
    (<= 0 or >= the extent on that axis) and kept otherwise; for a
    component that is not zero, it has been negated if and only if the
    advanced coordinate is at or beyond an edge. *)
Theorem velocity_flips_iff_at_edge (w : World) (pc : ParticleClosure) :
  particleFrame w = Some pc ->
  let cw := IZR (width (canvas pc)) in
  let ch := IZR (height (canvas pc)) in
  exists w' ps',
    dispatch w AnimationFrame = Normal w'
    /\ particleFrame w' = Some (mkParticleClosure (canvas pc) ps')
    /\ ps' = fst (animateFrame cw ch (particles pc))
    /\ surface w' = snd (animateFrame cw ch (particles pc))
    /\ Forall2
         (fun p p' =>
            (x p' = x p + vx p /\ y p' = y p + vy p)
            /\ ((atEdge (x p') cw /\ vx p' = - vx p)
                \/ (~ atEdge (x p') cw /\ vx p' = vx p))
            /\ ((atEdge (y p') ch /\ vy p' = - vy p)
                \/ (~ atEdge (y p') ch /\ vy p' = vy p))
            /\ (vx p <> 0 -> (vx p' = - vx p <-> atEdge (x p') cw))
            /\ (vy p <> 0 -> (vy p' = - vy p <-> atEdge (y p') ch)))
         (particles pc) ps'.
Proof.
  intros H cw ch.
  destruct (frame_paints pc w H) as (w' & E & P & S).
  fold cw ch in P, S.
  exists w', (fst (animateFrame cw ch (particles pc))).
  split; [exact E |]. split; [exact P |]. split; [reflexivity |].
  split; [exact S |].
  rewrite animateFrame_particles. apply Forall2_map_self.
  intro p. apply advance_edgeRule.
Qed.

Lemma velocity_flips_iff_at_edge_witness :
  exists pc w' ps',
    particleFrame edgePageLoaded = Some pc
    /\ dispatch edgePageLoaded AnimationFrame = Normal w'
    /\ particleFrame w' = Some (mkParticleClosure (canvas pc) ps')
    /\ Forall2 (edgeRule 800 600) (particles pc) ps'.
Proof.
  pose (pc := match particleFrame edgePageLoaded with
              | Some pc => pc
              | None => mkParticleClosure (mkCanvas 0 0) []
              end).
  assert (H : particleFrame edgePageLoaded = Some pc)
    by (js_eval; reflexivity).
  destruct (velocity_flips_iff_at_edge edgePageLoaded pc H)
    as (w' & ps' & E & P & _ & _ & F).
  exists pc, w', ps'.
  split; [exact H |]. split; [exact E |]. split; [exact P |].
  exact F.
Defined.

(** C6: over any number of frames each particle keeps the absolute
    values of its two velocity components, its radius and its opacity;
    a frame replaces each particle by its advance, which adds the
    velocity to the position and keeps or negates each velocity
    component. *)
Theorem particle_make_is_fixed (n : nat) (cw ch : R) (ps : list Particle) :
  Forall2 sameMake ps (frames n cw ch ps)
  /\ fst (animateFrame cw ch ps) = map (advance cw ch) ps
  /\ Forall2
       (fun p p' =>
          x p' = x p + vx p /\ y p' = y p + vy p
          /\ (vx p' = vx p \/ vx p' = - vx p)
          /\ (vy p' = vy p \/ vy p' = - vy p)
          /\ radius p' = radius p /\ opacity p' = opacity p)
       ps (fst (animateFrame cw ch ps)).
Proof.
  split; [| split].
  - rewrite frames_advances. apply Forall2_map_self.
    intro p. apply advances_sameMake.
  - apply animateFrame_particles.
  - rewrite animateFrame_particles. apply Forall2_map_self.
    intro p.
    destruct (advance_vx cw ch p) as [[_ E] | [_ E]],
             (advance_vy cw ch p) as [[_ F] | [_ F]];
      repeat split; auto.
Qed.

(** *** Creation *)

Lemma createParticle_ranges (cv : Canvas) (w : World) :
  (forall n, 0 <= rng w n < 1) -> (0 <= width cv)%Z -> (0 <= height cv)%Z ->
  let p := fst (createParticle cv w) in
  inBounds (IZR (width cv)) (IZR (height cv)) p
  /\ -0.25 <= vx p < 0.25 /\ -0.25 <= vy p < 0.25
  /\ 1 <= radius p < 3 /\ 0.2 <= opacity p < 0.7.
Proof.
  intros Hr Hw Hh p. subst p.
  unfold createParticle, Math_random, inBounds, CONFIG.particles.speed.
  cbn [fst x y vx vy radius opacity rng rngNext set_rngNext].
  apply IZR_le in Hw, Hh.
  pose proof (Hr (rngNext w)). pose proof (Hr (S (rngNext w))).
  pose proof (Hr (S (S (rngNext w)))).
  pose proof (Hr (S (S (S (rngNext w))))).
  pose proof (Hr (S (S (S (S (rngNext w)))))).
  pose proof (Hr (S (S (S (S (S (rngNext w))))))).
  repeat split; nra.
Qed.

(** [edgeParticle] is a particle the creation loop can make. *)
Lemma edgeParticle_created :
  let p := fst (createParticle (mkCanvas 800 600) (load edgePage)) in
  x p = x edgeParticle /\ y p = y edgeParticle
  /\ vx p = vx edgeParticle /\ vy p = vy edgeParticle
  /\ radius p = radius edgeParticle /\ opacity p = opacity edgeParticle.
Proof.
  js_eval. repeat split; lra.
Qed.

(** *** Bounce without clamping *)

Lemma homing_advance (extent pos vel : R) :
  homing extent pos vel ->
  homing extent (pos + vel)
    (if Num.leb (pos + vel) 0 || Num.geb (pos + vel) extent
     then - vel else vel).
Proof.
  unfold homing. intros [Hin | Hnext].
  - destruct (edge_test (pos + vel) extent) as [He | Hne].
    + right. lra.
    + left. unfold atEdge in Hne. lra.
  - left. exact Hnext.
Qed.

Lemma homing_near (extent pos vel : R) :
  homing extent pos vel ->
  - Rabs vel <= pos <= extent + Rabs vel.
Proof.
  unfold homing. intro H.
  pose proof (Rabs_pos vel) as Hpos.
  pose proof (Rle_abs vel) as Hle.
  pose proof (Rle_abs (- vel)) as Hle'. rewrite Rabs_Ropp in Hle'.
  lra.
Qed.

Lemma advance_homing (cw ch : R) (p : Particle) :
  homingParticle cw ch p -> homingParticle cw ch (advance cw ch p).
Proof.
  intros [Hx Hy]. split; cbn [advance x y vx vy];
    apply homing_advance; assumption.
Qed.

Lemma advances_homing (n : nat) (cw ch : R) (p : Particle) :
  homingParticle cw ch p -> homingParticle cw ch (advances n cw ch p).
Proof.
  induction n as [|n IH]; intro H.
  - exact H.
  - rewrite advances_S. apply advance_homing, IH, H.
Qed.

Lemma inBounds_homing (cw ch : R) (p : Particle) :
  inBounds cw ch p -> homingParticle cw ch p.
Proof. intros [Hx Hy]. split; left; assumption. Qed.

(** C2 (amended): a particle that starts inside the surface is, after
    any number of frames, never further outside it than the absolute
    value of its velocity component on that axis, and each of its
    coordinates is inside its range or is inside it again after the
    next frame. *)
Theorem particles_stay_near_surface (n : nat) (cw ch : R)
  (ps : list Particle) :
  Forall (inBounds cw ch) ps ->
  Forall
    (fun q =>
       nearBounds cw ch q
       /\ homing cw (x q) (vx q) /\ homing ch (y q) (vy q))
    (frames n cw ch ps).
Proof.
  intro H. rewrite frames_advances. apply Forall_map.
  apply Forall_impl with (2 := H). intros p Hp.
  destruct (advances_homing n cw ch p (inBounds_homing _ _ _ Hp)) as [Hx Hy].
  split; [| split; assumption].
  split; apply homing_near; assumption.
Qed.

Lemma particles_stay_near_surface_witness :
  Forall
    (fun q =>
       nearBounds 800 600 q
       /\ homing 800 (x q) (vx q) /\ homing 600 (y q) (vy q))
    (frames 1 800 600 [edgeParticle]).
Proof.
  apply particles_stay_near_surface.
  constructor; [| constructor].
  unfold inBounds, edgeParticle; cbn [x y]. lra.
Defined.

(** C2, as stated, fails: [edgeParticle] is inside the 800 x 600
    surface and one frame puts it at x = -0.125. *)
Lemma particle_leaves_surface :
  Forall (inBounds 800 600) [edgeParticle]
  /\ ~ Forall (inBounds 800 600) (frames 1 800 600 [edgeParticle]).
Proof.
  split.
  - constructor; [| constructor].
    unfold inBounds, edgeParticle; cbn [x y]. lra.
  - rewrite frames_advances. cbn [map advances].
    intro H. inversion H as [| q l [Hx _] _]; subst.
    cbn [advance x edgeParticle vx] in Hx. lra.
Qed.

(** *** Connecting lines *)

Lemma sqrt_lt_bound (s b : R) : 0 <= s -> 0 < b -> s < b * b -> sqrt s < b.
Proof.
  intros Hs Hb H.
  rewrite <- (sqrt_square b) by lra.
  apply sqrt_lt_1; nra.
Qed.

Lemma sqrt_ge_bound (s b : R) : 0 <= b -> b * b <= s -> sqrt s >= b.
Proof.
  intros Hb H.
  apply Rle_ge.
  replace b with (sqrt (b * b)) at 1 by (apply sqrt_square; lra).
  apply sqrt_le_1; nra.
Qed.

Lemma distance_nonneg (p q : Particle) : 0 <= distance p q.
Proof. unfold distance. apply sqrt_pos. Qed.

Lemma distance_self (p : Particle) : distance p p = 0.
Proof.
  unfold distance.
  replace ((x p - x p) * (x p - x p) + (y p - y p) * (y p - y p))
    with 0 by ring.
  apply sqrt_0.
Qed.

Lemma connect_one (p q : Particle) :
  connect p [q]
  = if Num.ltb (distance p q) 100
    then [StrokeLine (x p) (y p) (x q) (y q) (lineOpacity (distance p q))]
    else [].
Proof. unfold connect. cbn [flat_map]. apply app_nil_r. Qed.

Lemma connect_cons (p q : Particle) (others : list Particle) :
  connect p (q :: others) = connect p [q] ++ connect p others.
Proof. rewrite connect_one. reflexivity. Qed.

Lemma connect_close (p q : Particle) :
  distance p q < 100 ->
  connect p [q]
  = [StrokeLine (x p) (y p) (x q) (y q) (lineOpacity (distance p q))].
Proof. intro H. rewrite connect_one, ltb_true by exact H. reflexivity. Qed.

Lemma connect_far (p q : Particle) :
  distance p q >= 100 -> connect p [q] = [].
Proof. intro H. rewrite connect_one, ltb_false by lra. reflexivity. Qed.

Lemma connect_In (p : Particle) (others : list Particle) (op : DrawOp) :
  In op (connect p others)
  <-> exists q, In q others /\ distance p q < 100
                /\ op = StrokeLine (x p) (y p) (x q) (y q)
                          (lineOpacity (distance p q)).
Proof.
  unfold connect. rewrite in_flat_map. split.
  - intros (q & Hq & Hop). exists q. split; [exact Hq |].
    destruct (ltb_spec (distance p q) 100) as [Hd | Hd].
    + destruct Hop as [E | []]. auto.
    + destruct Hop.
  - intros (q & Hq & Hd & E). exists q. split; [exact Hq |].
    rewrite ltb_true by exact Hd. left. symmetry. exact E.
Qed.

(** The painting of the outer loop: a circle for every particle still
    to visit, and a line for every check that finds a distance below
    100. *)
Lemma forEachParticle_In (cw ch : R) (todo done : list Particle)
  (op : DrawOp) :
  In op (snd (forEachParticle cw ch done todo))
  <-> (exists p,
         In p todo
         /\ op = FillArc (x (advance cw ch p)) (y (advance cw ch p))
                  (radius (advance cw ch p)) (opacity (advance cw ch p)))
      \/ (exists pre p post q,
            todo = pre ++ p :: post
            /\ In q (done ++ List.map (advance cw ch) pre
                           ++ advance cw ch p :: post)
            /\ distance (advance cw ch p) q < 100
            /\ op = StrokeLine (x (advance cw ch p)) (y (advance cw ch p))
                     (x q) (y q)
                     (lineOpacity (distance (advance cw ch p) q))).
Proof.
  revert done. induction todo as [|p rest IH]; intro done.
  - cbn. split; [intros [] |].
    intros [(p & [] & _) | (pre & p & post & q & E & _)].
    destruct pre; discriminate.
  - cbn [forEachParticle].
    specialize (IH (done ++ [advance cw ch p])).
    destruct (forEachParticle cw ch (done ++ [advance cw ch p]) rest)
      as [final ops'].
    cbn [snd] in *. cbn [app In]. rewrite in_app_iff, connect_In, IH.
    clear IH. split.
    + intros [E | [(q & Hq & Hd & E) | [(p0 & Hp0 & E) | H]]].
      * left. exists p. split; [left; reflexivity | symmetry; exact E].
      * right. exists [], p, rest, q. cbn [List.map app].
        repeat split; assumption.
      * left. exists p0. split; [right; exact Hp0 | exact E].
      * destruct H as (pre & p0 & post & q & E & Hq & Hd & Eop).
        right. exists (p :: pre), p0, post, q. subst rest.
        cbn [List.map app]. rewrite <- app_assoc in Hq.
        repeat split; assumption.
    + intros [(p0 & [<- | Hp0] & E) | (pre & p0 & post & q & E & Hq & Hd & Eop)].
      * left. symmetry. exact E.
      * right. right. left. exists p0. split; assumption.
      * destruct pre as [|a pre]; cbn [app] in E; injection E as Ea Er;
          subst.
        -- right. left. exists q. cbn [List.map app] in Hq.
           repeat split; assumption.
        -- right. right. right. exists pre, p0, post, q.
           cbn [List.map app] in Hq. rewrite <- app_assoc.
           repeat split; assumption.
Qed.

Lemma lineOpacity_decreasing (d1 d2 : R) :
  0 <= d1 -> d1 <= d2 -> d2 < 100 ->
  0 <= lineOpacity d2 /\ lineOpacity d2 <= lineOpacity d1
  /\ lineOpacity d1 <= 0.1.
Proof. unfold lineOpacity. intros H0 H1 H2. repeat split; lra. Qed.

(** C5 (amended): a frame paints the clearing of the canvas, one
    circle per particle, and, for every particle [p] and every particle
    [q] of the array as it is at the pass of [p] (the particles before
    [p] advanced, [p] advanced, those after it not yet), a line from
    [p] to [q] exactly when the distance d computed for the two is
    below 100, with opacity 0.1 * (1 - d / 100), and nothing else: no
    line is stroked for d >= 100.  On [0, 100) this opacity does not
    increase as d grows; it lies between 0 and 0.1. *)
Theorem line_iff_closer_than_100 (cw ch : R) (ps : list Particle)
  (op : DrawOp) :
  (In op (snd (animateFrame cw ch ps))
   <-> op = ClearRect cw ch
       \/ (exists p,
             In p ps
             /\ op = FillArc (x (advance cw ch p)) (y (advance cw ch p))
                      (radius (advance cw ch p)) (opacity (advance cw ch p)))
       \/ (exists pre p post q,
             ps = pre ++ p :: post
             /\ In q (List.map (advance cw ch) pre
                      ++ advance cw ch p :: post)
             /\ distance (advance cw ch p) q < 100
             /\ op = StrokeLine (x (advance cw ch p))
                      (y (advance cw ch p)) (x q) (y q)
                      (0.1 * (1 - distance (advance cw ch p) q / 100))))
  /\ (forall d, lineOpacity d = 0.1 * (1 - d / 100))
  /\ (forall d1 d2, 0 <= d1 -> d1 <= d2 -> d2 < 100 ->
        0 <= lineOpacity d2 /\ lineOpacity d2 <= lineOpacity d1
        /\ lineOpacity d1 <= 0.1).
Proof.
  split; [| split; [reflexivity | exact lineOpacity_decreasing]].
  pose proof (forEachParticle_In cw ch ps [] op) as H.
  unfold animateFrame.
  destruct (forEachParticle cw ch [] ps) as [ps' ops]. cbn [snd] in *.
  cbn [In]. rewrite H. cbn [app]. unfold lineOpacity.
  split; intros [E | R]; auto.
Qed.

Lemma line_iff_closer_than_100_witness :
  In (StrokeLine (x (advance 800 600 restA)) (y (advance 800 600 restA))
        (x restB) (y restB)
        (0.1 * (1 - distance (advance 800 600 restA) restB / 100)))
    (snd (animateFrame 800 600 [restA; restB]))
  /\ lineOpacity 50 <= lineOpacity 5.
Proof.
  split.
  - apply (proj1 (line_iff_closer_than_100 800 600 [restA; restB] _)).
    right. right. exists [], restA, [restB], restB.
    split; [reflexivity |].
    split; [right; left; reflexivity |].
    split; [| reflexivity].
    unfold distance, advance, restA, restB; cbn [x y vx vy].
    apply sqrt_lt_bound; nra.
  - apply (proj2 (proj2 (line_iff_closer_than_100 800 600 [] (ClearRect 0 0)))
             5 50); lra.
Defined.

(** C5, as stated, fails on binary64 values: the opacity computed for
    the distance 0 and for the distance 1e-15 is the same number, so
    the opacity is not strictly decreasing on [0, 100). *)
Lemma opacity_not_strictly_decreasing :
  (0 <? 1e-15)%float = true
  /\ (1e-15 <? 100)%float = true
  /\ Binary64.lineOpacity 0 = Binary64.lineOpacity 1e-15.
Proof. repeat split; vm_compute; reflexivity. Qed.

(** *** A frame with two particles *)

Lemma two_particle_frame (cw ch : R) (p q : Particle) :
  animateFrame cw ch [p; q]
  = ([advance cw ch p; advance cw ch q],
     [ClearRect cw ch;
      FillArc (x (advance cw ch p)) (y (advance cw ch p))
        (radius (advance cw ch p)) (opacity (advance cw ch p))]
     ++ connect (advance cw ch p) [advance cw ch p]
     ++ connect (advance cw ch p) [q]
     ++ [FillArc (x (advance cw ch q)) (y (advance cw ch q))
           (radius (advance cw ch q)) (opacity (advance cw ch q))]
     ++ connect (advance cw ch q) [advance cw ch p]
     ++ connect (advance cw ch q) [advance cw ch q]).
Proof.
  unfold animateFrame. cbn [forEachParticle app].
  rewrite (connect_cons (advance cw ch p) (advance cw ch p) [q]).
  rewrite (connect_cons (advance cw ch q) (advance cw ch p)
             [advance cw ch q]).
  rewrite !app_nil_r, <- app_assoc.
  reflexivity.
Qed.

Lemma connect_self (p : Particle) :
  connect p [p] = [StrokeLine (x p) (y p) (x p) (y p) (lineOpacity 0)].
Proof.
  rewrite connect_close; rewrite distance_self; [reflexivity | lra].
Qed.

Lemma lineOpacity_0 : lineOpacity 0 = 0.1.
Proof. unfold lineOpacity. lra. Qed.

(** The painting of a frame with two particles, by the two distance
    tests between them. *)
Lemma two_particle_ops (cw ch : R) (p q : Particle) :
  snd (animateFrame cw ch [p; q])
  = [ClearRect cw ch;
     FillArc (x (advance cw ch p)) (y (advance cw ch p))
       (radius (advance cw ch p)) (opacity (advance cw ch p));
     StrokeLine (x (advance cw ch p)) (y (advance cw ch p))
       (x (advance cw ch p)) (y (advance cw ch p)) (lineOpacity 0)]
    ++ connect (advance cw ch p) [q]
    ++ [FillArc (x (advance cw ch q)) (y (advance cw ch q))
          (radius (advance cw ch q)) (opacity (advance cw ch q))]
    ++ connect (advance cw ch q) [advance cw ch p]
    ++ [StrokeLine (x (advance cw ch q)) (y (advance cw ch q))
          (x (advance cw ch q)) (y (advance cw ch q)) (lineOpacity 0)].
Proof.
  rewrite two_particle_frame, !connect_self. reflexivity.
Qed.

Lemma two_particle_strokes (cw ch : R) (p q : Particle) :
  strokes (snd (animateFrame cw ch [p; q]))
  = (2 + (if Num.ltb (distance (advance cw ch p) q) 100 then 1 else 0)
     + (if Num.ltb (distance (advance cw ch q) (advance cw ch p)) 100
        then 1 else 0))%nat.
Proof.
  rewrite two_particle_ops, !connect_one.
  destruct (Num.ltb (distance (advance cw ch p) q) 100),
           (Num.ltb (distance (advance cw ch q) (advance cw ch p)) 100);
    reflexivity.
Qed.

(** C3 (amended): in every frame with two particles each particle's
    pass strokes a zero-length line from the particle to itself, with
    opacity 0.1, and a line to the other particle exactly when the two
    are closer than 100 at that pass (the first pass sees the second
    particle before its advance).  So a frame strokes four lines when
    the particles are closer than 100 at both passes, two of them
    between the two particles, three when they are closer than 100 at
    one pass only, and only the two zero-length lines when they are 100
    or more apart at both passes. *)
Theorem two_particles_lines_per_frame (cw ch : R) (p q : Particle) :
  let p' := advance cw ch p in
  let q' := advance cw ch q in
  (exists toQ toP : list DrawOp,
     snd (animateFrame cw ch [p; q])
     = [ClearRect cw ch;
        FillArc (x p') (y p') (radius p') (opacity p');
        StrokeLine (x p') (y p') (x p') (y p') 0.1]
       ++ toQ
       ++ [FillArc (x q') (y q') (radius q') (opacity q')]
       ++ toP
       ++ [StrokeLine (x q') (y q') (x q') (y q') 0.1]
     /\ (distance p' q < 100 ->
         toQ = [StrokeLine (x p') (y p') (x q) (y q)
                  (0.1 * (1 - distance p' q / 100))])
     /\ (distance p' q >= 100 -> toQ = [])
     /\ (distance q' p' < 100 ->
         toP = [StrokeLine (x q') (y q') (x p') (y p')
                  (0.1 * (1 - distance q' p' / 100))])
     /\ (distance q' p' >= 100 -> toP = [])
     /\ strokes (snd (animateFrame cw ch [p; q]))
        = (2 + List.length toQ + List.length toP)%nat)
  /\ (distance p' q < 100 -> distance q' p' < 100 ->
      snd (animateFrame cw ch [p; q])
      = [ClearRect cw ch;
         FillArc (x p') (y p') (radius p') (opacity p');
         StrokeLine (x p') (y p') (x p') (y p') 0.1;
         StrokeLine (x p') (y p') (x q) (y q)
           (0.1 * (1 - distance p' q / 100));
         FillArc (x q') (y q') (radius q') (opacity q');
         StrokeLine (x q') (y q') (x p') (y p')
           (0.1 * (1 - distance q' p' / 100));
         StrokeLine (x q') (y q') (x q') (y q') 0.1]
      /\ strokes (snd (animateFrame cw ch [p; q])) = 4%nat)
  /\ (distance p' q >= 100 -> distance q' p' >= 100 ->
      snd (animateFrame cw ch [p; q])
      = [ClearRect cw ch;
         FillArc (x p') (y p') (radius p') (opacity p');
         StrokeLine (x p') (y p') (x p') (y p') 0.1;
         FillArc (x q') (y q') (radius q') (opacity q');
         StrokeLine (x q') (y q') (x q') (y q') 0.1]
      /\ strokes (snd (animateFrame cw ch [p; q])) = 2%nat)
  /\ (distance p' q < 100 -> distance q' p' >= 100 ->
      strokes (snd (animateFrame cw ch [p; q])) = 3%nat)
  /\ (distance p' q >= 100 -> distance q' p' < 100 ->
      strokes (snd (animateFrame cw ch [p; q])) = 3%nat).
Proof.
  intros p' q'. subst p' q'.
  split; [| split; [| split; [| split]]].
  - exists (connect (advance cw ch p) [q]),
      (connect (advance cw ch q) [advance cw ch p]).
    split; [rewrite two_particle_ops, lineOpacity_0; reflexivity |].
    split; [intro H; rewrite connect_close by exact H; reflexivity |].
    split; [apply connect_far |].
    split; [intro H; rewrite connect_close by exact H; reflexivity |].
    split; [apply connect_far |].
    rewrite two_particle_strokes, !connect_one.
    destruct (Num.ltb (distance (advance cw ch p) q) 100),
             (Num.ltb (distance (advance cw ch q) (advance cw ch p)) 100);
      reflexivity.
  - intros H1 H2. split.
    + rewrite two_particle_ops, !connect_close, lineOpacity_0 by assumption.
      reflexivity.
    + rewrite two_particle_strokes, !ltb_true by assumption. reflexivity.
  - intros H1 H2. split.
    + rewrite two_particle_ops, !connect_far, lineOpacity_0 by assumption.
      reflexivity.
    + rewrite two_particle_strokes, !ltb_false by lra. reflexivity.
  - intros H1 H2.
    rewrite two_particle_strokes, ltb_true, ltb_false by (assumption || lra).
    reflexivity.
  - intros H1 H2.
    rewrite two_particle_strokes, ltb_false, ltb_true by (assumption || lra).
    reflexivity.
Qed.

Lemma rest_distance_AB : distance (advance 800 600 restA) restB < 50
  /\ distance (advance 800 600 restB) (advance 800 600 restA) < 50.
Proof.
  unfold distance, advance, restA, restB; cbn [x y vx vy].
  split; apply sqrt_lt_bound; nra.
Qed.

Lemma rest_distance_AC : distance (advance 800 600 restA) restC >= 100
  /\ distance (advance 800 600 restC) (advance 800 600 restA) >= 100.
Proof.
  unfold distance, advance, restA, restC; cbn [x y vx vy].
  split; apply sqrt_ge_bound; nra.
Qed.

Lemma two_particles_lines_per_frame_witness :
  strokes (snd (animateFrame 800 600 [restA; restB])) = 4%nat
  /\ strokes (snd (animateFrame 800 600 [restA; restC])) = 2%nat.
Proof.
  split.
  - apply (proj1 (proj2 (two_particles_lines_per_frame 800 600 restA restB))).
    + pose proof (proj1 rest_distance_AB). lra.
    + pose proof (proj2 rest_distance_AB). lra.
  - apply (proj1 (proj2 (proj2
             (two_particles_lines_per_frame 800 600 restA restC)))).
    + exact (proj1 rest_distance_AC).
    + exact (proj2 rest_distance_AC).
Defined.

(** C3, as stated, fails: two particles at rest 5 apart get four
    strokes in a frame, not one, and two particles at rest 500 apart
    still get two. *)
Lemma two_particles_not_one_line :
  (distance restA restB < 50
   /\ strokes (snd (animateFrame 800 600 [restA; restB])) = 4%nat)
  /\ (distance restA restC >= 100
      /\ strokes (snd (animateFrame 800 600 [restA; restC])) = 2%nat).
Proof.
  split; split.
  - unfold distance, restA, restB; cbn [x y].
    apply sqrt_lt_bound; nra.
  - rewrite two_particle_strokes, !ltb_true; [reflexivity | |].
    + pose proof (proj2 rest_distance_AB). lra.
    + pose proof (proj1 rest_distance_AB). lra.
  - unfold distance, restA, restC; cbn [x y].
    apply sqrt_ge_bound; nra.
  - rewrite two_particle_strokes, !ltb_false; [reflexivity | |].
    + pose proof (proj2 rest_distance_AC). lra.
    + pose proof (proj1 rest_distance_AC). lra.
Qed.

(** ** Initialisation and missing anchors *)

Lemma createParticle_world (cv : Canvas) (w : World) :
  snd (createParticle cv w) = set_rngNext (6 + rngNext w) w.
Proof. reflexivity. Qed.

Lemma createParticles_world (n : nat) (cv : Canvas) (ps : list Particle)
  (w : World) :
  snd (createParticles n cv ps w) = set_rngNext (6 * n + rngNext w) w
  /\ List.length (fst (createParticles n cv ps w)) = (List.length ps + n)%nat.
Proof.
  revert ps w. induction n as [|n IH]; intros ps w.
  - destruct w. split; [reflexivity | simpl; lia].
  - cbn [createParticles].
    pose proof (createParticle_world cv w) as Hw.
    destruct (createParticle cv w) as [p w1]. cbn [snd] in Hw. subst w1.
    destruct (IH (ps ++ [p]) (set_rngNext (6 + rngNext w) w)) as [E L].
    split.
    + rewrite E. unfold set_rngNext.
      cbn [rngNext STATE storedTheme dataTheme innerWidth cursorNode
           heroNode hoverListeners resizeListeners cursorFrame
           particleFrame surface rng].
      f_equal. lia.
    + rewrite L, length_app. simpl. lia.
Qed.

(** What [initializeCursor] leaves alone. *)
Lemma initializeCursor_keeps (w : World) :
  exists w', initializeCursor w = Normal w'
    /\ STATE w' = STATE w /\ storedTheme w' = storedTheme w
    /\ dataTheme w' = dataTheme w /\ innerWidth w' = innerWidth w
    /\ heroNode w' = heroNode w /\ particleFrame w' = particleFrame w.
Proof.
  unfold initializeCursor.
  destruct (motionDisabled w); [exists w; repeat split |].
  destruct (cursorNode w); [| exists w; repeat split].
  eexists. split; [reflexivity | repeat split].
Qed.

(** What [initializeParticles] leaves alone. *)
Lemma initializeParticles_keeps (w : World) :
  exists w', initializeParticles w = Normal w'
    /\ STATE w' = STATE w /\ storedTheme w' = storedTheme w
    /\ dataTheme w' = dataTheme w /\ cursorNode w' = cursorNode w
    /\ cursorFrame w' = cursorFrame w.
Proof.
  unfold initializeParticles.
  destruct (motionDisabled w); [exists w; repeat split |].
  unfold createParticleCanvas.
  destruct (heroNode w) as [hero|]; [| exists w; repeat split].
  cbn [deref bind].
  match goal with
  | |- context [createParticles ?n ?cv ?ps ?w0] =>
      pose proof (proj1 (createParticles_world n cv ps w0)) as Hw;
      destruct (createParticles n cv ps w0) as [qs w2]
  end.
  cbn [snd] in Hw. subst w2. unfold animate.
  destruct (animateFrame _ _ _) as [ps' ops].
  eexists. split; [reflexivity | repeat split].
Qed.

(** Page load always completes. *)
Lemma boot_completes (e : Environment) :
  exists w, boot e = Normal w
    /\ currentTheme (STATE w) = initialTheme (env_theme e)
    /\ storedTheme w = env_theme e.
Proof.
  unfold boot, init. cbn [initializeTheme bind].
  destruct (initializeCursor_keeps
              (set_dataTheme (Some (currentTheme (STATE (load e)))) (load e)))
    as (w2 & E2 & S2 & T2 & _).
  rewrite E2. cbn [bind].
  destruct (initializeParticles_keeps w2) as (w3 & E3 & S3 & T3 & _).
  exists w3. split; [exact E3 |].
  rewrite S3, S2, T3, T2. split; reflexivity.
Qed.

(** With its element present and motion allowed, each component
    starts. *)
Lemma initializeCursor_starts (w : World) (el : CursorElement) :
  motionDisabled w = false -> cursorNode w = Some el ->
  exists w', initializeCursor w = Normal w'
    /\ cursorFrame w' = Some (stepCursor (mkCursorClosure 0 0 0 0))
    /\ hoverListeners w' = true.
Proof.
  intros Hm Hc. unfold initializeCursor. rewrite Hm, Hc.
  eexists. split; [reflexivity | split; reflexivity].
Qed.

Lemma initializeParticles_starts (w : World) (hero : Hero) :
  motionDisabled w = false -> heroNode w = Some hero ->
  exists w' pc, initializeParticles w = Normal w'
    /\ particleFrame w' = Some pc
    /\ canvas pc = mkCanvas (offsetWidth hero) (offsetHeight hero)
    /\ List.length (particles pc) = CONFIG.particles.count
    /\ resizeListeners w' = S (resizeListeners w)
    /\ heroNode w'
       = Some (mkHero (offsetWidth hero) (offsetHeight hero)
                 (children hero ++ [canvas pc])).
Proof.
  intros Hm Hh. unfold initializeParticles, createParticleCanvas.
  rewrite Hm, Hh. cbn [deref bind].
  match goal with
  | |- context [createParticles ?n ?cv ?ps ?w0] =>
      destruct (createParticles_world n cv ps w0) as [Hw Hl];
      destruct (createParticles n cv ps w0) as [qs w2]
  end.
  cbn [fst snd] in Hw, Hl. subst w2. unfold animate.
  pose proof (animateFrame_particles
                (IZR (width (canvas
                   (mkParticleClosure
                      (mkCanvas (offsetWidth hero) (offsetHeight hero)) qs))))
                (IZR (height (canvas
                   (mkParticleClosure
                      (mkCanvas (offsetWidth hero) (offsetHeight hero)) qs))))
                qs) as Hps.
  cbn [canvas particles] in *.
  destruct (animateFrame _ _ qs) as [ps' ops]. cbn [fst] in Hps.
  do 2 eexists. split; [reflexivity |].
  cbn. split; [reflexivity |]. cbn [canvas particles].
  repeat split.
  subst ps'. rewrite length_map, Hl. reflexivity.
Qed.

(** C9: without a [.hero] element [createParticleCanvas] gives [null]
    and [initializeParticles] completes leaving the page as it was;
    without a [.cursor] element [initializeCursor] completes leaving
    the page as it was; in both cases a page load completes with no
    animation callback of that component pending. *)
Theorem missing_anchor_skips_component :
  (forall w, heroNode w = None ->
     createParticleCanvas w = Normal (None, w)
     /\ initializeParticles w = Normal w)
  /\ (forall w, cursorNode w = None -> initializeCursor w = Normal w)
  /\ (forall e, env_hero e = None ->
        exists w, boot e = Normal w /\ particleFrame w = None)
  /\ (forall e, env_cursor e = None ->
        exists w, boot e = Normal w /\ cursorFrame w = None).
Proof.
  split; [| split; [| split]].
  - intros w H. unfold initializeParticles, createParticleCanvas.
    rewrite H. split; [reflexivity |].
    destruct (motionDisabled w); reflexivity.
  - intros w H. unfold initializeCursor. rewrite H.
    destruct (motionDisabled w); reflexivity.
  - intros e H. unfold boot, init. cbn [initializeTheme bind].
    destruct (initializeCursor_keeps
                (set_dataTheme (Some (currentTheme (STATE (load e))))
                   (load e)))
      as (w2 & E2 & _ & _ & _ & _ & H2 & P2).
    rewrite E2. cbn [bind].
    exists w2. split; [| rewrite P2; reflexivity].
    unfold initializeParticles, createParticleCanvas.
    rewrite H2. cbn [heroNode set_dataTheme load]. rewrite H.
    destruct (motionDisabled w2); reflexivity.
  - intros e H. unfold boot, init. cbn [initializeTheme bind].
    assert (initializeCursor
              (set_dataTheme (Some (currentTheme (STATE (load e))))
                 (load e))
            = Normal (set_dataTheme (Some (currentTheme (STATE (load e))))
                        (load e))) as E2.
    { unfold initializeCursor.
      cbn [cursorNode set_dataTheme load]. rewrite H.
      destruct (motionDisabled _); reflexivity. }
    rewrite E2. cbn [bind].
    destruct (initializeParticles_keeps
                (set_dataTheme (Some (currentTheme (STATE (load e))))
                   (load e)))
      as (w3 & E3 & _ & _ & _ & _ & C3).
    exists w3. split; [exact E3 | rewrite C3; reflexivity].
Qed.

Lemma missing_anchor_skips_component_witness :
  initializeParticles (load bare) = Normal (load bare)
  /\ initializeCursor (load bare) = Normal (load bare)
  /\ (exists w, boot bare = Normal w /\ particleFrame w = None)
  /\ (exists w, boot bare = Normal w /\ cursorFrame w = None).
Proof.
  split; [| split; [| split]].
  - apply (proj1 missing_anchor_skips_component (load bare)). reflexivity.
  - apply (proj1 (proj2 missing_anchor_skips_component) (load bare)).
    reflexivity.
  - apply (proj1 (proj2 (proj2 missing_anchor_skips_component)) bare).
    reflexivity.
  - apply (proj2 (proj2 (proj2 missing_anchor_skips_component)) bare).
    reflexivity.
Defined.

(** ** Theme *)

Lemma str_eqb_eq (a b : jsstring) : str_eqb a b = true <-> a = b.
Proof.
  revert b. induction a as [|c a IH]; intros [|d b]; simpl;
    try (split; [discriminate | discriminate]); [tauto |].
  rewrite andb_true_iff, N.eqb_eq, IH.
  split; [intros [-> ->]; reflexivity | intro H; inversion H; auto].
Qed.

(** [toggleTheme] completes; the new theme goes to [STATE], to the
    attribute and to the slot, and nothing else is written. *)
Lemma toggleTheme_effect (w : World) :
  exists w', toggleTheme w = Normal w'
    /\ currentTheme (STATE w')
       = (if str_eqb (currentTheme (STATE w)) light then dark else light)
    /\ storedTheme w' = Some (currentTheme (STATE w'))
    /\ dataTheme w' = Some (currentTheme (STATE w'))
    /\ mousePosition (STATE w') = mousePosition (STATE w)
    /\ isReducedMotion (STATE w') = isReducedMotion (STATE w)
    /\ cursorFrame w' = cursorFrame w
    /\ particleFrame w' = particleFrame w.
Proof. eexists. split; [reflexivity | repeat split]. Qed.

Lemma initialTheme_unset : initialTheme None = light.
Proof. reflexivity. Qed.

Lemma initialTheme_isTheme (t : jsstring) :
  isTheme t -> initialTheme (Some t) = t.
Proof. intros [-> | ->]; reflexivity. Qed.

Lemma dispatch_keeps_theme (ev : Event) (w w' : World) :
  dispatch w ev = Normal w' -> themeInvariant w -> themeInvariant w'.
Proof.
  unfold themeInvariant. intros E [Ht Hs]. destruct ev as [cx cy| |].
  - destruct (handleMouseMove_effect cx cy w) as (w1 & E1 & _ & T1 & S1 & _).
    cbn [dispatch] in E. rewrite E1 in E. injection E as <-.
    rewrite T1, S1. split; assumption.
  - cbn [dispatch] in E.
    assert (exists w1, match cursorFrame w with
                       | Some cl => updateCursor cl w
                       | None => Normal w
                       end = Normal w1
                       /\ STATE w1 = STATE w /\ storedTheme w1 = storedTheme w)
      as (w1 & E1 & S1 & T1).
    { destruct (cursorFrame w); eexists; split; try reflexivity;
        split; reflexivity. }
    rewrite E1 in E. cbn [bind] in E.
    destruct (particleFrame w1) as [pc|].
    + destruct (animate_keeps_cursor pc w1) as (w2 & E2 & _ & S2 & T2).
      rewrite E2 in E. injection E as <-.
      rewrite S2, S1, T2, T1. split; assumption.
    + injection E as <-. rewrite S1, T1. split; assumption.
  - destruct (toggleTheme_effect w) as (w1 & E1 & T1 & S1 & _).
    cbn [dispatch] in E. rewrite E1 in E. injection E as <-.
    assert (isTheme (currentTheme (STATE w1))) as H1.
    { rewrite T1. destruct (str_eqb _ _); [right | left]; reflexivity. }
    split; [exact H1 |].
    right. exists (currentTheme (STATE w1)). split; assumption.
Qed.

Lemma boot_theme (e : Environment) (w : World) :
  boot e = Normal w ->
  (env_theme e = None \/ exists t, env_theme e = Some t /\ isTheme t) ->
  themeInvariant w.
Proof.
  intros E H.
  destruct (boot_completes e) as (w1 & E1 & T1 & S1).
  rewrite E1 in E. injection E as <-.
  unfold themeInvariant. rewrite T1, S1. split; [| exact H].
  destruct H as [-> | (t & -> & Ht)].
  - left. reflexivity.
  - rewrite initialTheme_isTheme by exact Ht. exact Ht.
Qed.

(** Every event is handled; a theme change leaves one of the two
    themes in [STATE] and in the slot, any other event leaves both as
    they were. *)
Lemma dispatch_theme (ev : Event) (w : World) :
  exists w', dispatch w ev = Normal w'
    /\ (ev = ThemeChange ->
        isTheme (currentTheme (STATE w'))
        /\ storedTheme w' = Some (currentTheme (STATE w')))
    /\ (ev <> ThemeChange ->
        currentTheme (STATE w') = currentTheme (STATE w)
        /\ storedTheme w' = storedTheme w).
Proof.
  destruct ev as [cx cy| |].
  - destruct (handleMouseMove_effect cx cy w) as (w' & E & _ & T & S & _).
    exists w'. cbn [dispatch]. split; [exact E |].
    split; [discriminate | intros _; split; assumption].
  - cbn [dispatch].
    assert (exists w1, match cursorFrame w with
                       | Some cl => updateCursor cl w
                       | None => Normal w
                       end = Normal w1
                       /\ STATE w1 = STATE w /\ storedTheme w1 = storedTheme w)
      as (w1 & E1 & S1 & T1).
    { destruct (cursorFrame w); eexists; split; try reflexivity;
        split; reflexivity. }
    rewrite E1. cbn [bind].
    destruct (particleFrame w1) as [pc|].
    + destruct (animate_keeps_cursor pc w1) as (w2 & E2 & _ & S2 & T2).
      exists w2. split; [exact E2 |].
      split; [discriminate | intros _; rewrite S2, S1, T2, T1; split;
                              reflexivity].
    + exists w1. split; [reflexivity |].
      split; [discriminate | intros _; rewrite S1, T1; split; reflexivity].
  - destruct (toggleTheme_effect w) as (w1 & E1 & T1 & S1 & _).
    exists w1. cbn [dispatch]. split; [exact E1 |].
    split; [| intro H; contradiction H; reflexivity].
    intros _. split; [| exact S1].
    rewrite T1. destruct (str_eqb _ _); [right | left]; reflexivity.
Qed.

Lemma run_theme (es : list Event) (w : World) :
  exists w', run es w = Normal w'
    /\ (isTheme (currentTheme (STATE w)) \/ In ThemeChange es ->
        isTheme (currentTheme (STATE w')))
    /\ (storedTheme w = Some (currentTheme (STATE w)) \/ In ThemeChange es ->
        storedTheme w' = Some (currentTheme (STATE w')))
    /\ (~ In ThemeChange es ->
        currentTheme (STATE w') = currentTheme (STATE w)
        /\ storedTheme w' = storedTheme w)
    /\ (themeInvariant w -> themeInvariant w').
Proof.
  revert w. induction es as [|ev es IH]; intro w.
  - exists w. split; [reflexivity |].
    split; [intros [H | []]; exact H |].
    split; [intros [H | []]; exact H |].
    split; [intros _; split; reflexivity | auto].
  - destruct (dispatch_theme ev w) as (w1 & E1 & Ht & Hn).
    destruct (IH w1) as (w2 & E2 & A & B & C & D).
    assert (ev = ThemeChange \/ ev <> ThemeChange) as Hev
      by (destruct ev; [right; discriminate | right; discriminate
                        | left; reflexivity]).
    exists w2. rewrite run_cons, E1. cbn [bind].
    split; [exact E2 |].
    split; [| split; [| split]].
    + intros [H | [H | H]].
      * apply A. left. destruct Hev as [Hev | Hev].
        -- exact (proj1 (Ht Hev)).
        -- rewrite (proj1 (Hn Hev)). exact H.
      * apply A. left. exact (proj1 (Ht H)).
      * apply A. right. exact H.
    + intros [H | [H | H]].
      * apply B. left. destruct Hev as [Hev | Hev].
        -- exact (proj2 (Ht Hev)).
        -- rewrite (proj1 (Hn Hev)), (proj2 (Hn Hev)). exact H.
      * apply B. left. exact (proj2 (Ht H)).
      * apply B. right. exact H.
    + intro H.
      assert (ev <> ThemeChange) as H1 by (intro F; apply H; left; exact F).
      assert (~ In ThemeChange es) as H2 by (intro F; apply H; right; exact F).
      destruct (C H2) as [C1 C2]. destruct (Hn H1) as [N1 N2].
      split; congruence.
    + intro H. apply D. exact (dispatch_keeps_theme ev w w1 E1 H).
Qed.

Lemma initialTheme_isTheme_iff (s : option jsstring) :
  isTheme (initialTheme s)
  <-> s = None \/ s = Some [] \/ exists t, s = Some t /\ isTheme t.
Proof.
  unfold initialTheme, or_default. destruct s as [[|c t]|]; cbn [truthy].
  - split; [intros _; right; left; reflexivity | intros _; left; reflexivity].
  - split.
    + intro H. right. right. exists (c :: t). split; [reflexivity | exact H].
    + intros [H | [H | (t' & H & Ht)]]; try discriminate.
      injection H as ->. exact Ht.
  - split; [intros _; left; reflexivity | intros _; left; reflexivity].
Qed.

(** C10 (amended): [toggleTheme] always completes and leaves 'light' or
    'dark' in [STATE] and in the slot: 'dark' when the theme was
    'light', 'light' when it was anything else.  Two calls give back
    the theme the page had exactly when that theme was 'light' or
    'dark', and then the slot holds it too.  A page load takes the
    theme from the slot as it is ('light' for an empty slot or the
    empty string), and no event but a theme change writes the theme or
    the slot; so after any events the theme is 'light' or 'dark' if the
    loaded theme was or if a theme change was among the events, and a
    slot that was empty or held 'light' or 'dark' is still so. *)
Theorem theme_toggle_is_involution (w : World) (e : Environment)
  (es : list Event) :
  (exists w1 w2,
     toggleTheme w = Normal w1 /\ toggleTheme w1 = Normal w2
     /\ isTheme (currentTheme (STATE w1))
     /\ (currentTheme (STATE w) = light -> currentTheme (STATE w1) = dark)
     /\ (currentTheme (STATE w) = dark -> currentTheme (STATE w1) = light)
     /\ (currentTheme (STATE w) <> light -> currentTheme (STATE w1) = light)
     /\ storedTheme w1 = Some (currentTheme (STATE w1))
     /\ storedTheme w2 = Some (currentTheme (STATE w2))
     /\ (currentTheme (STATE w2) = currentTheme (STATE w)
         <-> isTheme (currentTheme (STATE w)))
     /\ (isTheme (currentTheme (STATE w)) ->
         storedTheme w2 = Some (currentTheme (STATE w))))
  /\ (exists w0 w',
        boot e = Normal w0 /\ run es w0 = Normal w'
        /\ currentTheme (STATE w0) = initialTheme (env_theme e)
        /\ storedTheme w0 = env_theme e
        /\ (isTheme (initialTheme (env_theme e))
            <-> env_theme e = None \/ env_theme e = Some []
                \/ exists t, env_theme e = Some t /\ isTheme t)
        /\ (isTheme (initialTheme (env_theme e)) \/ In ThemeChange es ->
            isTheme (currentTheme (STATE w')))
        /\ (In ThemeChange es ->
            storedTheme w' = Some (currentTheme (STATE w')))
        /\ (~ In ThemeChange es ->
            currentTheme (STATE w') = initialTheme (env_theme e)
            /\ storedTheme w' = env_theme e)
        /\ (env_theme e = None
            \/ (exists t, env_theme e = Some t /\ isTheme t) ->
            themeInvariant w0 /\ themeInvariant w')).
Proof.
  split.
  - destruct (toggleTheme_effect w) as (w1 & E1 & T1 & S1 & _).
    destruct (toggleTheme_effect w1) as (w2 & E2 & T2 & S2 & _).
    assert (isTheme (currentTheme (STATE w1))) as I1
      by (rewrite T1; destruct (str_eqb (currentTheme (STATE w)) light);
          [right | left]; reflexivity).
    assert (isTheme (currentTheme (STATE w2))) as I2
      by (rewrite T2; destruct (str_eqb (currentTheme (STATE w1)) light);
          [right | left]; reflexivity).
    assert (isTheme (currentTheme (STATE w)) ->
            currentTheme (STATE w2) = currentTheme (STATE w)) as Hback.
    { intro Ht. rewrite T2, T1. destruct Ht as [-> | ->]; reflexivity. }
    exists w1, w2.
    split; [exact E1 |]. split; [exact E2 |]. split; [exact I1 |].
    split; [intro H; rewrite T1, H; reflexivity |].
    split; [intro H; rewrite T1, H; reflexivity |].
    split.
    { intro H. rewrite T1.
      destruct (str_eqb (currentTheme (STATE w)) light) eqn:Eq;
        [| reflexivity].
      apply str_eqb_eq in Eq. contradiction. }
    split; [exact S1 |]. split; [exact S2 |].
    split.
    + split; [intro H; rewrite <- H; exact I2 | exact Hback].
    + intro Ht. rewrite S2, (Hback Ht). reflexivity.
  - destruct (boot_completes e) as (w0 & E0 & T0 & S0).
    destruct (run_theme es w0) as (w' & E & A & B & C & D).
    exists w0, w'.
    split; [exact E0 |]. split; [exact E |].
    split; [exact T0 |]. split; [exact S0 |].
    split; [apply initialTheme_isTheme_iff |].
    split; [rewrite <- T0; exact A |].
    split; [intro H; apply B; right; exact H |].
    split; [intro H; rewrite <- T0, <- S0; exact (C H) |].
    intro H.
    assert (themeInvariant w0) as I0 by exact (boot_theme e w0 E0 H).
    split; [exact I0 | exact (D I0)].
Qed.

Lemma theme_toggle_is_involution_witness :
  exists w0 w' w1 w2,
    boot desktop = Normal w0
    /\ run [MouseMove 3 4; ThemeChange; AnimationFrame] w0 = Normal w'
    /\ isTheme (currentTheme (STATE w'))
    /\ themeInvariant w'
    /\ toggleTheme w' = Normal w1 /\ toggleTheme w1 = Normal w2
    /\ currentTheme (STATE w2) = currentTheme (STATE w').
Proof.
  destruct (proj2 (theme_toggle_is_involution (load desktop) desktop
                     [MouseMove 3 4; ThemeChange; AnimationFrame]))
    as (w0 & w' & E0 & E & _ & _ & _ & A & _ & _ & I).
  assert (isTheme (currentTheme (STATE w'))) as Ht
    by (apply A; left; left; reflexivity).
  destruct (proj1 (theme_toggle_is_involution w' desktop []))
    as (w1 & w2 & E1 & E2 & _ & _ & _ & _ & _ & _ & Hback & _).
  exists w0, w', w1, w2.
  split; [exact E0 |]. split; [exact E |]. split; [exact Ht |].
  split; [apply I; left; reflexivity |].
  split; [exact E1 |]. split; [exact E2 |].
  apply Hback. exact Ht.
Defined.

(** C10, as stated, fails: loaded on a slot that holds 'blue', the page
    has the theme 'blue', neither 'light' nor 'dark', and two calls of
    [toggleTheme] leave 'dark' in [STATE] and in the slot, not
    'blue'. *)
Lemma foreign_theme_is_not_restored :
  exists w w1 w2,
    boot bluePage = Normal w
    /\ currentTheme (STATE w) = js "blue"
    /\ storedTheme w = Some (js "blue")
    /\ ~ isTheme (currentTheme (STATE w))
    /\ toggleTheme w = Normal w1 /\ toggleTheme w1 = Normal w2
    /\ currentTheme (STATE w1) = light
    /\ currentTheme (STATE w2) = dark
    /\ storedTheme w2 = Some dark
    /\ currentTheme (STATE w2) <> currentTheme (STATE w).
Proof.
  do 3 eexists.
  split; [js_eval; reflexivity |].
  split; [reflexivity |]. split; [reflexivity |].
  split; [intros [H | H]; vm_compute in H; discriminate H |].
  split; [reflexivity |]. split; [reflexivity |].
  split; [reflexivity |]. split; [reflexivity |]. split; [reflexivity |].
  intro H; vm_compute in H; discriminate H.
Qed.

(** A slot written by something other than this script is taken as it
    is; the first toggle then brings the theme to 'light'. *)
Lemma foreign_slot_is_kept (t : jsstring) :
  truthy t = true -> initialTheme (Some t) = t.
Proof. destruct t; [discriminate | reflexivity]. Qed.

(** ** Patterns *)

Lemma nullable_Matches (r : Regex) : nullable r = true <-> Matches r [].
Proof.
  split.
  - induction r as [| | p | r1 IH1 r2 IH2 | r1 IH1 r2 IH2 | r IH];
      simpl; intro H; try discriminate.
    + constructor.
    + apply andb_true_iff in H. destruct H as [H1 H2].
      change (@nil N) with (@nil N ++ @nil N).
      constructor; auto.
    + apply orb_true_iff in H. destruct H as [H | H].
      * apply M_AltL; auto.
      * apply M_AltR; auto.
    + constructor.
  - intro H. remember (@nil N) as s eqn:Hs.
    induction H as [| p c Hc | r1 r2 s1 s2 H1 IH1 H2 IH2
                   | r1 r2 s H IH | r1 r2 s H IH | r
                   | r s1 s2 H1 IH1 H2 IH2];
      simpl; try reflexivity.
    + discriminate.
    + apply app_eq_nil in Hs. destruct Hs as [-> ->].
      rewrite IH1, IH2; reflexivity.
    + rewrite IH by exact Hs. reflexivity.
    + rewrite IH by exact Hs. apply orb_true_r.
Qed.

Lemma Matches_Star_cons (r : Regex) (c : N) (s : jsstring) :
  Matches (Star r) (c :: s) ->
  exists s1 s2, s = s1 ++ s2 /\ Matches r (c :: s1) /\ Matches (Star r) s2.
Proof.
  intro H. remember (Star r) as r' eqn:Hr. remember (c :: s) as s' eqn:Hs.
  revert s Hs.
  induction H as [| | | | | | r0 s1 s2 H1 _ H2 IH2]; intros u Hu;
    try discriminate.
  injection Hr as ->.
  destruct s1 as [|d s1].
  - apply IH2; [reflexivity | exact Hu].
  - simpl in Hu. injection Hu as -> <-.
    exists s1, s2. repeat split; assumption.
Qed.

Lemma deriv_Matches (c : N) (r : Regex) (s : jsstring) :
  Matches (deriv c r) s <-> Matches r (c :: s).
Proof.
  revert s.
  induction r as [| | p | r1 IH1 r2 IH2 | r1 IH1 r2 IH2 | r IH];
    intro s; simpl.
  - split; intro H; inversion H.
  - split; intro H; inversion H.
  - destruct (p c) eqn:Hp; split; intro H; inversion H; subst.
    + constructor. exact Hp.
    + constructor.
    + congruence.
  - destruct (nullable r1) eqn:Hn.
    + split; intro H.
      * inversion H as [| | | ? ? ? H' | ? ? ? H' | |]; subst.
        -- inversion H' as [| | ? ? s1 s2 Ha Hb | | | |]; subst.
           apply IH1 in Ha.
           change (c :: s1 ++ s2) with ((c :: s1) ++ s2).
           constructor; assumption.
        -- apply IH2 in H'.
           change (c :: s) with ([] ++ c :: s).
           constructor; [apply nullable_Matches; exact Hn | exact H'].
      * inversion H as [| | ? ? s1 s2 Ha Hb | | | |]; subst.
        match goal with E : _ ++ _ = _ :: _ |- _ => rename E into Hs end.
        destruct s1 as [|d s1]; simpl in Hs.
        -- subst s2. apply M_AltR. apply IH2. exact Hb.
        -- injection Hs as -> <-. apply M_AltL.
           constructor; [apply IH1; exact Ha | exact Hb].
    + split; intro H.
      * inversion H as [| | ? ? s1 s2 Ha Hb | | | |]; subst.
        apply IH1 in Ha.
        change (c :: s1 ++ s2) with ((c :: s1) ++ s2).
        constructor; assumption.
      * inversion H as [| | ? ? s1 s2 Ha Hb | | | |]; subst.
        match goal with E : _ ++ _ = _ :: _ |- _ => rename E into Hs end.
        destruct s1 as [|d s1]; simpl in Hs.
        -- apply nullable_Matches in Ha. congruence.
        -- injection Hs as -> <-.
           constructor; [apply IH1; exact Ha | exact Hb].
  - split; intro H; inversion H; subst.
    + apply M_AltL, IH1; assumption.
    + apply M_AltR, IH2; assumption.
    + apply M_AltL, IH1; assumption.
    + apply M_AltR, IH2; assumption.
  - split; intro H.
    + inversion H as [| | ? ? s1 s2 Ha Hb | | | |]; subst.
      apply IH in Ha.
      change (c :: s1 ++ s2) with ((c :: s1) ++ s2).
      constructor; assumption.
    + apply Matches_Star_cons in H. destruct H as (s1 & s2 & -> & Ha & Hb).
      constructor; [apply IH; exact Ha | exact Hb].
Qed.

(** [test] decides membership in the language of the pattern. *)
Lemma test_Matches (r : Regex) (s : jsstring) :
  test r s = true <-> Matches r s.
Proof.
  revert r. induction s as [|c s IH]; intro r; simpl.
  - apply nullable_Matches.
  - rewrite IH. apply deriv_Matches.
Qed.

Lemma Matches_Star_Class (p : N -> bool) (s : jsstring) :
  Matches (Star (Class p)) s <-> Forall (fun c => p c = true) s.
Proof.
  split.
  - intro H. remember (Star (Class p)) as r eqn:Hr.
    induction H as [| | | | | | r0 s1 s2 H1 _ H2 IH2]; try discriminate.
    + constructor.
    + injection Hr as ->. inversion H1; subst.
      constructor; [assumption | apply IH2; reflexivity].
  - intro H. induction H as [|c s Hc _ IH].
    + constructor.
    + change (c :: s) with ([c] ++ s).
      constructor; [constructor; exact Hc | exact IH].
Qed.

Lemma Matches_Plus_Class (p : N -> bool) (s : jsstring) :
  Matches (Plus (Class p)) s
  <-> s <> [] /\ Forall (fun c => p c = true) s.
Proof.
  unfold Plus. split.
  - intro H. inversion H as [| | ? ? s1 s2 Ha Hb | | | |]; subst.
    inversion Ha; subst. apply Matches_Star_Class in Hb.
    split; [discriminate | constructor; assumption].
  - intros [Hne H]. destruct H as [|c s Hc Hs]; [congruence |].
    change (c :: s) with ([c] ++ s).
    constructor; [constructor; exact Hc | apply Matches_Star_Class; exact Hs].
Qed.

Lemma notSpaceAt_plain (c : N) : notSpaceAt c = true <-> plainUnit c.
Proof.
  unfold notSpaceAt, plainUnit.
  rewrite andb_true_iff, !negb_true_iff, N.eqb_neq. tauto.
Qed.

Lemma Forall_plain (s : jsstring) :
  Forall (fun c => notSpaceAt c = true) s <-> Forall plainUnit s.
Proof.
  split; apply Forall_impl; intros c; apply notSpaceAt_plain.
Qed.

Lemma Matches_unit (k : N) (s : jsstring) :
  Matches (Class (N.eqb k)) s <-> s = [k].
Proof.
  split.
  - intro H. inversion H as [| ? c Hc | | | | |]; subst.
    apply N.eqb_eq in Hc. subst. reflexivity.
  - intros ->. constructor. apply N.eqb_refl.
Qed.

(** The pattern of [validateField] describes the shape
    [local@domain.tld]. *)
Lemma emailRegex_shape (s : jsstring) :
  test emailRegex s = true <-> EmailShape s.
Proof.
  rewrite test_Matches. unfold emailRegex, EmailShape. split.
  - intro H.
    inversion H as [| | ? ? l s1 Hl H1 | | | |]; subst; clear H.
    inversion H1 as [| | ? ? a s2 Ha H2 | | | |]; subst; clear H1.
    inversion H2 as [| | ? ? d s3 Hd H3 | | | |]; subst; clear H2.
    inversion H3 as [| | ? ? b t Hb Ht | | | |]; subst; clear H3.
    apply Matches_unit in Ha, Hb. subst a b.
    apply Matches_Plus_Class in Hl, Hd, Ht.
    destruct Hl as [Nl Fl], Hd as [Nd Fd], Ht as [Nt Ft].
    exists l, d, t. rewrite <- !Forall_plain. repeat split; assumption.
  - intros (l & d & t & -> & Nl & Nd & Nt & Fl & Fd & Ft).
    rewrite <- Forall_plain in Fl, Fd, Ft.
    constructor; [apply Matches_Plus_Class; split; assumption |].
    constructor; [apply Matches_unit; reflexivity |].
    constructor; [apply Matches_Plus_Class; split; assumption |].
    constructor; [apply Matches_unit; reflexivity |].
    apply Matches_Plus_Class; split; assumption.
Qed.

(** ** Field validation *)

Lemma truthy_false (s : jsstring) : truthy s = false <-> s = [].
Proof. destruct s; simpl; split; congruence. Qed.

Lemma truthy_true (s : jsstring) : truthy s = true <-> s <> [].
Proof. destruct s; simpl; split; congruence. Qed.

(** The verdict of [validateField]. *)
Lemma validateField_verdict (f : Field) :
  fst (validateField f)
  = negb (required f && negb (truthy (trim (value f))))
    && negb (str_eqb (type f) (js "email") && truthy (trim (value f))
             && negb (test emailRegex (trim (value f)))).
Proof.
  unfold validateField. cbn [clearFieldError required type].
  destruct (required f), (truthy (trim (value f))),
    (str_eqb (type f) (js "email")), (test emailRegex (trim (value f)));
    reflexivity.
Qed.

Lemma EmailShape_nonempty (s : jsstring) : EmailShape s -> s <> [].
Proof.
  intros (l & d & t & -> & Nl & _). destruct l; [congruence | discriminate].
Qed.

(** A rejected field is left with the red border and a message; an
    accepted one with neither. *)
Lemma validateField_marks (f : Field) :
  (fst (validateField f) = false ->
   borderColor (snd (validateField f)) = js "#dc2626"
   /\ exists m, errorDiv (snd (validateField f)) = Some m)
  /\ (fst (validateField f) = true ->
      borderColor (snd (validateField f)) = []
      /\ errorDiv (snd (validateField f)) = None).
Proof.
  unfold validateField. cbn [clearFieldError required type].
  destruct (required f), (truthy (trim (value f))),
    (str_eqb (type f) (js "email")), (test emailRegex (trim (value f)));
    cbn; split; intro H; try discriminate; split; try reflexivity;
    eexists; reflexivity.
Qed.

(** C8 (amended): [validateField] rejects every required field whose
    trimmed value is empty; for an email field whose trimmed value is
    not empty it rejects the field when the trimmed value does not have
    the shape [local@domain.tld] and accepts it when it has; a field is
    accepted exactly when neither of the two rejections applies; and
    it accepts [a@b.co] and rejects [a@b]. *)
Theorem validateField_required_and_email (f : Field) :
  (required f = true -> trim (value f) = [] ->
   fst (validateField f) = false)
  /\ (type f = js "email" -> trim (value f) <> [] ->
      ~ EmailShape (trim (value f)) -> fst (validateField f) = false)
  /\ (type f = js "email" -> EmailShape (trim (value f)) ->
      fst (validateField f) = true)
  /\ (fst (validateField f) = true
      <-> (required f = true -> trim (value f) <> [])
          /\ (type f = js "email" -> trim (value f) <> [] ->
              EmailShape (trim (value f))))
  /\ fst (validateField goodEmail) = true
  /\ fst (validateField badEmail) = false.
Proof.
  assert (fst (validateField f) = true
          <-> (required f = true -> trim (value f) <> [])
              /\ (type f = js "email" -> trim (value f) <> [] ->
                  EmailShape (trim (value f)))) as Hiff.
  { rewrite validateField_verdict, andb_true_iff, !negb_true_iff.
    rewrite <- (str_eqb_eq (type f) (js "email")).
    rewrite <- (truthy_true (trim (value f))).
    rewrite <- (emailRegex_shape (trim (value f))).
    destruct (required f), (truthy (trim (value f))),
      (str_eqb (type f) (js "email")), (test emailRegex (trim (value f)));
      cbn; intuition congruence. }
  split; [| split; [| split; [| split; [exact Hiff |]]]].
  - intros Hr Hv. apply not_true_is_false. intro E.
    apply Hiff in E. destruct E as [E _]. elim (E Hr Hv).
  - intros Ht Hv Hs. apply not_true_is_false. intro E.
    apply Hiff in E. destruct E as [_ E]. elim (Hs (E Ht Hv)).
  - intros Ht Hs. apply Hiff. split.
    + intros _. apply EmailShape_nonempty. exact Hs.
    + intros _ _. exact Hs.
  - split; reflexivity.
Qed.

Lemma validateField_required_and_email_witness :
  fst (validateField blankName) = false
  /\ fst (validateField badEmail) = false
  /\ fst (validateField goodEmail) = true.
Proof.
  split; [| split].
  - apply (proj1 (validateField_required_and_email blankName));
      reflexivity.
  - apply (proj1 (proj2 (validateField_required_and_email badEmail))).
    + reflexivity.
    + discriminate.
    + rewrite <- emailRegex_shape. discriminate.
  - apply (proj1 (proj2 (proj2 (validateField_required_and_email goodEmail)))).
    + reflexivity.
    + apply emailRegex_shape. reflexivity.
Defined.

(** C8, as stated, fails: an optional email field left empty is
    accepted although the empty string does not have the shape, and
    [a@b.co] between two spaces is accepted although that string does
    not have it either. *)
Lemma email_field_accepts_other_strings :
  (type emptyOptionalEmail = js "email"
   /\ ~ EmailShape (value emptyOptionalEmail)
   /\ fst (validateField emptyOptionalEmail) = true)
  /\ (type paddedEmail = js "email"
      /\ ~ EmailShape (value paddedEmail)
      /\ fst (validateField paddedEmail) = true).
Proof.
  split; (split; [reflexivity | split; [| reflexivity]]);
    rewrite <- emailRegex_shape; discriminate.
Qed.

(** * Part III: the rest of the script *)

(** ** Clamping *)

(** X1: with [min <= max], [utils.clamp] returns a value in
    [[min, max]], returns the value itself when it is in that range and
    the nearer bound otherwise, and clamping twice is clamping once;
    with [max < min] it returns [max] whatever the value. *)
Theorem clamp_range (v lo hi : R) :
  (lo <= hi ->
   lo <= Utils.clamp v lo hi <= hi
   /\ (lo <= v <= hi -> Utils.clamp v lo hi = v)
   /\ (v <= lo -> Utils.clamp v lo hi = lo)
   /\ (hi <= v -> Utils.clamp v lo hi = hi)
   /\ Utils.clamp (Utils.clamp v lo hi) lo hi = Utils.clamp v lo hi)
  /\ (hi < lo -> Utils.clamp v lo hi = hi).
Proof.
  unfold Utils.clamp, Rmin, Rmax.
  split; intro H; repeat split; intros;
    repeat (destruct (Rle_dec _ _)); lra.
Qed.

Lemma clamp_range_witness :
  0 <= Utils.clamp 7 0 1 <= 1 /\ Utils.clamp 7 1 0 = 0.
Proof.
  split.
  - apply (proj1 (clamp_range 7 0 1)). lra.
  - apply (proj2 (clamp_range 7 1 0)). lra.
Defined.

(** ** Scrolling *)

Lemma spansMark_spec (s : Section) : reflect (holdsMark s) (spansMark s).
Proof.
  unfold holdsMark, spansMark.
  destruct (leb_spec (section_top s) 100),
    (geb_spec (section_bottom s) 100); simpl; constructor; lra.
Qed.

Lemma pickSection_none (cur : jsstring) (ss : list Section) :
  Forall (fun t => ~ holdsMark t) ss -> pickSection cur ss = cur.
Proof.
  revert cur. induction ss as [|t ss IH]; intros cur H; [reflexivity |].
  inversion H as [| ? ? Ht Hss]; subst. cbn [pickSection fold_left].
  destruct (spansMark_spec t); [contradiction |]. apply IH. exact Hss.
Qed.

Lemma pickSection_last (cur : jsstring) (pre post : list Section)
  (s : Section) :
  holdsMark s -> Forall (fun t => ~ holdsMark t) post ->
  pickSection cur (pre ++ s :: post) = section_id s.
Proof.
  intros Hs Hpost. unfold pickSection.
  rewrite fold_left_app. cbn [fold_left].
  destruct (spansMark_spec s); [| contradiction].
  apply (pickSection_none (section_id s) post Hpost).
Qed.

Lemma pointsTo_spec (cur : jsstring) (l : NavLink) :
  pointsTo cur l = true <-> href l = Some (35%N :: cur).
Proof.
  unfold pointsTo. destruct (href l) as [h|].
  - rewrite str_eqb_eq.
    split; [intros ->; reflexivity | intro H; injection H; auto].
  - split; discriminate.
Qed.

(** X5: after [updateActiveNav] a navigation link is active exactly
    when its [href] is [#] followed by the id of the last section, in
    document order, whose rectangle holds the line 100 px below the top
    of the viewport; when no section holds it, exactly the links whose
    [href] is the bare [#] are active.  The flags the links had before
    play no part, and no [href] changes. *)
Theorem active_link_follows_last_section (p : ScrollPage) :
  List.map href (navLinks (updateActiveNav p)) = List.map href (navLinks p)
  /\ (forall pre s post,
        sections p = pre ++ s :: post -> holdsMark s ->
        Forall (fun t => ~ holdsMark t) post ->
        Forall (fun l => active l = true
                         <-> href l = Some (35%N :: section_id s))
          (navLinks (updateActiveNav p)))
  /\ (Forall (fun t => ~ holdsMark t) (sections p) ->
      Forall (fun l => active l = true <-> href l = Some [35%N])
        (navLinks (updateActiveNav p))).
Proof.
  unfold updateActiveNav; cbn [navLinks].
  split; [rewrite map_map; reflexivity |].
  split.
  - intros pre s post E Hs Hpost.
    change (currentSection (sections p)) with (pickSection [] (sections p)).
    rewrite E, (pickSection_last [] pre post s Hs Hpost).
    apply Forall_map, Forall_forall. intros l _. cbn [active href].
    apply pointsTo_spec.
  - intro Hnone.
    change (currentSection (sections p)) with (pickSection [] (sections p)).
    rewrite (pickSection_none [] (sections p) Hnone).
    apply Forall_map, Forall_forall. intros l _. cbn [active href].
    apply pointsTo_spec.
Qed.

Lemma active_link_follows_last_section_witness :
  Forall (fun l => active l = true
                   <-> href l = Some (35%N :: section_id aboutSection))
    (navLinks (updateActiveNav scrolledPage)).
Proof.
  apply (proj1 (proj2 (active_link_follows_last_section scrolledPage))
           [homeSection] aboutSection [workSection]).
  - reflexivity.
  - unfold holdsMark, aboutSection; cbn [section_top section_bottom]. lra.
  - constructor; [| constructor].
    unfold holdsMark, workSection; cbn [section_top section_bottom]. lra.
Defined.

Lemma parallax_nth (sy : R) (els : list (option R)) (k i : nat) :
  (i < List.length els)%nat ->
  nth_error (parallax sy k els) i
  = Some (Some (- (sy * (0.5 + INR (k + i) * 0.1)))).
Proof.
  revert k i. induction els as [|e els IH]; intros k i Hi.
  - inversion Hi.
  - destruct i as [|i]; cbn [parallax nth_error].
    + rewrite Nat.add_0_r. reflexivity.
    + rewrite IH by (simpl in Hi; lia).
      replace (S k + i)%nat with (k + S i)%nat by lia. reflexivity.
Qed.

Lemma parallax_length (sy : R) (els : list (option R)) (k : nat) :
  List.length (parallax sy k els) = List.length els.
Proof.
  revert k. induction els as [|e els IH]; intro k; simpl; [| rewrite IH];
    reflexivity.
Qed.

(** X6: [handleWindowScroll] gives the scroll indicator, when the page
    has one, an opacity in [[0, 1]]: 1 at the top of the page, 0 once
    the page is scrolled by 300 or more, [1 - scrollY / 300] in
    between, and never higher at a lower position; without the element
    nothing is written. *)
Theorem scroll_indicator_fades (y : R) (p : ScrollPage) :
  (indicatorOpacity p = None ->
   indicatorOpacity (handleWindowScroll y p) = None)
  /\ (forall o, indicatorOpacity p = Some o ->
        indicatorOpacity (handleWindowScroll y p)
        = Some (Some (Utils.clamp (1 - y / 300) 0 1)))
  /\ 0 <= Utils.clamp (1 - y / 300) 0 1 <= 1
  /\ (y <= 0 -> Utils.clamp (1 - y / 300) 0 1 = 1)
  /\ (300 <= y -> Utils.clamp (1 - y / 300) 0 1 = 0)
  /\ (0 <= y <= 300 -> Utils.clamp (1 - y / 300) 0 1 = 1 - y / 300)
  /\ (forall y', y <= y' ->
        Utils.clamp (1 - y' / 300) 0 1 <= Utils.clamp (1 - y / 300) 0 1).
Proof.
  unfold handleWindowScroll, handleScrollAnimations, updateActiveNav.
  cbn [indicatorOpacity scrollY].
  split; [intros ->; reflexivity |].
  split; [intros o ->; reflexivity |].
  unfold Utils.clamp, Rmin, Rmax.
  repeat split; intros;
    repeat (destruct (Rle_dec _ _)); lra.
Qed.

Lemma scroll_indicator_fades_witness :
  indicatorOpacity (handleWindowScroll 150 scrolledPage)
  = Some (Some (Utils.clamp (1 - 150 / 300) 0 1))
  /\ Utils.clamp (1 - 150 / 300) 0 1 = 1 - 150 / 300
  /\ Utils.clamp (1 - 400 / 300) 0 1 <= Utils.clamp (1 - 150 / 300) 0 1.
Proof.
  destruct (scroll_indicator_fades 150 scrolledPage)
    as (_ & A & _ & _ & _ & B & C).
  split; [apply (A None); reflexivity |].
  split; [apply B; lra | apply C; lra].
Defined.

(** X7: [handleWindowScroll] records the offset in [STATE.scrollY],
    marks the navigation bar as scrolled exactly when the offset is
    above 50, and translates the floating element of index [i] up by
    the offset times [0.5 + 0.1 i], for every floating element; the
    sections and the number of links and floating elements are as
    before. *)
Theorem scroll_updates_navbar_and_parallax (y : R) (p : ScrollPage) :
  let p' := handleWindowScroll y p in
  scrollY p' = y
  /\ (navbarScrolled p = None -> navbarScrolled p' = None)
  /\ (forall b, navbarScrolled p = Some b ->
        exists b', navbarScrolled p' = Some b' /\ (b' = true <-> 50 < y))
  /\ sections p' = sections p
  /\ List.length (navLinks p') = List.length (navLinks p)
  /\ List.length (floatingY p') = List.length (floatingY p)
  /\ (forall i, (i < List.length (floatingY p))%nat ->
        nth_error (floatingY p') i
        = Some (Some (- (y * (0.5 + INR i * 0.1))))).
Proof.
  unfold handleWindowScroll, handleScrollAnimations, updateActiveNav.
  cbn [scrollY navbarScrolled sections navLinks floatingY].
  split; [reflexivity |].
  split; [intros ->; reflexivity |].
  split.
  { intros b ->. exists (Num.ltb 50 y). split; [reflexivity |].
    destruct (ltb_spec 50 y); split; intro; auto; discriminate. }
  split; [reflexivity |].
  split; [apply length_map |].
  split; [apply parallax_length |].
  intros i Hi. rewrite parallax_nth by exact Hi. reflexivity.
Qed.

Lemma scroll_updates_navbar_and_parallax_witness :
  (exists b', navbarScrolled (handleWindowScroll 120 scrolledPage)
              = Some b' /\ (b' = true <-> 50 < 120))
  /\ nth_error (floatingY (handleWindowScroll 120 scrolledPage)) 2
     = Some (Some (- (120 * (0.5 + INR 2 * 0.1)))).
Proof.
  destruct (scroll_updates_navbar_and_parallax 120 scrolledPage)
    as (_ & _ & A & _ & _ & _ & B).
  split; [apply (A false); reflexivity |].
  apply B. cbn. lia.
Defined.

(** ** Mobile menu and window resize *)

Lemma toggleMobileMenu_consistent (m : MenuPage) :
  menuConsistent (toggleMobileMenu m).
Proof.
  unfold menuConsistent, toggleMobileMenu;
    cbn [isMobileMenuOpen toggleActive mobileNavActive bodyOverflow].
  repeat split.
  - intros b H. destruct (toggleActive m); [injection H; auto | discriminate].
  - intros b H.
    destruct (mobileNavActive m); [injection H; auto | discriminate].
Qed.

Lemma toggleMobileMenu_twice (m : MenuPage) :
  menuConsistent m -> toggleMobileMenu (toggleMobileMenu m) = m.
Proof.
  intros (Ht & Hn & Ho). destruct m as [o t n ov].
  cbn [isMobileMenuOpen toggleActive mobileNavActive bodyOverflow] in *.
  unfold toggleMobileMenu.
  cbn [isMobileMenuOpen toggleActive mobileNavActive bodyOverflow].
  rewrite negb_involutive, <- Ho.
  f_equal.
  - destruct t as [b|]; [rewrite (Ht b eq_refl) |]; reflexivity.
  - destruct n as [b|]; [rewrite (Hn b eq_refl) |]; reflexivity.
Qed.

(** X8: [toggleMobileMenu] flips [STATE.isMobileMenuOpen] and leaves
    the page in agreement with it whatever the page was before: the
    [active] class of the toggle and of the navigation, where these
    elements exist, and the body's [overflow] ([hidden] when open,
    empty when closed).  An element that is missing stays missing.  On a
    page that agrees with the flag two calls give the page back. *)
Theorem mobile_menu_toggle (m : MenuPage) :
  isMobileMenuOpen (toggleMobileMenu m) = negb (isMobileMenuOpen m)
  /\ menuConsistent (toggleMobileMenu m)
  /\ (toggleActive m = None -> toggleActive (toggleMobileMenu m) = None)
  /\ (mobileNavActive m = None ->
      mobileNavActive (toggleMobileMenu m) = None)
  /\ (menuConsistent m -> toggleMobileMenu (toggleMobileMenu m) = m)
  /\ toggleMobileMenu (toggleMobileMenu (toggleMobileMenu m))
     = toggleMobileMenu m.
Proof.
  split; [reflexivity |].
  split; [apply toggleMobileMenu_consistent |].
  split; [unfold toggleMobileMenu; cbn; intros ->; reflexivity |].
  split; [unfold toggleMobileMenu; cbn; intros ->; reflexivity |].
  split; [apply toggleMobileMenu_twice |].
  apply toggleMobileMenu_twice, toggleMobileMenu_consistent.
Qed.

Lemma mobile_menu_toggle_witness :
  toggleMobileMenu (toggleMobileMenu openMenu) = openMenu.
Proof.
  apply (proj1 (proj2 (proj2 (proj2 (proj2 (mobile_menu_toggle openMenu)))))).
  unfold menuConsistent, openMenu; cbn.
  repeat split; intros b H; injection H; auto.
Defined.

(** X9: [handleWindowResize] on a window wider than 768 shows the
    cursor element and closes the mobile menu when it was open, through
    [toggleMobileMenu], so that the menu is closed afterwards in every
    case; on a window of width 768 or less it hides the cursor element
    and leaves the menu as it is.  A page without a cursor element
    stays without one. *)
Theorem resize_closes_menu_when_wide (p : ResizePage) :
  (768 < vp_innerWidth (viewport p) ->
   isMobileMenuOpen (menu (handleWindowResize p)) = false
   /\ (isMobileMenuOpen (menu p) = true ->
       menu (handleWindowResize p) = toggleMobileMenu (menu p))
   /\ (isMobileMenuOpen (menu p) = false ->
       menu (handleWindowResize p) = menu p)
   /\ (forall d, cursorDisplay p = Some d ->
         cursorDisplay (handleWindowResize p) = Some (js "block")))
  /\ (vp_innerWidth (viewport p) <= 768 ->
      menu (handleWindowResize p) = menu p
      /\ (forall d, cursorDisplay p = Some d ->
            cursorDisplay (handleWindowResize p) = Some (js "none")))
  /\ (cursorDisplay p = None -> cursorDisplay (handleWindowResize p) = None).
Proof.
  unfold handleWindowResize; cbn [menu cursorDisplay].
  split; [| split].
  - intro Hw.
    rewrite (ltb_true 768 _ Hw).
    destruct (leb_spec (vp_innerWidth (viewport p)) 768) as [Hle | _];
      [lra |].
    destruct (isMobileMenuOpen (menu p)) eqn:Ho; cbn [andb].
    + repeat split; try discriminate.
      * unfold toggleMobileMenu; cbn. rewrite Ho. reflexivity.
      * intros d ->. reflexivity.
    + repeat split; try discriminate; auto.
      intros d ->. reflexivity.
  - intro Hn.
    rewrite (ltb_false 768 _) by lra.
    destruct (leb_spec (vp_innerWidth (viewport p)) 768) as [_ | Hgt];
      [| lra].
    split; [reflexivity | intros d ->; reflexivity].
  - intros ->. reflexivity.
Qed.

Lemma resize_closes_menu_when_wide_witness :
  isMobileMenuOpen (menu (handleWindowResize widePage)) = false
  /\ menu (handleWindowResize narrowPage) = menu narrowPage.
Proof.
  split.
  - apply (proj1 (resize_closes_menu_when_wide widePage)).
    unfold widePage, wideWindow; cbn [viewport vp_innerWidth]. lra.
  - apply (proj1 (proj2 (resize_closes_menu_when_wide narrowPage))).
    unfold narrowPage, narrowWindow; cbn [viewport vp_innerWidth]. lra.
Defined.

Lemma or_number_spec (a b : R) :
  (a <> 0 -> or_number a b = a) /\ (a = 0 -> or_number a b = b).
Proof.
  unfold or_number. destruct (Req_dec_T a 0); split; intro; auto;
    contradiction.
Qed.

Lemma isInViewport_spec (v : Viewport) (r : Rect) :
  isInViewport v r = true
  <-> meetsWindow (or_number (vp_innerWidth v) (vp_clientWidth v))
        (or_number (vp_innerHeight v) (vp_clientHeight v)) r.
Proof.
  unfold isInViewport, meetsWindow.
  destruct (leb_spec (rect_top r)
              (or_number (vp_innerHeight v) (vp_clientHeight v))),
    (geb_spec (rect_top r + rect_height r) 0),
    (leb_spec (rect_left r)
       (or_number (vp_innerWidth v) (vp_clientWidth v))),
    (geb_spec (rect_left r + rect_width r) 0);
    simpl; split; intro H; try discriminate; try reflexivity;
    try (repeat split; lra); destruct H as (? & ? & ? & ?); lra.
Qed.

(** X10: [utils.isInViewport] holds exactly when the rectangle starts
    no further down than the window height and no further right than
    the window width and ends at or after the top and the left edge,
    the window size being [innerWidth] x [innerHeight] unless one of
    them is 0, in which case the root element's client size is taken.
    [recalculateAnimations] makes visible the elements for which it
    holds, keeps visible those that were, and changes nothing else, so
    that a second call changes nothing. *)
Theorem recalculate_only_reveals (v : Viewport) (els : list Animated) :
  (forall r,
     isInViewport v r = true
     <-> meetsWindow (or_number (vp_innerWidth v) (vp_clientWidth v))
           (or_number (vp_innerHeight v) (vp_clientHeight v)) r)
  /\ (vp_innerWidth v <> 0 ->
      or_number (vp_innerWidth v) (vp_clientWidth v) = vp_innerWidth v)
  /\ (vp_innerWidth v = 0 ->
      or_number (vp_innerWidth v) (vp_clientWidth v) = vp_clientWidth v)
  /\ (vp_innerHeight v <> 0 ->
      or_number (vp_innerHeight v) (vp_clientHeight v) = vp_innerHeight v)
  /\ (vp_innerHeight v = 0 ->
      or_number (vp_innerHeight v) (vp_clientHeight v) = vp_clientHeight v)
  /\ Forall2
       (fun el el' =>
          anim_rect el' = anim_rect el
          /\ (anim_visible el' = true
              <-> anim_visible el = true
                  \/ isInViewport v (anim_rect el) = true))
       els (recalculateAnimations v els)
  /\ recalculateAnimations v (recalculateAnimations v els)
     = recalculateAnimations v els.
Proof.
  split; [intro r; apply isInViewport_spec |].
  split; [apply or_number_spec |]. split; [apply or_number_spec |].
  split; [apply or_number_spec |]. split; [apply or_number_spec |].
  unfold recalculateAnimations. split.
  - apply Forall2_map_self. intro el.
    destruct (isInViewport v (anim_rect el)) eqn:E; cbn.
    + split; [reflexivity | tauto].
    + split; [reflexivity |]. split; [tauto | intros [H | H]; congruence].
  - rewrite map_map. apply map_ext. intro el.
    destruct (isInViewport v (anim_rect el)) eqn:E; cbn [anim_rect];
      rewrite E; reflexivity.
Qed.

Lemma recalculate_only_reveals_witness :
  or_number (vp_innerWidth wideWindow) (vp_clientWidth wideWindow)
  = vp_innerWidth wideWindow
  /\ or_number 0 (vp_clientHeight wideWindow) = vp_clientHeight wideWindow.
Proof.
  split.
  - apply (proj1 (proj2 (recalculate_only_reveals wideWindow []))).
    unfold wideWindow; cbn [vp_innerWidth]. lra.
  - apply (proj1 (proj2 (proj2 (proj2 (proj2
             (recalculate_only_reveals (mkViewport 1280 0 1280 800) [])))))).
    reflexivity.
Defined.

(** ** Typing effect *)

Lemma type_types (ts : list jsstring) (i : nat) (c : Z) (shown t : jsstring) :
  nth_error ts i = Some t -> (0 <= c)%Z ->
  (c + 1 < Z.of_nat (List.length t))%Z ->
  type_ ts (mkTyping i c false shown)
  = Normal (mkTyping i (c + 1) false (firstn (Z.to_nat (c + 1)) t), 100%Z).
Proof.
  intros Ht Hc Hlt. unfold type_. cbn [currentTextIndex]. rewrite Ht.
  cbn [deref bind isDeleting currentCharIndex negb andb].
  destruct (Z.eqb_spec (c + 1) (Z.of_nat (List.length t))); [lia |].
  reflexivity.
Qed.

Lemma type_completes_text (ts : list jsstring) (i : nat) (c : Z)
  (shown t : jsstring) :
  nth_error ts i = Some t -> (c + 1 = Z.of_nat (List.length t))%Z ->
  type_ ts (mkTyping i c false shown) = Normal (mkTyping i (c + 1) true t, 2000%Z).
Proof.
  intros Ht Hc. unfold type_. cbn [currentTextIndex]. rewrite Ht.
  cbn [deref bind isDeleting currentCharIndex negb andb].
  rewrite (proj2 (Z.eqb_eq _ _) Hc).
  unfold substring0. rewrite Hc, Nat2Z.id, firstn_all. reflexivity.
Qed.

Lemma type_deletes (ts : list jsstring) (i : nat) (c : Z) (shown t : jsstring) :
  nth_error ts i = Some t -> (1 < c)%Z ->
  type_ ts (mkTyping i c true shown)
  = Normal (mkTyping i (c - 1) true (firstn (Z.to_nat (c - 1)) t), 50%Z).
Proof.
  intros Ht Hc. unfold type_. cbn [currentTextIndex]. rewrite Ht.
  cbn [deref bind isDeleting currentCharIndex negb andb].
  destruct (Z.eqb_spec (c - 1) 0); [lia |].
  reflexivity.
Qed.

Lemma type_empties_text (ts : list jsstring) (i : nat) (shown t : jsstring) :
  nth_error ts i = Some t ->
  type_ ts (mkTyping i 1 true shown)
  = Normal (mkTyping ((i + 1) mod List.length ts) 0 false [], 500%Z).
Proof.
  intro Ht. unfold type_. cbn [currentTextIndex]. rewrite Ht.
  reflexivity.
Qed.

Lemma typeSteps_S (n : nat) (ts : list jsstring) (st : Typing) (e : Z) :
  typeSteps (S n) ts st e
  = bind (type_ ts st) (fun r => typeSteps n ts (fst r) (e + snd r)).
Proof. reflexivity. Qed.

Lemma typeSteps_add (a b : nat) (ts : list jsstring) (st : Typing) (e : Z) :
  typeSteps (a + b) ts st e
  = bind (typeSteps a ts st e) (fun r => typeSteps b ts (fst r) (snd r)).
Proof.
  revert st e. induction a as [|a IH]; intros st e.
  - reflexivity.
  - change (S a + b)%nat with (S (a + b)). rewrite !typeSteps_S.
    destruct (type_ ts st) as [r | err]; [| reflexivity].
    cbn [bind]. apply IH.
Qed.

(** Typing [k] more characters without finishing the text. *)
Lemma typeSteps_typing (ts : list jsstring) (i : nat) (t : jsstring)
  (k : nat) (c : Z) (shown : jsstring) (e : Z) :
  nth_error ts i = Some t -> (0 <= c)%Z ->
  (c + Z.of_nat k < Z.of_nat (List.length t))%Z ->
  typeSteps k ts (mkTyping i c false shown) e
  = Normal
      (mkTyping i (c + Z.of_nat k) false
         (match k with
          | O => shown
          | S _ => firstn (Z.to_nat (c + Z.of_nat k)) t
          end),
       (e + 100 * Z.of_nat k)%Z).
Proof.
  intro Ht. revert c shown e.
  induction k as [|k IH]; intros c shown e Hc Hlt.
  - cbn [typeSteps]. repeat f_equal; lia.
  - rewrite typeSteps_S, (type_types ts i c shown t Ht Hc) by lia.
    cbn [bind fst snd]. rewrite IH by lia.
    replace (c + 1 + Z.of_nat k)%Z with (c + Z.of_nat (S k))%Z by lia.
    replace (e + 100 + 100 * Z.of_nat k)%Z
      with (e + 100 * Z.of_nat (S k))%Z by lia.
    destruct k; [| reflexivity].
    replace (c + Z.of_nat 1)%Z with (c + 1)%Z by lia. reflexivity.
Qed.

(** Deleting [k] characters without emptying the element. *)
Lemma typeSteps_deleting (ts : list jsstring) (i : nat) (t : jsstring)
  (k : nat) (c : Z) (shown : jsstring) (e : Z) :
  nth_error ts i = Some t -> (Z.of_nat k < c)%Z ->
  typeSteps k ts (mkTyping i c true shown) e
  = Normal
      (mkTyping i (c - Z.of_nat k) true
         (match k with
          | O => shown
          | S _ => firstn (Z.to_nat (c - Z.of_nat k)) t
          end),
       (e + 50 * Z.of_nat k)%Z).
Proof.
  intro Ht. revert c shown e.
  induction k as [|k IH]; intros c shown e Hlt.
  - cbn [typeSteps]. repeat f_equal; lia.
  - rewrite typeSteps_S, (type_deletes ts i c shown t Ht) by lia.
    cbn [bind fst snd]. rewrite IH by lia.
    replace (c - 1 - Z.of_nat k)%Z with (c - Z.of_nat (S k))%Z by lia.
    replace (e + 50 + 50 * Z.of_nat k)%Z
      with (e + 50 * Z.of_nat (S k))%Z by lia.
    destruct k; [| reflexivity].
    replace (c - Z.of_nat 1)%Z with (c - 1)%Z by lia. reflexivity.
Qed.

(** From an empty element to the full text: as many calls as the text
    has characters. *)
Lemma typeSteps_write (ts : list jsstring) (i : nat) (t shown : jsstring)
  (e : Z) :
  nth_error ts i = Some t -> t <> [] ->
  typeSteps (List.length t) ts (mkTyping i 0 false shown) e
  = Normal (mkTyping i (Z.of_nat (List.length t)) true t,
            (e + 100 * (Z.of_nat (List.length t) - 1) + 2000)%Z).
Proof.
  intros Ht Hne.
  destruct (List.length t) as [|k] eqn:HL;
    [destruct t; [congruence | discriminate] |].
  replace (S k) with (k + 1)%nat by lia.
  rewrite typeSteps_add, (typeSteps_typing ts i t k 0 shown e Ht)
    by (rewrite ?HL; lia).
  cbn [bind fst snd]. rewrite typeSteps_S.
  rewrite (type_completes_text ts i _ _ t Ht) by (rewrite HL; lia).
  cbn [bind typeSteps fst snd]. repeat f_equal; lia.
Qed.

(** From the full text back to an empty element. *)
Lemma typeSteps_erase (ts : list jsstring) (i : nat) (t shown : jsstring)
  (e : Z) :
  nth_error ts i = Some t -> t <> [] ->
  typeSteps (List.length t) ts
    (mkTyping i (Z.of_nat (List.length t)) true shown) e
  = Normal (mkTyping ((i + 1) mod List.length ts) 0 false [],
            (e + 50 * (Z.of_nat (List.length t) - 1) + 500)%Z).
Proof.
  intros Ht Hne.
  destruct (List.length t) as [|k] eqn:HL;
    [destruct t; [congruence | discriminate] |].
  replace (S k) with (k + 1)%nat at 1 by lia.
  rewrite typeSteps_add, (typeSteps_deleting ts i t k _ shown e Ht) by lia.
  cbn [bind fst snd]. rewrite typeSteps_S.
  replace (Z.of_nat (S k) - Z.of_nat k)%Z with 1%Z by lia.
  rewrite (type_empties_text ts i _ t Ht).
  cbn [bind typeSteps fst snd]. repeat f_equal; lia.
Qed.

Lemma typing_cycle_step (ts : list jsstring) (i : nat)
  (t shown : jsstring) (e : Z) :
  nth_error ts i = Some t -> t <> [] ->
  typeSteps (List.length t) ts (mkTyping i 0 false shown) e
  = Normal (mkTyping i (Z.of_nat (List.length t)) true t,
            (e + 100 * (Z.of_nat (List.length t) - 1) + 2000)%Z)
  /\ typeSteps (List.length t + List.length t) ts
       (mkTyping i 0 false shown) e
     = Normal (mkTyping ((i + 1) mod List.length ts) 0 false [],
               (e + 150 * (Z.of_nat (List.length t) - 1) + 2500)%Z).
Proof.
  intros Ht Hne.
  split; [apply typeSteps_write; assumption |].
  rewrite typeSteps_add, (typeSteps_write ts i t shown e Ht Hne).
  cbn [bind fst snd]. rewrite (typeSteps_erase ts i t t _ Ht Hne).
  do 2 f_equal. lia.
Qed.

(** X11: from an element at the start of a non-empty text of [n]
    characters, [n] calls of [type] show the text in full and switch to
    deleting, after 100 ms per character but the last and 2000 ms for
    the last; [n] more calls empty the element and move to the next
    text, wrapping around at the end of the array, after 50 ms per
    character but the last and 500 ms for the last.  What the element
    showed before the first call plays no part. *)
Theorem typing_writes_then_erases (ts : list jsstring) (i : nat)
  (t shown : jsstring) (e : Z) :
  nth_error ts i = Some t -> t <> [] ->
  let n := List.length t in
  typeSteps n ts (mkTyping i 0 false shown) e
  = Normal (mkTyping i (Z.of_nat n) true t,
            (e + 100 * (Z.of_nat n - 1) + 2000)%Z)
  /\ typeSteps (n + n) ts (mkTyping i 0 false shown) e
     = Normal (mkTyping ((i + 1) mod List.length ts) 0 false [],
               (e + 150 * (Z.of_nat n - 1) + 2500)%Z).
Proof.
  intros Ht Hne n. subst n.
  exact (typing_cycle_step ts i t shown e Ht Hne).
Qed.

Lemma typing_writes_then_erases_witness :
  typeSteps 14 texts (mkTyping 3 0 false []) 0
  = Normal (mkTyping 3 14 true (js "Problem Solver"), 3300%Z)
  /\ typeSteps 28 texts (mkTyping 3 0 false []) 0
     = Normal (mkTyping 0 0 false [], 4450%Z).
Proof.
  apply (typing_writes_then_erases texts 3 (js "Problem Solver") [] 0).
  - reflexivity.
  - discriminate.
Defined.

Lemma type_sound (ts : list jsstring) (st : Typing) :
  Forall (fun t => t <> []) ts -> typingSound ts st ->
  exists st' d, type_ ts st = Normal (st', d) /\ typingSound ts st'
                /\ In d [100; 50; 2000; 500]%Z.
Proof.
  intros Hne (t & Ht & Hc & Hshown & Hw & Hd).
  destruct st as [i c del shown].
  cbn [currentTextIndex currentCharIndex isDeleting textContent] in *.
  assert (t <> []) as Htne
    by (apply (proj1 (Forall_forall _ _) Hne t), (nth_error_In _ _ Ht)).
  assert (0 < Z.of_nat (List.length t))%Z as HL
    by (destruct t; [congruence | cbn [List.length]; lia]).
  destruct del.
  - specialize (Hd eq_refl).
    destruct (Z.eq_dec c 1) as [-> | Hc1].
    + rewrite (type_empties_text ts i shown t Ht).
      assert (i < List.length ts)%nat as Hi
        by (apply nth_error_Some; congruence).
      assert ((i + 1) mod List.length ts < List.length ts)%nat as Hm
        by (apply Nat.mod_upper_bound; lia).
      destruct (nth_error ts ((i + 1) mod List.length ts)) as [t'|] eqn:Ht';
        [| apply nth_error_None in Ht'; lia].
      assert (t' <> []) as Ht'ne
        by (apply (proj1 (Forall_forall _ _) Hne t'), (nth_error_In _ _ Ht')).
      do 2 eexists. split; [reflexivity |]. split.
      * exists t'.
        cbn [currentTextIndex currentCharIndex isDeleting textContent].
        split; [exact Ht' |]. split; [lia |]. split; [reflexivity |].
        split; [| discriminate].
        intros _. destruct t'; [congruence | cbn [List.length]; lia].
      * cbn; tauto.
    + rewrite (type_deletes ts i c shown t Ht) by lia.
      do 2 eexists. split; [reflexivity |]. split.
      * exists t.
        cbn [currentTextIndex currentCharIndex isDeleting textContent].
        split; [exact Ht |]. split; [lia |]. split; [reflexivity |].
        split; [discriminate | lia].
      * cbn; tauto.
  - specialize (Hw eq_refl).
    destruct (Z.eq_dec (c + 1) (Z.of_nat (List.length t))) as [Hfull | Hpart].
    + rewrite (type_completes_text ts i c shown t Ht Hfull).
      do 2 eexists. split; [reflexivity |]. split.
      * exists t.
        cbn [currentTextIndex currentCharIndex isDeleting textContent].
        split; [exact Ht |]. split; [lia |].
        split; [rewrite Hfull, Nat2Z.id, firstn_all; reflexivity |].
        split; [discriminate | lia].
      * cbn; tauto.
    + rewrite (type_types ts i c shown t Ht) by lia.
      do 2 eexists. split; [reflexivity |]. split.
      * exists t.
        cbn [currentTextIndex currentCharIndex isDeleting textContent].
        split; [exact Ht |]. split; [lia |]. split; [reflexivity |].
        split; [lia | discriminate].
      * cbn; tauto.
Qed.

Lemma typeSteps_sound (n : nat) (ts : list jsstring) (st : Typing) (e : Z) :
  Forall (fun t => t <> []) ts -> typingSound ts st ->
  exists st' e', typeSteps n ts st e = Normal (st', e')
                 /\ typingSound ts st' /\ (e + 50 * Z.of_nat n <= e')%Z.
Proof.
  intro Hne. revert st e. induction n as [|n IH]; intros st e Hs.
  - exists st, e. split; [reflexivity |]. split; [exact Hs | lia].
  - destruct (type_sound ts st Hne Hs) as (st1 & d & E1 & S1 & Hd).
    rewrite typeSteps_S, E1. cbn [bind fst snd].
    destruct (IH st1 (e + d)%Z S1) as (st2 & e2 & E2 & S2 & Hle).
    exists st2, e2. split; [exact E2 |]. split; [exact S2 |].
    cbn [In] in Hd. lia.
Qed.

(** The call that follows [k] calls completes and passes one of the
    four delays to [setTimeout]. *)
Lemma typeSteps_next (k : nat) (ts : list jsstring) (st : Typing) (e : Z) :
  Forall (fun t => t <> []) ts -> typingSound ts st ->
  exists stk ek st' d,
    typeSteps k ts st e = Normal (stk, ek)
    /\ type_ ts stk = Normal (st', d)
    /\ In d [100; 50; 2000; 500]%Z
    /\ typeSteps (S k) ts st e = Normal (st', (ek + d)%Z).
Proof.
  intros Hne Hs.
  destruct (typeSteps_sound k ts st e Hne Hs) as (stk & ek & Ek & Sk & _).
  destruct (type_sound ts stk Hne Sk) as (st' & d & E' & _ & Hd).
  exists stk, ek, st', d.
  split; [exact Ek |]. split; [exact E' |]. split; [exact Hd |].
  replace (S k) with (k + 1)%nat by lia.
  rewrite typeSteps_add, Ek. cbn [bind fst snd].
  rewrite typeSteps_S, E'. reflexivity.
Qed.

(** X12: over an array of non-empty texts the typing loop never
    throws, and after each call, whatever the element showed at the
    start, the element shows the first [currentCharIndex] characters of
    the current text, with [currentCharIndex] between 0 and the length
    of that text, below the length while typing and above 0 while
    deleting; every call passes a delay of 100, 50, 2000 or 500 ms to
    [setTimeout], so successive calls are at least 50 ms apart. *)
Theorem typing_shows_prefix (n : nat) (ts : list jsstring)
  (shown : jsstring) :
  ts <> [] -> Forall (fun t => t <> []) ts ->
  (exists st e,
     typeSteps (S n) ts (typingStart shown) 0 = Normal (st, e)
     /\ typingSound ts st /\ (50 * Z.of_nat n < e)%Z)
  /\ (forall k, (k <= n)%nat ->
      exists stk ek st' d,
        typeSteps k ts (typingStart shown) 0 = Normal (stk, ek)
        /\ type_ ts stk = Normal (st', d)
        /\ In d [100; 50; 2000; 500]%Z
        /\ typeSteps (S k) ts (typingStart shown) 0
           = Normal (st', (ek + d)%Z)).
Proof.
  intros Hts Hne.
  destruct ts as [|t ts']; [congruence |].
  assert (t <> []) as Htne by (inversion Hne; assumption).
  assert (typingSound (t :: ts') (typingStart [])) as Hs0.
  { exists t. cbn. split; [reflexivity |]. split; [lia |].
    split; [reflexivity |]. split; [| discriminate].
    intros _. destruct t; [congruence | cbn [List.length]; lia]. }
  destruct (type_sound (t :: ts') (typingStart []) Hne Hs0)
    as (st1 & d & E1 & S1 & Hd).
  assert (type_ (t :: ts') (typingStart shown) = Normal (st1, d)) as E1'.
  { revert E1. unfold type_, typingStart. cbn. auto. }
  split.
  - rewrite typeSteps_S, E1'. cbn [bind fst snd].
    destruct (typeSteps_sound n (t :: ts') st1 (0 + d)%Z Hne S1)
      as (st2 & e2 & E2 & S2 & Hle).
    exists st2, e2. split; [exact E2 |]. split; [exact S2 |].
    cbn [In] in Hd. lia.
  - intros [|k] _.
    + exists (typingStart shown), 0%Z, st1, d.
      split; [reflexivity |]. split; [exact E1' |]. split; [exact Hd |].
      rewrite typeSteps_S, E1'. reflexivity.
    + destruct (typeSteps_next k (t :: ts') st1 (0 + d)%Z Hne S1)
        as (stk & ek & st' & d' & Ek & E' & Hd' & Enext).
      exists stk, ek, st', d'.
      split; [rewrite typeSteps_S, E1'; exact Ek |].
      split; [exact E' |]. split; [exact Hd' |].
      rewrite typeSteps_S, E1'. exact Enext.
Qed.

Lemma typing_shows_prefix_witness :
  (exists st e,
     typeSteps 30 texts (typingStart (js "Developer")) 0 = Normal (st, e)
     /\ typingSound texts st /\ (50 * Z.of_nat 29 < e)%Z)
  /\ (exists stk ek st' d,
        typeSteps 20 texts (typingStart (js "Developer")) 0
        = Normal (stk, ek)
        /\ type_ texts stk = Normal (st', d)
        /\ In d [100; 50; 2000; 500]%Z
        /\ typeSteps 21 texts (typingStart (js "Developer")) 0
           = Normal (st', (ek + d)%Z)).
Proof.
  assert (texts <> []) as H1 by discriminate.
  assert (Forall (fun t : jsstring => t <> []) texts) as H2
    by (repeat constructor; discriminate).
  split.
  - exact (proj1 (typing_shows_prefix 29 texts (js "Developer") H1 H2)).
  - apply (proj2 (typing_shows_prefix 29 texts (js "Developer") H1 H2) 20%nat).
    lia.
Defined.

Lemma typeSteps_cycle (suffix pre : list jsstring) (shown : jsstring)
  (e : Z) :
  suffix <> [] -> Forall (fun t => t <> []) suffix ->
  typeSteps (cycleCalls suffix) (pre ++ suffix)
    (mkTyping (List.length pre) 0 false shown) e
  = Normal (mkTyping 0 0 false [], (e + cycleTime suffix)%Z).
Proof.
  revert pre shown e.
  induction suffix as [|t rest IH]; intros pre shown e Hs Hne;
    [congruence |].
  inversion Hne as [| ? ? Ht Hrest]; subst.
  assert (nth_error (pre ++ t :: rest) (List.length pre) = Some t) as Hnth
    by (rewrite nth_error_app2, Nat.sub_diag by lia; reflexivity).
  cbn [cycleCalls cycleTime fold_right].
  fold (cycleCalls rest). fold (cycleTime rest).
  rewrite typeSteps_add.
  rewrite (proj2 (typing_cycle_step (pre ++ t :: rest) (List.length pre)
                    t shown e Hnth Ht)).
  cbn [bind fst snd].
  destruct rest as [|t' rest'].
  - rewrite length_app. cbn [List.length].
    replace (List.length pre + 1)%nat with (List.length pre + 1)%nat by lia.
    rewrite Nat.Div0.mod_same.
    cbn [cycleCalls cycleTime fold_right typeSteps].
    do 2 f_equal. lia.
  - rewrite Nat.mod_small by (rewrite length_app; cbn [List.length]; lia).
    specialize (IH (pre ++ [t]) [] (e + 150 * (Z.of_nat (List.length t) - 1)
                                    + 2500)%Z).
    rewrite <- app_assoc, length_app in IH. cbn [app List.length] in IH.
    rewrite IH by (try discriminate; assumption).
    do 2 f_equal. lia.
Qed.

(** X13: over a non-empty array of non-empty texts the typing loop is
    periodic: from its start state, two calls per character of every
    text bring it back to the first text with an empty element, after
    150 ms per character and 2350 ms more per text, and so again after
    any number of such rounds. *)
Theorem typing_loop_is_periodic (k : nat) (ts : list jsstring)
  (shown : jsstring) :
  ts <> [] -> Forall (fun t => t <> []) ts ->
  typeSteps (S k * cycleCalls ts) ts (typingStart shown) 0
  = Normal (typingStart [], (Z.of_nat (S k) * cycleTime ts)%Z).
Proof.
  intros Hts Hne.
  assert (forall shown' e,
            typeSteps (cycleCalls ts) ts (typingStart shown') e
            = Normal (typingStart [], (e + cycleTime ts)%Z)) as Hround
    by (intros shown' e; exact (typeSteps_cycle ts [] shown' e Hts Hne)).
  induction k as [|k IH].
  - rewrite Nat.mul_1_l, Hround. do 2 f_equal. lia.
  - replace (S (S k) * cycleCalls ts)%nat
      with (S k * cycleCalls ts + cycleCalls ts)%nat by lia.
    rewrite typeSteps_add, IH. cbn [bind fst snd].
    rewrite Hround. do 2 f_equal. lia.
Qed.

Lemma typing_loop_is_periodic_witness :
  typeSteps 124 texts (typingStart (js "Developer")) 0
  = Normal (typingStart [], 18700%Z).
Proof.
  apply (typing_loop_is_periodic 0 texts (js "Developer")).
  - discriminate.
  - repeat constructor; discriminate.
Defined.

(** ** Form submission *)

Lemma validateForm_shape (fs : list (Field * jsstring)) :
  Forall2
    (fun i o =>
       snd o = snd i
       /\ fst o = (if required (fst i) then snd (validateField (fst i))
                   else fst i))
    fs (snd (validateForm fs))
  /\ (fst (validateForm fs) = true
      <-> Forall
            (fun i => required (fst i) = true ->
                      fst (validateField (fst i)) = true) fs).
Proof.
  induction fs as [|[f d] rest [IHs IHv]].
  - split; [constructor | split; [constructor | reflexivity]].
  - cbn [validateForm]. destruct (required f) eqn:Hr.
    + destruct (validateField f) as [ok f'] eqn:Hf.
      destruct (validateForm rest) as [okRest rest'].
      cbn [fst snd] in *. split.
      * constructor; [| exact IHs]. cbn [fst snd]. rewrite Hr, Hf.
        split; reflexivity.
      * rewrite andb_true_iff, IHv. split.
        -- intros [Hok Hrest]. constructor; [| exact Hrest].
           cbn [fst]. rewrite Hf. auto.
        -- intro H. inversion H as [| ? ? Hh Ht]; subst.
           cbn [fst] in Hh. rewrite Hf in Hh. auto.
    + destruct (validateForm rest) as [okRest rest'].
      cbn [fst snd] in *. split.
      * constructor; [| exact IHs]. cbn [fst snd]. rewrite Hr.
        split; reflexivity.
      * rewrite IHv. split.
        -- intro Hrest. constructor; [| exact Hrest].
           cbn [fst]. rewrite Hr. discriminate.
        -- intro H. inversion H; assumption.
Qed.

(** [validateField] writes no attribute of the field but the border
    colour, which it empties for an accepted field and makes red for a
    rejected one. *)
Lemma validateField_border (f : Field) :
  value (snd (validateField f)) = value f
  /\ required (snd (validateField f)) = required f
  /\ type (snd (validateField f)) = type f
  /\ (fst (validateField f) = true -> borderColor (snd (validateField f)) = [])
  /\ (fst (validateField f) = false ->
      borderColor (snd (validateField f)) = js "#dc2626").
Proof.
  unfold validateField, clearFieldError, showFieldError.
  cbn [value required type].
  destruct (required f && negb (truthy (trim (value f))));
    destruct (str_eqb (type f) (js "email") && truthy (trim (value f)));
    try destruct (negb (test emailRegex (trim (value f))));
    cbn [negb fst snd value required type borderColor];
    repeat split; intro H; try reflexivity; discriminate H.
Qed.

(** X14: [validateForm] accepts the form exactly when every required
    input is accepted by [validateField].  It leaves the value, the
    [required] attribute, the type and the default value of every input
    as they were; the border colour of every required input, also of
    those after a rejected one, is the one [validateField] leaves:
    empty for an accepted input, [#dc2626] for a rejected one; and the
    border colour of an optional input is untouched, whatever the input
    holds. *)
Theorem validateForm_checks_required_only (fs : list (Field * jsstring)) :
  (fst (validateForm fs) = true
   <-> Forall
         (fun i => required (fst i) = true ->
                   fst (validateField (fst i)) = true) fs)
  /\ Forall2
       (fun i o =>
          snd o = snd i
          /\ value (fst o) = value (fst i)
          /\ required (fst o) = required (fst i)
          /\ type (fst o) = type (fst i)
          /\ (required (fst i) = true ->
              borderColor (fst o)
              = borderColor (snd (validateField (fst i)))
              /\ (fst (validateField (fst i)) = true ->
                  borderColor (fst o) = [])
              /\ (fst (validateField (fst i)) = false ->
                  borderColor (fst o) = js "#dc2626"))
          /\ (required (fst i) = false ->
              borderColor (fst o) = borderColor (fst i)))
       fs (snd (validateForm fs)).
Proof.
  destruct (validateForm_shape fs) as [Hs Hv].
  split; [exact Hv |].
  revert Hs. apply Forall2_impl. intros i o [Hd Hf].
  destruct (validateField_border (fst i)) as (Vv & Vr & Vt & Va & Vb).
  split; [exact Hd |].
  destruct (required (fst i)) eqn:Hr; rewrite Hf.
  - split; [exact Vv |]. split; [exact Vr |].
    split; [exact Vt |].
    split; [intros _; split; [reflexivity | split; assumption]
           | discriminate].
  - split; [reflexivity |]. split; [exact Hr |]. split; [reflexivity |].
    split; [discriminate | reflexivity].
Qed.

Lemma validateForm_checks_required_only_witness :
  fst (validateForm (inputs readyForm)) = true.
Proof.
  apply (proj1 (validateForm_checks_required_only (inputs readyForm))).
  constructor; [reflexivity |].
  constructor; [discriminate | constructor].
Defined.

(** X15: [handleFormSubmit] on a form that [validateForm] rejects
    completes with the inputs as [validateForm] leaves them, the button
    untouched and no timer started; on an accepted form with a submit
    button it puts the button in the loading, disabled state and
    starts one timer; on an accepted form without a submit button it
    throws a [TypeError]. *)
Theorem submit_blocks_invalid_form (p : FormPage) :
  (fst (validateForm (inputs p)) = false ->
   handleFormSubmit p
   = Normal (mkFormPage (snd (validateForm (inputs p))) (submitBtn p)
               (successDiv p) (nextDiv p) (submitTimers p)
               (removalTimers p)))
  /\ (fst (validateForm (inputs p)) = true ->
      forall b, submitBtn p = Some b ->
      handleFormSubmit p
      = Normal (mkFormPage (snd (validateForm (inputs p)))
                  (Some (mkButton true true)) (successDiv p) (nextDiv p)
                  (S (submitTimers p)) (removalTimers p)))
  /\ (fst (validateForm (inputs p)) = true -> submitBtn p = None ->
      handleFormSubmit p = Throw (js "TypeError")).
Proof.
  unfold handleFormSubmit.
  destruct (validateForm (inputs p)) as [ok fs]. cbn [fst snd].
  split; [intros ->; reflexivity |].
  split.
  - intros -> b ->. reflexivity.
  - intros -> ->. reflexivity.
Qed.

Lemma submit_blocks_invalid_form_witness :
  handleFormSubmit blankForm
  = Normal (mkFormPage (snd (validateForm (inputs blankForm)))
              (submitBtn blankForm) (successDiv blankForm)
              (nextDiv blankForm) (submitTimers blankForm)
              (removalTimers blankForm))
  /\ handleFormSubmit readyForm
     = Normal (mkFormPage (snd (validateForm (inputs readyForm)))
                 (Some (mkButton true true)) (successDiv readyForm)
                 (nextDiv readyForm) (S (submitTimers readyForm))
                 (removalTimers readyForm))
  /\ handleFormSubmit buttonlessForm = Throw (js "TypeError").
Proof.
  split; [| split].
  - apply (proj1 (submit_blocks_invalid_form blankForm)). reflexivity.
  - apply (proj1 (proj2 (submit_blocks_invalid_form readyForm))
             eq_refl (mkButton false false)). reflexivity.
  - apply (proj2 (proj2 (submit_blocks_invalid_form buttonlessForm)));
      reflexivity.
Defined.

Lemma resetForm_values (fs : list (Field * jsstring)) :
  Forall2
    (fun i o =>
       value (fst o) = snd i /\ snd o = snd i
       /\ required (fst o) = required (fst i)
       /\ type (fst o) = type (fst i)
       /\ borderColor (fst o) = borderColor (fst i)
       /\ errorDiv (fst o) = errorDiv (fst i))
    fs (resetForm fs).
Proof.
  unfold resetForm. induction fs as [|[f d] rest IH]; cbn [List.map];
    constructor; [cbn; repeat split | exact IH].
Qed.

(** X16: when the timer of an accepted submission fires, the button
    leaves the loading state and is enabled, the success message is
    shown in the existing [.success-message] element or in a new one,
    one removal timer is started for that element, and every input
    takes its default value while keeping its border and error
    message.  When that removal timer fires the message is gone. *)
Theorem submission_completes (p : FormPage) (b : Button) :
  submitBtn p = Some b ->
  exists p' div,
    submitTimeout p = Normal p'
    /\ submitBtn p' = Some (mkButton false false)
    /\ successDiv p' = Some (div, successText)
    /\ (forall id text, successDiv p = Some (id, text) -> div = id)
    /\ (successDiv p = None -> div = nextDiv p)
    /\ removalTimers p' = removalTimers p ++ [div]
    /\ submitTimers p' = pred (submitTimers p)
    /\ Forall2
         (fun i o =>
            value (fst o) = snd i /\ snd o = snd i
            /\ required (fst o) = required (fst i)
            /\ type (fst o) = type (fst i)
            /\ borderColor (fst o) = borderColor (fst i)
            /\ errorDiv (fst o) = errorDiv (fst i))
         (inputs p) (inputs p')
    /\ successDiv (removalTimeout div p') = None.
Proof.
  intro Hb. unfold submitTimeout, setFormLoading. rewrite Hb.
  cbn [deref bind]. unfold showFormSuccess.
  cbn [successDiv nextDiv inputs submitBtn submitTimers removalTimers].
  destruct (successDiv p) as [[id text]|] eqn:Hd.
  - exists (mkFormPage (resetForm (inputs p)) (Some (mkButton false false))
              (Some (id, successText)) (nextDiv p) (pred (submitTimers p))
              (removalTimers p ++ [id])), id.
    cbn [successDiv nextDiv inputs submitBtn submitTimers removalTimers].
    repeat split; try reflexivity.
    + intros id' text' H. injection H; auto.
    + discriminate.
    + apply resetForm_values.
    + unfold removalTimeout; cbn [successDiv]. rewrite Nat.eqb_refl.
      reflexivity.
  - exists (mkFormPage (resetForm (inputs p)) (Some (mkButton false false))
              (Some (nextDiv p, successText)) (S (nextDiv p))
              (pred (submitTimers p)) (removalTimers p ++ [nextDiv p])),
      (nextDiv p).
    cbn [successDiv nextDiv inputs submitBtn submitTimers removalTimers].
    repeat split; try reflexivity.
    + discriminate.
    + apply resetForm_values.
    + unfold removalTimeout; cbn [successDiv]. rewrite Nat.eqb_refl.
      reflexivity.
Qed.

Lemma submission_completes_witness :
  exists p1 p' div,
    handleFormSubmit readyForm = Normal p1
    /\ submitTimeout p1 = Normal p'
    /\ submitBtn p' = Some (mkButton false false)
    /\ successDiv p' = Some (div, successText)
    /\ successDiv (removalTimeout div p') = None.
Proof.
  eexists.
  destruct (submission_completes
              (mkFormPage (snd (validateForm (inputs readyForm)))
                 (Some (mkButton true true)) (successDiv readyForm)
                 (nextDiv readyForm) (S (submitTimers readyForm))
                 (removalTimers readyForm))
              (mkButton true true) eq_refl)
    as (p' & div & E & B & D & _ & _ & _ & _ & _ & R).
  exists p', div.
  split; [reflexivity |].
  split; [exact E |]. split; [exact B |]. split; [exact D | exact R].
Defined.

Lemma removeTimer_keeps_later (div : nat) (timers : list nat) :
  In div timers -> In div (removeTimer div (timers ++ [div])).
Proof.
  induction timers as [|t rest IH]; intro H; [destruct H |].
  cbn [app removeTimer]. destruct (Nat.eqb_spec t div) as [-> | Hne].
  - apply in_or_app. right. left. reflexivity.
  - right. apply IH. destruct H as [H | H]; [congruence | exact H].
Qed.

(** X17: a success message that is shown again while a removal timer
    of an earlier message is still pending is put in the same element,
    and is removed when the earlier timer fires, while its own timer is
    still pending. *)
Theorem repeated_success_is_cut_short (p : FormPage) (b : Button)
  (div : nat) (text : jsstring) :
  submitBtn p = Some b -> successDiv p = Some (div, text) ->
  In div (removalTimers p) ->
  exists p',
    submitTimeout p = Normal p'
    /\ successDiv p' = Some (div, successText)
    /\ successDiv (removalTimeout div p') = None
    /\ In div (removalTimers (removalTimeout div p')).
Proof.
  intros Hb Hd Hin. unfold submitTimeout, setFormLoading. rewrite Hb.
  cbn [deref bind]. unfold showFormSuccess.
  cbn [successDiv nextDiv inputs submitBtn submitTimers removalTimers].
  rewrite Hd.
  eexists. split; [reflexivity |].
  cbn [successDiv removalTimers].
  split; [reflexivity |].
  unfold removalTimeout. cbn [successDiv removalTimers].
  rewrite Nat.eqb_refl.
  split; [reflexivity | apply removeTimer_keeps_later; exact Hin].
Qed.

Lemma repeated_success_is_cut_short_witness :
  exists p',
    submitTimeout
      (mkFormPage [(nameField, [])] (Some (mkButton true true))
         (Some (0%nat, successText)) 1 1 [0%nat])
    = Normal p'
    /\ successDiv p' = Some (0%nat, successText)
    /\ successDiv (removalTimeout 0 p') = None
    /\ In 0%nat (removalTimers (removalTimeout 0 p')).
Proof.
  apply (repeated_success_is_cut_short _ (mkButton true true) 0%nat
           successText).
  - reflexivity.
  - reflexivity.
  - left. reflexivity.
Defined.

(** ** Magnetic effect *)

Lemma magneticPull_inside (rect : Rect) (cx cy : R) :
  pointerDistance rect cx cy < maxDistance rect ->
  magneticPull rect cx cy
  = Some
      ((cx - (rect_left rect + rect_width rect / 2))
       * ((maxDistance rect - pointerDistance rect cx cy)
          / maxDistance rect) * 0.3,
       (cy - (rect_top rect + rect_height rect / 2))
       * ((maxDistance rect - pointerDistance rect cx cy)
          / maxDistance rect) * 0.3).
Proof.
  intro H. unfold magneticPull.
  change (sqrt _) with (pointerDistance rect cx cy).
  change (Rmax _ _ / 2) with (maxDistance rect).
  rewrite (ltb_true _ _ H). reflexivity.
Qed.

Lemma magneticPull_outside (rect : Rect) (cx cy : R) :
  maxDistance rect <= pointerDistance rect cx cy ->
  magneticPull rect cx cy = None.
Proof.
  intro H. unfold magneticPull.
  change (sqrt _) with (pointerDistance rect cx cy).
  change (Rmax _ _ / 2) with (maxDistance rect).
  rewrite ltb_false by lra. reflexivity.
Qed.

(** X18: a [mousemove] on an element that has the listeners of the
    magnetic effect sets its transform only while the pointer is closer
    to the centre of its rectangle than half of its longer side; the
    translation is then the pointer's offset from the centre scaled by
    [strength * 0.3], with [strength] above 0 and at most 1, so each
    component points the way of the offset, is no longer than 0.3
    times the offset, and is zero at the centre.  Further out, and on
    an element whose rectangle is empty, the listener leaves the
    element as it is; so does a [mousemove] on an element without the
    listeners. *)
Theorem magnetic_pull_is_bounded (m : Magnet) (cx cy : R) :
  let rect := mag_rect m in
  let dx := cx - (rect_left rect + rect_width rect / 2) in
  let dy := cy - (rect_top rect + rect_height rect / 2) in
  let strength :=
    (maxDistance rect - pointerDistance rect cx cy) / maxDistance rect in
  (mag_listening m = true ->
   pointerDistance rect cx cy < maxDistance rect ->
   magnetMouseMove cx cy m
   = mkMagnet rect (Some (dx * strength * 0.3, dy * strength * 0.3)) true
   /\ 0 < strength <= 1
   /\ Rabs (dx * strength * 0.3) <= 0.3 * Rabs dx
   /\ Rabs (dy * strength * 0.3) <= 0.3 * Rabs dy
   /\ (0 <= dx -> 0 <= dx * strength * 0.3)
   /\ (dx <= 0 -> dx * strength * 0.3 <= 0)
   /\ (0 <= dy -> 0 <= dy * strength * 0.3)
   /\ (dy <= 0 -> dy * strength * 0.3 <= 0)
   /\ (dx = 0 -> dy = 0 ->
       magnetMouseMove cx cy m = mkMagnet rect (Some (0, 0)) true))
  /\ (mag_listening m = true ->
      maxDistance rect <= pointerDistance rect cx cy ->
      magnetMouseMove cx cy m = m)
  /\ (mag_listening m = true -> maxDistance rect <= 0 ->
      magnetMouseMove cx cy m = m)
  /\ (mag_listening m = false -> magnetMouseMove cx cy m = m).
Proof.
  intros rect dx dy strength.
  assert (0 <= pointerDistance rect cx cy) as Hd0
    by (unfold pointerDistance; apply sqrt_pos).
  split; [| split; [| split]].
  - intros Hl Hin.
    pose proof (magneticPull_inside rect cx cy Hin) as E.
    fold dx dy strength in E.
    assert (magnetMouseMove cx cy m
            = mkMagnet rect (Some (dx * strength * 0.3, dy * strength * 0.3))
                true) as Em.
    { unfold magnetMouseMove. fold rect. rewrite Hl, E. reflexivity. }
    assert (0 < strength <= 1) as Hs.
    { subst strength. revert Hin Hd0.
      generalize (maxDistance rect) (pointerDistance rect cx cy).
      intros M d Hin Hd0.
      assert (0 < M) as HM by lra.
      split.
      - apply Rdiv_lt_0_compat; lra.
      - apply (Rmult_le_reg_r M); [exact HM |].
        unfold Rdiv. rewrite Rmult_assoc, Rinv_l by lra. lra. }
    clearbody strength. clear E.
    split; [exact Em |]. split; [exact Hs |].
    split; [unfold Rabs; repeat destruct (Rcase_abs _); nra |].
    split; [unfold Rabs; repeat destruct (Rcase_abs _); nra |].
    split; [intro; nra |]. split; [intro; nra |].
    split; [intro; nra |]. split; [intro; nra |].
    intros Hx Hy. rewrite Em, Hx, Hy. do 3 f_equal; ring.
  - intros Hl Hout. unfold magnetMouseMove. fold rect.
    rewrite Hl, (magneticPull_outside rect cx cy Hout). reflexivity.
  - intros Hl HM. unfold magnetMouseMove. fold rect.
    rewrite Hl, (magneticPull_outside rect cx cy) by lra. reflexivity.
  - intro Hl. unfold magnetMouseMove. rewrite Hl. reflexivity.
Qed.

Lemma magnetic_pull_is_bounded_witness :
  let m := addMagneticEffect (load desktop) ctaButton in
  let strength :=
    (maxDistance (mag_rect m) - pointerDistance (mag_rect m) 230 130)
    / maxDistance (mag_rect m) in
  magnetMouseMove 230 130 m
  = mkMagnet (mag_rect m)
      (Some ((230 - (100 + 200 / 2)) * strength * 0.3,
             (130 - (100 + 60 / 2)) * strength * 0.3)) true
  /\ 0 < strength <= 1
  /\ magnetMouseMove 500 130 m = m
  /\ magnetMouseMove 230 130 ctaButton = ctaButton.
Proof.
  intros m strength.
  assert (m = mkMagnet (mkRect 100 100 200 60) None true) as Hm
    by reflexivity.
  clearbody m. subst m.
  assert (maxDistance (mkRect 100 100 200 60) = 100) as HM.
  { unfold maxDistance, Rmax; cbn [rect_width rect_height].
    destruct (Rle_dec 200 60); lra. }
  cbn [mag_rect] in *.
  destruct (proj1 (magnetic_pull_is_bounded
                     (mkMagnet (mkRect 100 100 200 60) None true) 230 130))
    as (E & Hs & _).
  - reflexivity.
  - cbn [mag_rect]. rewrite HM. unfold pointerDistance;
      cbn [rect_left rect_top rect_width rect_height].
    apply sqrt_lt_bound; lra.
  - split; [exact E |]. split; [exact Hs |].
    split.
    + apply (proj1 (proj2 (magnetic_pull_is_bounded
                             (mkMagnet (mkRect 100 100 200 60) None true)
                             500 130)));
        [reflexivity |].
      cbn [mag_rect]. rewrite HM. unfold pointerDistance;
        cbn [rect_left rect_top rect_width rect_height].
      apply Rge_le, sqrt_ge_bound; lra.
    + apply (proj2 (proj2 (proj2
               (magnetic_pull_is_bounded ctaButton 230 130)))).
      reflexivity.
Defined.

(** X19: under reduced motion or on a window of width 768 or less,
    [initializeCursor] and [initializeParticles] leave the page as it
    is even when their elements are there, and [addMagneticEffect] puts
    no listener on its element, so that pointer events leave the
    element's transform alone; otherwise the element gets its
    listeners, and leaving it resets the translation to zero. *)
Theorem reduced_motion_disables_effects (w : World) (m : Magnet) :
  (motionDisabled w = true ->
   initializeCursor w = Normal w
   /\ initializeParticles w = Normal w
   /\ (mag_listening m = false ->
       forall cx cy,
         magnetMouseMove cx cy (addMagneticEffect w m) = m
         /\ magnetMouseLeave (addMagneticEffect w m) = m))
  /\ (motionDisabled w = false ->
      mag_listening (addMagneticEffect w m) = true
      /\ mag_transform (magnetMouseLeave (addMagneticEffect w m))
         = Some (0, 0))
  /\ (motionDisabled w = true
      <-> isReducedMotion (STATE w) = true \/ (innerWidth w <= 768)%Z).
Proof.
  split; [| split].
  - intro H. unfold initializeCursor, initializeParticles, addMagneticEffect.
    rewrite H. split; [reflexivity |]. split; [reflexivity |].
    intros Hl cx cy. unfold magnetMouseMove, magnetMouseLeave.
    rewrite Hl. split; reflexivity.
  - intro H. unfold addMagneticEffect. rewrite H. split; reflexivity.
  - unfold motionDisabled. rewrite orb_true_iff, Z.leb_le. tauto.
Qed.

Lemma reduced_motion_disables_effects_witness :
  initializeCursor (load (mkEnvironment None true 1280 (Some plainCursor)
                            None (fun _ => 0)))
  = Normal (load (mkEnvironment None true 1280 (Some plainCursor)
                    None (fun _ => 0)))
  /\ mag_listening (addMagneticEffect (load desktop) ctaButton) = true.
Proof.
  split.
  - apply (proj1 (reduced_motion_disables_effects _ ctaButton)). reflexivity.
  - apply (proj1 (proj2 (reduced_motion_disables_effects (load desktop)
                           ctaButton))). reflexivity.
Defined.

(** ** Throttle and debounce *)

Section TimerProperties.

Variable A : Type.

Lemma throttleRun_app (es es' : list (TimerEvent A)) (t : Throttle A) :
  throttleRun (es ++ es') t = throttleRun es' (throttleRun es t).
Proof.
  revert t. induction es as [|[a|] es IH]; intro t; cbn; auto.
Qed.

Lemma throttle_step_sound (e : TimerEvent A) (t : Throttle A) :
  throttleSound t ->
  throttleSound (throttleRun [e] t)
  /\ (List.length (throttled (throttleRun [e] t))
      + (if inThrottle (throttleRun [e] t) then 0 else 1)
      <= List.length (throttled t) + (if inThrottle t then 0 else 1)
         + timeouts [e])%nat.
Proof.
  unfold throttleSound. destruct t as [b n cs].
  cbn [inThrottle throttleTimers].
  intros ->. destruct e as [a|]; destruct b; cbn;
    rewrite ?length_app; cbn; split; try reflexivity; lia.
Qed.

Lemma throttle_run_sound (es : list (TimerEvent A)) (t : Throttle A) :
  throttleSound t ->
  throttleSound (throttleRun es t)
  /\ (List.length (throttled (throttleRun es t))
      + (if inThrottle (throttleRun es t) then 0 else 1)
      <= List.length (throttled t) + (if inThrottle t then 0 else 1)
         + timeouts es)%nat.
Proof.
  revert t. induction es as [|e es IH]; intros t Hs.
  - cbn. split; [exact Hs | lia].
  - destruct (throttle_step_sound e t Hs) as [Hs1 Hle1].
    change (e :: es) with ([e] ++ es). rewrite throttleRun_app.
    destruct (IH _ Hs1) as [Hs2 Hle2]. split; [exact Hs2 |].
    unfold timeouts in *. rewrite filter_app, length_app. lia.
Qed.

Lemma throttle_ignores_burst (rest : list A) (t : Throttle A) :
  inThrottle t = true ->
  throttleRun (List.map Call rest) t = t.
Proof.
  intro H. induction rest as [|b rest IH]; [reflexivity |].
  cbn [List.map throttleRun]. unfold throttleCall. rewrite H.
  cbn [negb]. exact IH.
Qed.

(** X20: for a function wrapped by [utils.throttle], whatever the
    order of calls and timeouts: at most one timer is pending, and it
    is pending exactly while calls are being dropped; the function has
    run at most once more than timers have fired; a burst of calls
    without a timeout in between runs the function once, with the
    arguments of the first call; and the first call after the timeout
    runs it again. *)
Theorem throttle_runs_once_per_window (es : list (TimerEvent A)) :
  let t := throttleRun es throttleStart in
  throttleTimers t = (if inThrottle t then 1 else 0)%nat
  /\ (List.length (throttled t) <= S (timeouts es))%nat
  /\ (forall (a : A) rest,
        throttleRun (List.map Call (a :: rest)) throttleStart
        = mkThrottle true 1 [a])
  /\ (forall (a : A) rest b rest',
        throttled
          (throttleRun
             (List.map Call (a :: rest) ++ Elapse
                :: List.map Call (b :: rest')) throttleStart)
        = [a; b]).
Proof.
  intro t. subst t.
  destruct (throttle_run_sound es throttleStart eq_refl) as [Hs Hle].
  split; [exact Hs |].
  split; [cbn in Hle; destruct (inThrottle _); lia |].
  split.
  - intros a rest. cbn [List.map throttleRun].
    apply throttle_ignores_burst. reflexivity.
  - intros a rest b rest'.
    rewrite throttleRun_app. cbn [List.map throttleRun].
    rewrite (throttle_ignores_burst rest) by reflexivity.
    cbn. rewrite (throttle_ignores_burst rest') by reflexivity.
    reflexivity.
Qed.

Lemma debounceRun_app (im : bool) (es es' : list (TimerEvent A))
  (d : Debounce A) :
  debounceRun im (es ++ es') d = debounceRun im es' (debounceRun im es d).
Proof.
  revert d. induction es as [|[a|] es IH]; intro d; cbn; auto.
Qed.

Lemma debounceCall_armed (im : bool) (a : A) (d : Debounce A) :
  debounceSound d ->
  timeout (debounceCall im a d) = Some (nextTimer d)
  /\ pendingTimers (debounceCall im a d) = [(nextTimer d, a)]
  /\ debounced (debounceCall im a d)
     = (if im && match timeout d with None => true | Some _ => false end
        then debounced d ++ [a] else debounced d).
Proof.
  intros [[Ht Hp] | (id & b & Ht & Hp)]; unfold debounceCall;
    rewrite Ht, Hp; cbn; rewrite ?Nat.eqb_refl; cbn; auto.
Qed.

Lemma debounceCall_sound (im : bool) (a : A) (d : Debounce A) :
  debounceSound d -> debounceSound (debounceCall im a d).
Proof.
  intro H. destruct (debounceCall_armed im a d H) as (Ht & Hp & _).
  right. exists (nextTimer d), a. split; assumption.
Qed.

Lemma debounceTimeout_sound (im : bool) (d : Debounce A) :
  debounceSound d ->
  debounceSound (debounceTimeout im d)
  /\ timeout (debounceTimeout im d) = None.
Proof.
  intros [[Ht Hp] | (id & b & Ht & Hp)]; unfold debounceTimeout;
    rewrite Hp; cbn.
  - split; [left; split; assumption | exact Ht].
  - split; [left; split; reflexivity | reflexivity].
Qed.

Lemma debounceRun_sound (im : bool) (es : list (TimerEvent A))
  (d : Debounce A) :
  debounceSound d -> debounceSound (debounceRun im es d).
Proof.
  revert d. induction es as [|[a|] es IH]; intros d H; cbn [debounceRun].
  - exact H.
  - apply IH, debounceCall_sound, H.
  - apply IH, debounceTimeout_sound, H.
Qed.

(** Without [immediate]: the function runs when a timer fires, with the
    arguments of the call that started that timer. *)
Lemma debounce_trailing (es : list (TimerEvent A)) (d : Debounce A) :
  (timeout d = None -> pendingTimers d = [] ->
   debounced (debounceRun false es d) = debounced d ++ trailingCalls es)
  /\ (forall id a,
        timeout d = Some id -> pendingTimers d = [(id, a)] ->
        debounced (debounceRun false es d)
        = debounced d ++ trailingCalls (Call a :: es)).
Proof.
  revert d. induction es as [|e es IH]; intro d.
  - cbn. split; intros; rewrite app_nil_r; reflexivity.
  - destruct e as [b|].
    + assert (forall (Hs : debounceSound d),
                debounced (debounceRun false (Call b :: es) d)
                = debounced d ++ trailingCalls (Call b :: es)) as Hcall.
      { intro Hs. cbn [debounceRun].
        destruct (debounceCall_armed false b d Hs) as (Ht & Hp & Hc).
        rewrite (proj2 (IH (debounceCall false b d)) _ _ Ht Hp), Hc.
        reflexivity. }
      split.
      * intros Ht Hp. apply Hcall. left. split; assumption.
      * intros id a Ht Hp.
        rewrite Hcall by (right; exists id, a; split; assumption).
        reflexivity.
    + split.
      * intros Ht Hp. cbn [debounceRun trailingCalls].
        unfold debounceTimeout. rewrite Hp.
        apply (proj1 (IH d)); assumption.
      * intros id a Ht Hp. cbn [debounceRun trailingCalls].
        unfold debounceTimeout. rewrite Hp.
        rewrite (proj1 (IH _)) by reflexivity.
        cbn [debounced]. rewrite <- app_assoc. reflexivity.
Qed.

(** With [immediate]: the function runs at a call made while no timer
    is pending. *)
Lemma debounce_leading (es : list (TimerEvent A)) (d : Debounce A) :
  debounceSound d ->
  debounced (debounceRun true es d)
  = debounced d
    ++ leadingCalls
         (match timeout d with None => true | Some _ => false end) es.
Proof.
  revert d. induction es as [|e es IH]; intros d Hs.
  - cbn. rewrite app_nil_r. reflexivity.
  - destruct e as [b|]; cbn [debounceRun leadingCalls].
    + destruct (debounceCall_armed true b d Hs) as (Ht & Hp & Hc).
      rewrite (IH _ (debounceCall_sound true b d Hs)), Ht, Hc.
      cbn [andb]. destruct (timeout d); [reflexivity |].
      rewrite <- app_assoc. reflexivity.
    + destruct (debounceTimeout_sound true d Hs) as [Hs1 Ht1].
      rewrite (IH _ Hs1), Ht1.
      destruct Hs as [[Ht Hp] | (id & b & Ht & Hp)];
        unfold debounceTimeout; rewrite Hp; reflexivity.
Qed.

Lemma trailingCalls_burst (burst : list A) (a : A)
  (es : list (TimerEvent A)) :
  trailingCalls (List.map Call burst ++ Call a :: Elapse :: es)
  = a :: trailingCalls es.
Proof.
  induction burst as [|b burst IH]; [reflexivity |].
  cbn [List.map app trailingCalls].
  destruct burst as [|c burst]; exact IH.
Qed.

Lemma leadingCalls_burst (burst : list A) (es : list (TimerEvent A)) :
  leadingCalls false (List.map Call burst ++ Elapse :: es)
  = leadingCalls true es.
Proof.
  induction burst as [|b burst IH]; [reflexivity | exact IH].
Qed.

(** X21: for a function wrapped by [utils.debounce] without
    [immediate], whatever the order of calls and timeouts: at most one
    timer is pending, the one in [timeout]; the function has run, in
    order, with the arguments of exactly the calls that were directly
    followed by a timeout; so a burst of calls followed by the timeout
    runs it once, with the arguments of the last call, and calls that
    keep coming before the timeout never run it. *)
Theorem debounce_runs_last_call (es : list (TimerEvent A)) :
  debounceSound (debounceRun false es debounceStart)
  /\ debounced (debounceRun false es debounceStart) = trailingCalls es
  /\ (forall burst (a : A),
        debounced
          (debounceRun false (List.map Call burst ++ [Call a; Elapse])
             debounceStart)
        = [a])
  /\ (forall burst : list A,
        debounced (debounceRun false (List.map Call burst) debounceStart)
        = []).
Proof.
  assert (forall es',
            debounced (debounceRun false es' debounceStart)
            = trailingCalls es') as Hspec
    by (intro es';
        exact (proj1 (debounce_trailing es' debounceStart) eq_refl eq_refl)).
  split; [apply debounceRun_sound; left; split; reflexivity |].
  split; [apply Hspec |].
  split.
  - intros burst a. rewrite Hspec, trailingCalls_burst. reflexivity.
  - intro burst. rewrite Hspec.
    induction burst as [|b burst IH]; [reflexivity |].
    cbn [List.map trailingCalls].
    destruct burst as [|c burst]; [reflexivity | exact IH].
Qed.

(** X22: for a function wrapped by [utils.debounce] with [immediate],
    whatever the order of calls and timeouts: the function has run, in
    order, with the arguments of exactly the calls that came first or
    directly after a timeout, and never from a timer; so a burst runs
    it once, at once, with the arguments of the first call, and the
    first call after the timeout runs it again. *)
Theorem debounce_immediate_runs_first_call (es : list (TimerEvent A)) :
  debounceSound (debounceRun true es debounceStart)
  /\ debounced (debounceRun true es debounceStart) = leadingCalls true es
  /\ (forall (a : A) burst,
        debounced
          (debounceRun true (List.map Call (a :: burst)) debounceStart)
        = [a]
        /\ debounced
             (debounceRun true (List.map Call (a :: burst) ++ [Elapse])
                debounceStart)
           = [a])
  /\ (forall (a : A) burst b,
        debounced
          (debounceRun true
             (List.map Call (a :: burst) ++ [Elapse; Call b])
             debounceStart)
        = [a; b]).
Proof.
  assert (forall es',
            debounced (debounceRun true es' debounceStart)
            = leadingCalls true es') as Hspec
    by (intro es';
        exact (debounce_leading es' debounceStart
                 (or_introl (conj eq_refl eq_refl)))).
  assert (forall burst : list A,
            leadingCalls false (List.map Call burst) = []) as Hquiet
    by (intro burst; induction burst as [|b burst IH];
        [reflexivity | exact IH]).
  split; [apply debounceRun_sound; left; split; reflexivity |].
  split; [apply Hspec |].
  split.
  - intros a burst. rewrite !Hspec. cbn [List.map app leadingCalls].
    rewrite Hquiet, leadingCalls_burst. split; reflexivity.
  - intros a burst b. rewrite Hspec. cbn [List.map app leadingCalls].
    rewrite leadingCalls_burst. reflexivity.
Qed.

End TimerProperties.

(** ** Easter egg *)

Lemma sameCodes_eq (a b : list jsstring) : sameCodes a b = true <-> a = b.
Proof.
  revert b. induction a as [|c a IH]; intros [|d b]; cbn;
    try (split; discriminate); [tauto |].
  rewrite andb_true_iff, str_eqb_eq, IH.
  split; [intros [-> ->]; reflexivity | intro H; inversion H; auto].
Qed.

Lemma kept_suffix (pre s : list jsstring) (code : jsstring) :
  (List.length (pre ++ s) <= 10)%nat -> (List.length s < 10)%nat ->
  exists pre',
    (if (10 <? List.length ((pre ++ s) ++ [code]))%nat
     then tl ((pre ++ s) ++ [code]) else (pre ++ s) ++ [code])
    = pre' ++ s ++ [code]
    /\ (List.length (pre' ++ s ++ [code]) <= 10)%nat.
Proof.
  intros Hlen Hs.
  destruct (Nat.ltb_spec 10 (List.length ((pre ++ s) ++ [code])))
    as [Hgt | Hle].
  - destruct pre as [|p pre].
    + cbn [app] in Hgt. rewrite length_app in Hgt.
      cbn [List.length] in Hgt. lia.
    + exists pre. cbn [app tl]. rewrite <- app_assoc.
      split; [reflexivity |].
      cbn [app List.length] in Hlen. rewrite !length_app in *.
      cbn [List.length]. lia.
  - exists pre. rewrite <- app_assoc. split; [reflexivity |].
    rewrite <- app_assoc in Hle. exact Hle.
Qed.

Lemma last_app_one (l : list jsstring) (c d : jsstring) :
  last (l ++ [c]) d = c.
Proof. apply last_last. Qed.

(** A key that is not [KeyA] never activates, and joins the kept
    keys. *)
Lemma konamiKeydown_other (pre s : list jsstring) (code : jsstring)
  (n : nat) :
  code <> js "KeyA" ->
  (List.length (pre ++ s) <= 10)%nat -> (List.length s < 10)%nat ->
  exists pre',
    konamiKeydown code (mkKonami (pre ++ s) n)
    = mkKonami (pre' ++ s ++ [code]) n
    /\ (List.length (pre' ++ s ++ [code]) <= 10)%nat.
Proof.
  intros Hc Hlen Hs.
  destruct (kept_suffix pre s code Hlen Hs) as (pre' & E & L).
  exists pre'. split; [| exact L].
  unfold konamiKeydown. cbn [konamiCode activations].
  change (List.length konamiSequence) with 10%nat. rewrite E.
  destruct (sameCodes (pre' ++ s ++ [code]) konamiSequence) eqn:Hsame;
    [| reflexivity].
  apply sameCodes_eq in Hsame.
  apply (f_equal (fun l => last l [])) in Hsame.
  rewrite app_assoc, last_app_one in Hsame.
  elim Hc. exact Hsame.
Qed.

Lemma konami_no_KeyA (code : jsstring) (k : Konami) :
  code <> js "KeyA" -> activations (konamiKeydown code k) = activations k.
Proof.
  intro Hc. unfold konamiKeydown.
  destruct (sameCodes _ konamiSequence) eqn:Hsame; [| reflexivity].
  apply sameCodes_eq in Hsame.
  apply (f_equal (fun l => last l [])) in Hsame.
  destruct (_ <? _)%nat in Hsame.
  - destruct (konamiCode k) as [|c0 rest] eqn:Hk.
    + cbn in Hsame. discriminate.
    + cbn [app tl] in Hsame. rewrite last_app_one in Hsame.
      elim Hc. exact Hsame.
  - rewrite last_app_one in Hsame. elim Hc. exact Hsame.
Qed.

Lemma konami_length (code : jsstring) (k : Konami) :
  (List.length (konamiCode k) <= 10)%nat ->
  (List.length (konamiCode (konamiKeydown code k)) <= 10)%nat.
Proof.
  intro H. unfold konamiKeydown.
  destruct (sameCodes _ konamiSequence); [cbn; lia |].
  cbn [konamiCode]. change (List.length konamiSequence) with 10%nat.
  destruct (Nat.ltb_spec 10 (List.length (konamiCode k ++ [code])))
    as [Hgt | Hle]; [| exact Hle].
  rewrite length_app in Hgt. cbn [List.length] in Hgt.
  destruct (konamiCode k) as [|c0 rest]; cbn [app tl List.length] in *.
  - lia.
  - rewrite length_app. cbn [List.length]. lia.
Qed.

Lemma konamiKeys_length (codes : list jsstring) (k : Konami) :
  (List.length (konamiCode k) <= 10)%nat ->
  (List.length (konamiCode (konamiKeys codes k)) <= 10)%nat.
Proof.
  revert k. induction codes as [|c codes IH]; intros k H; [exact H |].
  cbn [konamiKeys]. apply IH, konami_length, H.
Qed.

Lemma konamiKeydown_last (pre : list jsstring) (n : nat) :
  (List.length
     (pre ++ [js "ArrowUp"; js "ArrowUp"; js "ArrowDown"; js "ArrowDown";
              js "ArrowLeft"; js "ArrowRight"; js "ArrowLeft";
              js "ArrowRight"; js "KeyB"]) <= 10)%nat ->
  konamiKeydown (js "KeyA")
    (mkKonami
       (pre ++ [js "ArrowUp"; js "ArrowUp"; js "ArrowDown"; js "ArrowDown";
                js "ArrowLeft"; js "ArrowRight"; js "ArrowLeft";
                js "ArrowRight"; js "KeyB"]) n)
  = mkKonami [] (S n).
Proof.
  intro H. rewrite length_app in H. cbn [List.length] in H.
  destruct pre as [|p [|q pre]]; [| | cbn [List.length] in H; lia];
    reflexivity.
Qed.

(** Feeds one key that is not [KeyA] to a buffer [pre ++ s]. *)
Ltac konami_key pre L :=
  let pre' := fresh "pre" in
  let E := fresh "E" in
  let L' := fresh "L" in
  match goal with
  | |- context [konamiKeydown ?code (mkKonami (pre ++ ?s) ?n)] =>
      destruct (konamiKeydown_other pre s code n) as (pre' & E & L');
      [ let Hbad := fresh "Hbad" in
        intro Hbad; vm_compute in Hbad; discriminate Hbad
      | exact L
      | cbn [List.length]; lia
      | rewrite E; cbn [app]; clear E ]
  end.

(** X23: the [keydown] listener of the easter egg never keeps more
    than ten key codes; a key other than [KeyA] never activates the
    egg; and, whatever the keys pressed before, pressing the ten keys
    of the sequence in order activates it exactly once, at the last
    key, and empties the kept codes. *)
Theorem konami_sequence_activates (k : Konami) :
  ((List.length (konamiCode k) <= 10)%nat ->
   konamiKeys konamiSequence k = mkKonami [] (S (activations k)))
  /\ (forall codes,
        (List.length (konamiCode (konamiKeys codes (mkKonami [] 0)))
         <= 10)%nat)
  /\ (forall code, code <> js "KeyA" ->
        activations (konamiKeydown code k) = activations k).
Proof.
  split; [| split].
  - intro L0. destruct k as [buf n]. cbn [konamiCode activations] in *.
    unfold konamiSequence. cbn [konamiKeys].
    rewrite <- (app_nil_r buf) in L0 |- *.
    konami_key buf L0. konami_key pre L. konami_key pre0 L1.
    konami_key pre1 L2. konami_key pre2 L3. konami_key pre3 L4.
    konami_key pre4 L5. konami_key pre5 L6. konami_key pre6 L7.
    apply konamiKeydown_last. exact L8.
  - intro codes. apply konamiKeys_length. cbn. lia.
  - intro code. apply konami_no_KeyA.
Qed.

Lemma konami_sequence_activates_witness :
  konamiKeys konamiSequence (mkKonami [js "KeyB"; js "KeyA"] 0)
  = mkKonami [] 1
  /\ activations (konamiKeydown (js "KeyB") (mkKonami [] 0)) = 0%nat.
Proof.
  split.
  - apply (proj1 (konami_sequence_activates
                    (mkKonami [js "KeyB"; js "KeyA"] 0))).
    cbn. lia.
  - apply (proj2 (proj2 (konami_sequence_activates (mkKonami [] 0)))).
    discriminate.
Defined.

(** ** Number animation *)

Lemma Int_part_IZR (z : Z) : Int_part (IZR z) = z.
Proof. symmetry. apply Int_part_spec. lra. Qed.

Lemma Int_part_between (a b : Z) (r : R) :
  IZR a <= r -> r < IZR b -> (a <= Int_part r < b)%Z.
Proof.
  intros Ha Hb. destruct (base_Int_part r) as [Hle Hgt].
  split.
  - apply Z.lt_succ_r. apply lt_IZR. rewrite succ_IZR. lra.
  - apply lt_IZR. lra.
Qed.

(** On binary64 values the count can reach its end while [progress] is
    still below 1, which is why the range of the number shown before
    the duration has passed is closed. *)
Lemma counted_reaches_end_early :
  (0x1.fffffffffffffp-1 <? 1)%float = true
  /\ Binary64.counted 0x1.fffffffffffffp-1 1000 1001 = 1001%float.
Proof. split; vm_compute; reflexivity. Qed.

(** X24: for a count from the integer [a] up to the integer [b] over a
    positive duration, the frame callback of [utils.animateNumber]
    shows [a] at its first frame and asks for another frame; at a
    later frame it asks for another frame exactly when
    [(timestamp - startTimestamp) / duration] is below 1; at a frame
    before the duration has passed it shows an integer from [a] to
    [b]; at a frame once the duration has passed it shows [b] and asks
    for no further frame.  A start time of 0 counts as not set: the
    next frame starts the count again. *)
Theorem animateNumber_counts_up (a b : Z) (duration t : R) (c : Counter) :
  0 < duration -> (a <= b)%Z ->
  let c' := animateNumberStep (IZR a) (IZR b) duration t c in
  (startTimestamp c = None \/ startTimestamp c = Some 0 ->
   c' = mkCounter (Some t) (Some a) true)
  /\ (forall s, startTimestamp c = Some s -> s <> 0 ->
        startTimestamp c' = Some s
        /\ (stepPending c' = true <-> (t - s) / duration < 1)
        /\ (s <= t < s + duration ->
            exists n, shownNumber c' = Some n /\ (a <= n <= b)%Z)
        /\ (s + duration <= t ->
            stepPending c' = false /\ shownNumber c' = Some b)).
Proof.
  intros Hd Hab c'. subst c'. unfold animateNumberStep. split.
  - intro H.
    assert ((match startTimestamp c with
             | Some s => if Req_dec_T s 0 then t else s
             | None => t
             end) = t) as ->.
    { destruct H as [-> | ->]; [reflexivity |].
      destruct (Req_dec_T 0 0); [reflexivity | contradiction]. }
    replace ((t - t) / duration) with 0 by (field; lra).
    rewrite Rmin_left by lra.
    replace (0 * (IZR b - IZR a) + IZR a) with (IZR a) by ring.
    rewrite Int_part_IZR, ltb_true by lra. reflexivity.
  - intros s Hs Hnz. rewrite Hs.
    destruct (Req_dec_T s 0) as [Hz | _]; [contradiction |].
    cbn [startTimestamp stepPending shownNumber].
    split; [reflexivity |]. split; [| split].
    + split.
      * intro H.
        destruct (Rlt_le_dec ((t - s) / duration) 1) as [Hlt | Hge];
          [exact Hlt |].
        rewrite Rmin_right, ltb_false in H by lra. discriminate H.
      * intro H. rewrite Rmin_left by lra. apply ltb_true. exact H.
    + intros [Hlo Hhi].
      assert (0 <= (t - s) / duration < 1) as Hp.
      { split.
        - apply Rmult_le_pos; [lra | apply Rlt_le, Rinv_0_lt_compat, Hd].
        - apply (Rmult_lt_reg_r duration); [exact Hd |].
          unfold Rdiv. rewrite Rmult_assoc, Rinv_l by lra. lra. }
      rewrite Rmin_left by lra.
      eexists. split; [reflexivity |].
      pose proof (IZR_le _ _ Hab) as Hab'.
      destruct (Z.eq_dec a b) as [-> | Hne].
      * replace ((t - s) / duration * (IZR b - IZR b) + IZR b)
          with (IZR b) by ring.
        rewrite Int_part_IZR. lia.
      * assert (IZR a < IZR b) as Hlt by (apply IZR_lt; lia).
        destruct (Int_part_between a b
                    ((t - s) / duration * (IZR b - IZR a) + IZR a))
          as [H1 H2]; [nra | nra |].
        lia.
    + intro Hdone.
      assert (1 <= (t - s) / duration) as Hp.
      { apply (Rmult_le_reg_r duration); [exact Hd |].
        unfold Rdiv. rewrite Rmult_assoc, Rinv_l by lra. lra. }
      rewrite Rmin_right by lra.
      replace (1 * (IZR b - IZR a) + IZR a) with (IZR b) by ring.
      rewrite Int_part_IZR, ltb_false by lra. split; reflexivity.
Qed.

Lemma animateNumber_counts_up_witness :
  animateNumberStep (IZR 0) (IZR 42) 2000 1000 (animateNumber None)
  = mkCounter (Some 1000) (Some 0%Z) true
  /\ shownNumber
       (animateNumberStep (IZR 0) (IZR 42) 2000 3500
          (mkCounter (Some 1000) (Some 0%Z) true))
     = Some 42%Z
  /\ exists n,
       shownNumber
         (animateNumberStep (IZR 0) (IZR 42) 2000 2000
            (mkCounter (Some 1000) (Some 0%Z) true))
       = Some n /\ (0 <= n <= 42)%Z.
Proof.
  split; [| split].
  - apply (proj1 (animateNumber_counts_up 0 42 2000 1000
                    (animateNumber None) ltac:(lra) ltac:(lia))).
    left. reflexivity.
  - destruct (proj2 (animateNumber_counts_up 0 42 2000 3500
                       (mkCounter (Some 1000) (Some 0%Z) true)
                       ltac:(lra) ltac:(lia)) 1000 eq_refl ltac:(lra))
      as (_ & _ & _ & H).
    apply H. lra.
  - destruct (proj2 (animateNumber_counts_up 0 42 2000 2000
                       (mkCounter (Some 1000) (Some 0%Z) true)
                       ltac:(lra) ltac:(lia)) 1000 eq_refl ltac:(lra))
      as (_ & _ & H & _).
    apply H. lra.
Defined.

(** ** Particle creation *)

Lemma createParticle_rng (cv : Canvas) (w : World) :
  rng (snd (createParticle cv w)) = rng w.
Proof. reflexivity. Qed.

Lemma createParticles_fresh (n : nat) (cv : Canvas) (ps : list Particle)
  (w : World) :
  (forall k, 0 <= rng w k < 1) ->
  (0 <= width cv)%Z -> (0 <= height cv)%Z ->
  Forall (freshParticle (IZR (width cv)) (IZR (height cv))) ps ->
  Forall (freshParticle (IZR (width cv)) (IZR (height cv)))
    (fst (createParticles n cv ps w)).
Proof.
  intros Hr Hw Hh. revert ps w Hr.
  induction n as [|n IH]; intros ps w Hr Hps; [exact Hps |].
  cbn [createParticles].
  pose proof (createParticle_ranges cv w Hr Hw Hh) as Hp.
  pose proof (createParticle_rng cv w) as Hrng.
  destruct (createParticle cv w) as [p w1]. cbn [fst snd] in *.
  apply IH.
  - intro k. rewrite Hrng. apply Hr.
  - apply Forall_app. split; [exact Hps |].
    constructor; [| constructor].
    destruct Hp as (Hb & Hvx & Hvy & Hrad & Hop).
    unfold freshParticle. repeat split; (apply Hb || lra).
Qed.

(** On binary64 values the largest value of [Math.random] gives the
    radius 3 and the opacity 0.7, which is why these two ranges are
    closed. *)
Lemma created_radius_reaches_3 :
  (0x1.fffffffffffffp-1 <? 1)%float = true
  /\ Binary64.radius 0x1.fffffffffffffp-1 = 3%float
  /\ Binary64.opacity 0x1.fffffffffffffp-1 = 0.7%float.
Proof. repeat split; vm_compute; reflexivity. Qed.

(** X25: on a page with a [.hero] element, motion allowed, and
    [Math.random] in [[0, 1)], [initializeParticles] makes a canvas of
    the hero's size, appends it to the hero and creates 50 particles
    from 300 random values, each inside the canvas, with both velocity
    components in [[-0.25, 0.25)], a radius in [[1, 3]] and an opacity
    in [[0.2, 0.7]]; it then runs the first frame on them and leaves
    the loop pending. *)
Theorem particles_are_created_in_range (w : World) (hero : Hero) :
  motionDisabled w = false -> heroNode w = Some hero ->
  (forall k, 0 <= rng w k < 1) ->
  (0 <= offsetWidth hero)%Z -> (0 <= offsetHeight hero)%Z ->
  let cv := mkCanvas (offsetWidth hero) (offsetHeight hero) in
  exists w' created,
    initializeParticles w = Normal w'
    /\ List.length created = 50%nat
    /\ Forall (freshParticle (IZR (offsetWidth hero))
                 (IZR (offsetHeight hero))) created
    /\ particleFrame w'
       = Some (mkParticleClosure cv
                 (List.map (advance (IZR (offsetWidth hero))
                              (IZR (offsetHeight hero))) created))
    /\ rngNext w' = (300 + rngNext w)%nat
    /\ heroNode w'
       = Some (mkHero (offsetWidth hero) (offsetHeight hero)
                 (children hero ++ [cv])).
Proof.
  intros Hm Hh Hr Hw0 Hh0 cv.
  unfold initializeParticles, createParticleCanvas.
  rewrite Hm, Hh. cbn [deref bind]. fold cv.
  set (w1 := set_heroNode _ _).
  assert (forall k, 0 <= rng w1 k < 1) as Hr1 by exact Hr.
  pose proof (createParticles_fresh CONFIG.particles.count cv [] w1 Hr1
                Hw0 Hh0 (Forall_nil _)) as Hfresh.
  destruct (createParticles_world CONFIG.particles.count cv [] w1)
    as [Hworld Hlen].
  destruct (createParticles CONFIG.particles.count cv [] w1) as [qs w2].
  cbn [fst snd] in *. subst w2. unfold animate.
  cbn [canvas particles width height cv].
  pose proof (animateFrame_particles (IZR (offsetWidth hero))
                (IZR (offsetHeight hero)) qs) as Hps.
  destruct (animateFrame _ _ qs) as [ps' ops]. cbn [fst] in Hps. subst ps'.
  exists (set_particleFrame
            (Some (mkParticleClosure cv
                     (List.map (advance (IZR (offsetWidth hero))
                                  (IZR (offsetHeight hero))) qs)))
            (set_surface ops
               (set_rngNext (6 * CONFIG.particles.count + rngNext w1) w1))),
    qs.
  split; [reflexivity |]. split; [exact Hlen |].
  split; [exact Hfresh |]. repeat split.
Qed.

Lemma particles_are_created_in_range_witness :
  exists w' created,
    initializeParticles (load edgePage) = Normal w'
    /\ List.length created = 50%nat
    /\ Forall (freshParticle (IZR 800) (IZR 600)) created
    /\ particleFrame w'
       = Some (mkParticleClosure (mkCanvas 800 600)
                 (List.map (advance (IZR 800) (IZR 600)) created))
    /\ rngNext w' = (300 + rngNext (load edgePage))%nat
    /\ heroNode w' = Some (mkHero 800 600 ([] ++ [mkCanvas 800 600])).
Proof.
  apply (particles_are_created_in_range (load edgePage) (mkHero 800 600 [])).
  - reflexivity.
  - reflexivity.
  - intro k. unfold load, edgePage; cbn [rng env_random].
    unfold edgeRandom.
    destruct k as [|[|[|[|[|k]]]]]; lra.
  - cbn. lia.
  - cbn. lia.
Defined.

(** ** Accepted addresses and error messages *)

Lemma count_plain (s : jsstring) :
  Forall plainUnit s -> count_occ N.eq_dec s 64%N = 0%nat.
Proof.
  intro H. apply count_occ_not_In. intro Hin.
  destruct (proj1 (Forall_forall _ _) H _ Hin) as [_ Hne]. congruence.
Qed.

Lemma plain_nonspace (s : jsstring) :
  Forall plainUnit s -> Forall (fun c => isWhiteSpace c = false) s.
Proof. apply Forall_impl. intros c [H _]. exact H. Qed.

(** X26: every string the email pattern of [validateField] accepts
    holds exactly one [@], no white space, and at least five code
    units: a non-empty part before the [@] and, after it, a dot with a
    non-empty part on either side. *)
Theorem accepted_address_has_one_at (s : jsstring) :
  test emailRegex s = true ->
  count_occ N.eq_dec s 64%N = 1%nat
  /\ Forall (fun c => isWhiteSpace c = false) s
  /\ (5 <= List.length s)%nat
  /\ exists local rest,
       s = local ++ 64%N :: rest /\ local <> []
       /\ ~ In 64%N local /\ ~ In 64%N rest
       /\ exists domain tld,
            rest = domain ++ 46%N :: tld /\ domain <> [] /\ tld <> [].
Proof.
  intro H. apply emailRegex_shape in H.
  destruct H as (l & d & t & -> & Nl & Nd & Nt & Fl & Fd & Ft).
  cbn [app]. split; [| split; [| split]].
  - rewrite count_occ_app. cbn [count_occ].
    destruct (N.eq_dec 64 64) as [_ | Hbad]; [| congruence].
    rewrite count_occ_app. cbn [count_occ].
    destruct (N.eq_dec 46 64) as [Hbad | _]; [discriminate |].
    rewrite !count_plain by assumption. reflexivity.
  - apply Forall_app. split; [apply plain_nonspace, Fl |].
    constructor; [reflexivity |].
    apply Forall_app. split; [apply plain_nonspace, Fd |].
    constructor; [reflexivity | apply plain_nonspace, Ft].
  - rewrite length_app. cbn [List.length]. rewrite length_app.
    cbn [List.length].
    destruct l; [congruence |]. destruct d; [congruence |].
    destruct t; [congruence |]. cbn [List.length]. lia.
  - exists l, (d ++ 46%N :: t). split; [reflexivity |].
    split; [exact Nl |].
    assert (forall u, Forall plainUnit u -> ~ In 64%N u) as Hno.
    { intros u Hu Hin.
      destruct (proj1 (Forall_forall _ _) Hu _ Hin) as [_ Hne].
      congruence. }
    split; [apply Hno, Fl |]. split.
    + intro Hin. apply in_app_or in Hin. destruct Hin as [Hin | [Hin | Hin]].
      * exact (Hno d Fd Hin).
      * discriminate.
      * exact (Hno t Ft Hin).
    + exists d, t. repeat split; assumption.
Qed.

Lemma accepted_address_has_one_at_witness :
  count_occ N.eq_dec (js "a@b.co") 64%N = 1%nat
  /\ Forall (fun c => isWhiteSpace c = false) (js "a@b.co").
Proof.
  destruct (accepted_address_has_one_at (js "a@b.co") eq_refl)
    as (A & B & _).
  split; [exact A | exact B].
Defined.

Lemma trimStart_blank (s : jsstring) :
  trimStart s = [] <-> Forall (fun c => isWhiteSpace c = true) s.
Proof.
  induction s as [|c s IH]; cbn [trimStart].
  - split; [constructor | reflexivity].
  - destruct (isWhiteSpace c) eqn:Hc.
    + rewrite IH. split; [intro H; constructor; assumption |].
      intro H. inversion H; assumption.
    + split; [discriminate |]. intro H. inversion H. congruence.
Qed.

Lemma trimStart_head (s : jsstring) :
  trimStart s = [] \/ exists c r, trimStart s = c :: r /\ isWhiteSpace c = false.
Proof.
  induction s as [|c s IH]; cbn [trimStart]; [left; reflexivity |].
  destruct (isWhiteSpace c) eqn:Hc; [exact IH |].
  right. exists c, s. split; [reflexivity | exact Hc].
Qed.

(** The trimmed value is empty exactly for a value of white space
    only. *)
Lemma trim_blank (s : jsstring) :
  trim s = [] <-> Forall (fun c => isWhiteSpace c = true) s.
Proof.
  unfold trim, trimEnd. split.
  - intro H. apply (f_equal (@rev N)) in H.
    rewrite rev_involutive in H. cbn [rev] in H.
    apply trimStart_blank in H. apply Forall_rev in H.
    rewrite rev_involutive in H.
    destruct (trimStart_head s) as [E | (c & r & E & Hc)].
    + apply trimStart_blank. exact E.
    + rewrite E in H. inversion H. congruence.
  - intro H. apply trimStart_blank in H. rewrite H. reflexivity.
Qed.

(** X27: [validateField] marks a required field as missing, with the
    red border and the message 'This field is required', exactly when
    its value holds white space only, whatever its type; it marks an
    email field whose trimmed value is not empty and does not match
    the pattern with 'Please enter a valid email address'; and it
    leaves an accepted field with no border colour and no message,
    whatever error the field showed before. *)
Theorem validateField_messages (f : Field) :
  (required f = true ->
   (Forall (fun c => isWhiteSpace c = true) (value f)
    <-> errorDiv (snd (validateField f))
        = Some (js "This field is required")))
  /\ (required f = true ->
      Forall (fun c => isWhiteSpace c = true) (value f) ->
      validateField f
      = (false,
         mkField (value f) true (type f) (js "#dc2626")
           (Some (js "This field is required"))))
  /\ (type f = js "email" -> trim (value f) <> [] ->
      test emailRegex (trim (value f)) = false ->
      validateField f
      = (false,
         mkField (value f) (required f) (type f) (js "#dc2626")
           (Some (js "Please enter a valid email address"))))
  /\ (fst (validateField f) = true ->
      snd (validateField f)
      = mkField (value f) (required f) (type f) [] None).
Proof.
  unfold validateField, showFieldError, clearFieldError.
  cbn [required type value].
  rewrite <- (trim_blank (value f)), <- (truthy_false (trim (value f))).
  rewrite <- (str_eqb_eq (type f) (js "email")).
  destruct (required f), (truthy (trim (value f))),
    (str_eqb (type f) (js "email")), (test emailRegex (trim (value f)));
    cbn; repeat split; intros; try reflexivity; try discriminate;
    try congruence; try (exfalso; auto; fail).
Qed.

Lemma validateField_messages_witness :
  validateField blankName
  = (false,
     mkField (value blankName) true (type blankName) (js "#dc2626")
       (Some (js "This field is required")))
  /\ validateField badEmail
     = (false,
        mkField (value badEmail) (required badEmail) (type badEmail)
          (js "#dc2626") (Some (js "Please enter a valid email address"))).
Proof.
  split.
  - apply (proj1 (proj2 (validateField_messages blankName))).
    + reflexivity.
    + repeat constructor.
  - apply (proj1 (proj2 (proj2 (validateField_messages badEmail)))).
    + reflexivity.
    + discriminate.
    + reflexivity.
Defined.

(** ** Events *)

Lemma animate_keeps_node (pc : ParticleClosure) (w : World) :
  exists w', animate pc w = Normal w' /\ cursorNode w' = cursorNode w
             /\ cursorFrame w' = cursorFrame w
             /\ particleFrame w' <> None.
Proof.
  unfold animate.
  destruct (animateFrame _ _ _) as [ps' ops].
  eexists; split; [reflexivity | repeat split]. discriminate.
Qed.

Lemma frame_moves_cursor (cl : CursorClosure) (el : CursorElement)
  (w : World) :
  cursorFrame w = Some cl -> cursorNode w = Some el ->
  exists w',
    dispatch w AnimationFrame = Normal w'
    /\ cursorFrame w' = Some (stepCursor cl)
    /\ cursorNode w'
       = Some (mkCursorElement
                 (Some (currentX (stepCursor cl) - CONFIG.cursor.size / 2,
                        currentY (stepCursor cl) - CONFIG.cursor.size / 2))
                 (el_targetX el) (el_targetY el)).
Proof.
  intros Hc Hn. cbn [dispatch]. rewrite Hc. unfold updateCursor.
  rewrite Hn. cbn [option_map bind].
  match goal with
  | |- context [particleFrame ?w1] => destruct (particleFrame w1) as [pc|]
  end.
  - match goal with
    | |- context [animate pc ?w1] =>
        destruct (animate_keeps_node pc w1) as (w2 & E & N & C & _)
    end.
    exists w2. split; [exact E |]. rewrite C, N. split; reflexivity.
  - eexists. split; [reflexivity |]. split; reflexivity.
Qed.

Lemma frames_move_cursor (n : nat) (cl : CursorClosure)
  (el : CursorElement) (w : World) :
  cursorFrame w = Some cl -> cursorNode w = Some el ->
  exists w',
    run (repeat AnimationFrame (S n)) w = Normal w'
    /\ cursorFrame w' = Some (follow (S n) cl)
    /\ cursorNode w'
       = Some (mkCursorElement
                 (Some (currentX (follow (S n) cl) - CONFIG.cursor.size / 2,
                        currentY (follow (S n) cl) - CONFIG.cursor.size / 2))
                 (el_targetX el) (el_targetY el)).
Proof.
  revert w cl el. induction n as [|n IH]; intros w cl el Hc Hn.
  - destruct (frame_moves_cursor cl el w Hc Hn) as (w1 & E1 & C1 & N1).
    exists w1. cbn [repeat]. rewrite run_cons, E1. cbn [bind run follow].
    split; [reflexivity | split; assumption].
  - destruct (frame_moves_cursor cl el w Hc Hn) as (w1 & E1 & C1 & N1).
    destruct (IH w1 _ _ C1 N1) as (w2 & E2 & C2 & N2).
    exists w2.
    change (repeat AnimationFrame (S (S n)))
      with (AnimationFrame :: repeat AnimationFrame (S n)).
    rewrite run_cons, E1. cbn [bind]. split; [exact E2 |].
    split; [exact C2 | exact N2].
Qed.

(** The closure of [initializeCursor] does not move. *)
Lemma stepCursor_origin : stepCursor originCursor = originCursor.
Proof.
  unfold stepCursor, originCursor, utils.lerp.
  cbn [currentX currentY targetX targetY]. f_equal; lra.
Qed.

Lemma initializeCursor_places (w : World) (el : CursorElement) :
  motionDisabled w = false -> cursorNode w = Some el ->
  exists w', initializeCursor w = Normal w'
    /\ cursorFrame w' = Some originCursor
    /\ cursorNode w'
       = Some (mkCursorElement
                 (Some (0 - CONFIG.cursor.size / 2,
                        0 - CONFIG.cursor.size / 2))
                 (el_targetX el) (el_targetY el))
    /\ particleFrame w' = particleFrame w.
Proof.
  intros Hm Hc. unfold initializeCursor. rewrite Hm, Hc.
  unfold updateCursor. rewrite Hc. cbn [bind option_map].
  fold originCursor. rewrite stepCursor_origin.
  eexists. split; [reflexivity |]. repeat split.
Qed.

(** Every event leaves the closure of [initializeCursor] and the
    translation of the element as they are; a pointer move writes the
    two properties of the element. *)
Lemma dispatch_origin (ev : Event) (w : World) (el : CursorElement) :
  cursorFrame w = Some originCursor -> cursorNode w = Some el ->
  transform el
  = Some (0 - CONFIG.cursor.size / 2, 0 - CONFIG.cursor.size / 2) ->
  exists w' el',
    dispatch w ev = Normal w'
    /\ cursorFrame w' = Some originCursor
    /\ cursorNode w' = Some el'
    /\ transform el' = transform el
    /\ (el_targetX el', el_targetY el')
       = lastTarget [ev] (el_targetX el, el_targetY el).
Proof.
  intros Hc Hn Ht. destruct ev as [cx cy| |].
  - destruct (handleMouseMove_effect cx cy w)
      as (w' & E & _ & _ & _ & C & _ & N).
    rewrite Hn in N. cbn [option_map] in N.
    exists w'. eexists. split; [exact E |].
    split; [congruence |]. split; [exact N |].
    split; reflexivity.
  - destruct (frame_moves_cursor originCursor el w Hc Hn)
      as (w' & E & C & N).
    rewrite stepCursor_origin in C, N.
    exists w'. eexists. split; [exact E |].
    split; [exact C |]. split; [exact N |].
    split; [symmetry; exact Ht | reflexivity].
  - exists (let t := if str_eqb (currentTheme (STATE w)) light
                     then dark else light in
            set_storedTheme (Some t)
              (set_dataTheme (Some t)
                 (set_STATE
                    (mkSTATE t (mousePosition (STATE w))
                       (isReducedMotion (STATE w))) w))), el.
    split; [reflexivity |]. split; [exact Hc |]. split; [exact Hn |].
    split; reflexivity.
Qed.

Lemma run_origin (es : list Event) (w : World) (el : CursorElement) :
  cursorFrame w = Some originCursor -> cursorNode w = Some el ->
  transform el
  = Some (0 - CONFIG.cursor.size / 2, 0 - CONFIG.cursor.size / 2) ->
  exists w' el',
    run es w = Normal w'
    /\ cursorFrame w' = Some originCursor
    /\ cursorNode w' = Some el'
    /\ transform el' = transform el
    /\ (el_targetX el', el_targetY el')
       = lastTarget es (el_targetX el, el_targetY el).
Proof.
  revert w el. induction es as [|ev es IH]; intros w el Hc Hn Ht.
  - exists w, el. repeat split; assumption.
  - destruct (dispatch_origin ev w el Hc Hn Ht)
      as (w1 & el1 & E1 & C1 & N1 & T1 & L1).
    destruct (IH w1 el1 C1 N1 (eq_trans T1 Ht))
      as (w2 & el2 & E2 & C2 & N2 & T2 & L2).
    exists w2, el2. rewrite run_cons, E1. cbn [bind].
    split; [exact E2 |]. split; [exact C2 |]. split; [exact N2 |].
    split; [congruence |].
    rewrite L2, L1. destruct ev; reflexivity.
Qed.

(** X28: on a page whose cursor loop is running, [n + 1] animation
    frames apply the step of [updateCursor] [n + 1] times to the
    captured variables, leave the target as it was, and leave the
    [.cursor] element translated to the rendered position less half
    the cursor size, its properties [targetX] and [targetY] untouched.
    On a page loaded with a [.cursor] element and motion allowed, after
    any pointer moves, frames and theme changes the loop is pending
    with the rendered position and the target both at (0, 0), the
    element is translated to (-10, -10), and its properties [targetX]
    and [targetY] hold the coordinates of the last pointer move. *)
Theorem cursor_position_after_frames (n : nat) (w : World)
  (cl : CursorClosure) (el : CursorElement) (e : Environment)
  (es : list Event) :
  (cursorFrame w = Some cl -> cursorNode w = Some el ->
   exists w',
     run (repeat AnimationFrame (S n)) w = Normal w'
     /\ cursorFrame w' = Some (follow (S n) cl)
     /\ follow (S n) cl = stepCursor (follow n cl)
     /\ targetX (follow (S n) cl) = targetX cl
     /\ targetY (follow (S n) cl) = targetY cl
     /\ cursorNode w'
        = Some (mkCursorElement
                  (Some (currentX (follow (S n) cl) - CONFIG.cursor.size / 2,
                         currentY (follow (S n) cl) - CONFIG.cursor.size / 2))
                  (el_targetX el) (el_targetY el)))
  /\ (env_reducedMotion e = false -> (768 < env_innerWidth e)%Z ->
      env_cursor e = Some el ->
      exists w0 w' el',
        boot e = Normal w0 /\ run es w0 = Normal w'
        /\ cursorFrame w' = Some (mkCursorClosure 0 0 0 0)
        /\ cursorNode w' = Some el'
        /\ transform el'
           = Some (0 - CONFIG.cursor.size / 2, 0 - CONFIG.cursor.size / 2)
        /\ 0 - CONFIG.cursor.size / 2 = -10
        /\ (el_targetX el', el_targetY el')
           = lastTarget es (el_targetX el, el_targetY el)).
Proof.
  split.
  - intros Hc Hn.
    destruct (frames_move_cursor n cl el w Hc Hn) as (w' & E & C & N).
    destruct (follow_target (S n) cl) as [Tx Ty].
    exists w'. split; [exact E |]. split; [exact C |].
    split; [apply follow_S |]. repeat split; assumption.
  - intros Hm Hw Hel.
    unfold boot, init. cbn [initializeTheme bind].
    set (w1 := set_dataTheme _ (load e)).
    assert (motionDisabled w1 = false) as Hm1.
    { unfold motionDisabled. cbn. rewrite Hm. cbn [orb].
      apply Z.leb_gt. exact Hw. }
    assert (cursorNode w1 = Some el) as Hc1 by exact Hel.
    destruct (initializeCursor_places w1 el Hm1 Hc1)
      as (w2 & E2 & C2 & N2 & _).
    rewrite E2. cbn [bind].
    destruct (initializeParticles_keeps w2)
      as (w3 & E3 & _ & _ & _ & N3 & C3).
    rewrite N2 in N3. rewrite C2 in C3.
    destruct (run_origin es w3 _ C3 N3 eq_refl)
      as (w' & el' & E & C & N & T & L).
    exists w3, w', el'.
    split; [exact E3 |]. split; [exact E |]. split; [exact C |].
    split; [exact N |]. split; [exact T |].
    split; [unfold CONFIG.cursor.size; lra | exact L].
Qed.

Lemma cursor_position_after_frames_witness :
  (exists w',
     run (repeat AnimationFrame 3) desktopPage = Normal w'
     /\ cursorFrame w' = Some (follow 3 (stepCursor originCursor)))
  /\ (exists w0 w' el',
        boot desktop = Normal w0
        /\ run [MouseMove 30 40; AnimationFrame; ThemeChange;
                AnimationFrame] w0 = Normal w'
        /\ cursorFrame w' = Some (mkCursorClosure 0 0 0 0)
        /\ cursorNode w' = Some el'
        /\ transform el'
           = Some (0 - CONFIG.cursor.size / 2, 0 - CONFIG.cursor.size / 2)
        /\ (el_targetX el', el_targetY el') = (Some 30, Some 40)).
Proof.
  split.
  - destruct (proj1 (cursor_position_after_frames 2 desktopPage
                       (stepCursor originCursor)
                       (mkCursorElement
                          (Some (currentX (stepCursor originCursor)
                                 - CONFIG.cursor.size / 2,
                                 currentY (stepCursor originCursor)
                                 - CONFIG.cursor.size / 2))
                          None None)
                       desktop []) eq_refl eq_refl)
      as (w' & E & C & _).
    exists w'. split; [exact E | exact C].
  - destruct (proj2 (cursor_position_after_frames 0 desktopPage
                       originCursor plainCursor desktop
                       [MouseMove 30 40; AnimationFrame; ThemeChange;
                        AnimationFrame])
                eq_refl eq_refl eq_refl)
      as (w0 & w' & el' & E0 & E & C & N & T & _ & L).
    exists w0, w', el'. repeat split; assumption.
Defined.

Lemma dispatch_tracks_pointer (ev : Event) (w : World) :
  exists w',
    dispatch w ev = Normal w'
    /\ mousePosition (STATE w') = lastMove [ev] (mousePosition (STATE w))
    /\ (cursorFrame w = None -> cursorFrame w' = None)
    /\ (particleFrame w = None -> particleFrame w' = None).
Proof.
  destruct ev as [cx cy| |].
  - destruct (handleMouseMove_effect cx cy w)
      as (w' & E & M & _ & _ & C & P & _).
    exists w'. cbn [dispatch lastMove]. rewrite C, P. repeat split; auto.
  - cbn [dispatch lastMove].
    destruct (cursorFrame w) as [cl|] eqn:Hc.
    + destruct (updateCursor_frame cl w) as (w1 & E1 & C1 & P1).
      assert (STATE w1 = STATE w) as S1
        by (unfold updateCursor in E1; injection E1 as <-; reflexivity).
      rewrite E1. cbn [bind].
      destruct (particleFrame w1) as [pc|] eqn:Hp.
      * destruct (animate_keeps_cursor pc w1) as (w2 & E2 & _ & S2 & _).
        exists w2. split; [exact E2 |]. rewrite S2, S1.
        split; [reflexivity |]. split; [discriminate |].
        intro H. congruence.
      * exists w1. split; [reflexivity |]. rewrite S1.
        split; [reflexivity |]. split; [discriminate |].
        intros _. exact Hp.
    + cbn [bind].
      destruct (particleFrame w) as [pc|] eqn:Hp.
      * destruct (animate_keeps_cursor pc w) as (w2 & E2 & C2 & S2 & _).
        exists w2. split; [exact E2 |]. rewrite S2.
        split; [reflexivity |]. split; [intros _; congruence | discriminate].
      * exists w. repeat split; auto.
  - destruct (toggleTheme_effect w) as (w' & E & _ & _ & _ & M & _ & C & P).
    exists w'. cbn [dispatch lastMove]. rewrite C, P. repeat split; auto.
Qed.

(** X29: every sequence of pointer moves, animation frames and theme
    changes is handled without an exception; afterwards
    [STATE.mousePosition] holds the coordinates of the last pointer
    move, or what it held before if there was none, and a cursor or
    particle loop that was not running is still not running. *)
Theorem events_track_pointer (es : list Event) (w : World) :
  exists w',
    run es w = Normal w'
    /\ mousePosition (STATE w') = lastMove es (mousePosition (STATE w))
    /\ (cursorFrame w = None -> cursorFrame w' = None)
    /\ (particleFrame w = None -> particleFrame w' = None).
Proof.
  revert w. induction es as [|ev es IH]; intro w.
  - exists w. repeat split; auto.
  - destruct (dispatch_tracks_pointer ev w) as (w1 & E1 & M1 & C1 & P1).
    destruct (IH w1) as (w2 & E2 & M2 & C2 & P2).
    exists w2. rewrite run_cons, E1. cbn [bind].
    split; [exact E2 |]. split.
    + rewrite M2, M1. destruct ev; reflexivity.
    + split; auto.
Qed.

Lemma events_track_pointer_witness :
  exists w',
    run [MouseMove 100 50; AnimationFrame; MouseMove 7 9; ThemeChange]
      (load bare) = Normal w'
    /\ mousePosition (STATE w') = (7, 9)
    /\ cursorFrame w' = None.
Proof.
  destruct (events_track_pointer
              [MouseMove 100 50; AnimationFrame; MouseMove 7 9; ThemeChange]
              (load bare)) as (w' & E & M & C & _).
  exists w'. split; [exact E |]. split; [exact M | apply C; reflexivity].
Defined.

(** ** What a frame paints *)

Lemma connect_strokes (p : Particle) (others : list Particle) :
  filter isStroke (connect p others) = connect p others
  /\ filter isArc (connect p others) = []
  /\ (List.length (connect p others) <= List.length others)%nat
  /\ (In p others -> (1 <= List.length (connect p others))%nat).
Proof.
  induction others as [|q others (IHs & IHa & IHl & IHin)].
  - repeat split; try reflexivity. intros [].
  - rewrite connect_cons, connect_one.
    destruct (ltb_spec (distance p q) 100) as [Hd | Hd]; cbn [app].
    + cbn [filter isStroke isArc List.length]. rewrite IHs, IHa.
      repeat split; try reflexivity; lia.
    + repeat split; try assumption.
      * cbn [List.length]. lia.
      * intros [-> | Hin]; [| exact (IHin Hin)].
        rewrite distance_self in Hd. lra.
Qed.

Lemma forEachParticle_counts (cw ch : R) (todo done : list Particle) :
  let ops := snd (forEachParticle cw ch done todo) in
  arcs ops = List.length todo
  /\ (List.length todo <= strokes ops
      <= List.length todo * (List.length done + List.length todo))%nat.
Proof.
  revert done. induction todo as [|p rest IH]; intro done.
  - cbn. split; [reflexivity | lia].
  - cbn [forEachParticle].
    specialize (IH (done ++ [advance cw ch p])).
    destruct (forEachParticle cw ch (done ++ [advance cw ch p]) rest)
      as [final ops'].
    cbn [snd] in *. destruct IH as [IHa [IHlo IHhi]].
    destruct (connect_strokes (advance cw ch p)
                (done ++ advance cw ch p :: rest))
      as (Hs & Ha & Hl & Hin).
    specialize (Hin (in_elt _ _ _)).
    rewrite length_app in IHhi, Hl. cbn [List.length] in IHhi, Hl.
    unfold arcs, strokes in *.
    cbn [app filter isArc isStroke List.length].
    rewrite !filter_app, !length_app, Hs, Ha. cbn [List.length].
    split; [lia |]. split; [lia | nia].
Qed.

(** X30: a frame over [n] particles first clears the canvas, fills
    exactly [n] circles, and strokes at least [n] and at most [n * n]
    lines: every particle is checked against all [n] particles, itself
    included. *)
Theorem frame_paints_n_circles (cw ch : R) (ps : list Particle) :
  let ops := snd (animateFrame cw ch ps) in
  hd_error ops = Some (ClearRect cw ch)
  /\ arcs ops = List.length ps
  /\ (List.length ps <= strokes ops <= List.length ps * List.length ps)%nat
  /\ List.length (fst (animateFrame cw ch ps)) = List.length ps.
Proof.
  intro ops. subst ops.
  pose proof (forEachParticle_counts cw ch ps []) as H.
  pose proof (animateFrame_particles cw ch ps) as Hp.
  unfold animateFrame in *.
  destruct (forEachParticle cw ch [] ps) as [ps' ops]. cbn [fst snd] in *.
  destruct H as [Ha Hs].
  split; [reflexivity |].
  split; [exact Ha |].
  split; [exact Hs |].
  rewrite Hp. apply length_map.
Qed.
